(** * liionpack: the pack solver's step loop, workers and event detector

    A shallow embedding of [liionpack/solvers.py] and of the helper
    [build_inputs_dict] and [get_interpolated_htc] of [liionpack/utils.py].

    - numpy [float64] arrays are lists of Rocq's primitive binary64 floats,
      so every arithmetic operation and comparison below is the IEEE one the
      Python code performs;
    - a pandas netlist is a list of rows, a boolean mask a list of booleans;
    - attribute assignment on [self] is explicit state passing over the record
      [manager]; a Python exception is the outcome [Raised], which keeps the
      state reached when it was raised;
    - the collaborators that are not part of these two files (the circuit
      solver, the cell-model integrator and its construction) are section
      variables. *)

From Stdlib Require Import Floats ZArith String Ascii Bool Arith Lia List.
Import ListNotations.

Set Implicit Arguments.
Set Warnings "-inexact-float".

#[local] Open Scope list_scope.

(** ** Python exceptions *)

Inductive exn : Type :=
| ValueError
| IndexError
| KeyError
| AttributeError
| TypeError
| NameError
| IntegrationError.

Inductive res (A : Type) : Type :=
| Ok (a : A)
| Err (e : exn).

Arguments Ok {A} a.
Arguments Err {A} e.

Definition res_bind {A B} (r : res A) (f : A -> res B) : res B :=
  match r with
  | Ok a => f a
  | Err e => Err e
  end.

Definition of_option {A} (e : exn) (o : option A) : res A :=
  match o with
  | Some a => Ok a
  | None => Err e
  end.

Fixpoint res_mapM {A B} (f : A -> res B) (l : list A) : res (list B) :=
  match l with
  | [] => Ok []
  | x :: t =>
      res_bind (f x) (fun y => res_bind (res_mapM f t) (fun ys => Ok (y :: ys)))
  end.

(** ** numpy *)

Module np.

Definition arange (n : nat) : list nat := seq 0 n.

Definition zeros (n : nat) : list float := repeat 0%float n.

Definition zeros2 (r c : nat) : list (list float) := repeat (zeros c) r.

Definition zeros3 (p r c : nat) : list (list (list float)) :=
  repeat (zeros2 r c) p.

(** [ary[st:en]] for [0 <= st], [0 <= en]. *)
Definition slice {A} (ary : list A) (st en : nat) : list A :=
  firstn (en - st) (skipn st ary).

Fixpoint cumsum_from (acc : nat) (l : list nat) : list nat :=
  match l with
  | [] => []
  | x :: t => (acc + x) :: cumsum_from (acc + x) t
  end.

Definition cumsum (l : list nat) : list nat := cumsum_from 0 l.

(** [np.array_split(ary, Nsections)] with an integer number of sections:
    [extras] leading sections of [Neach_section + 1] elements, the others of
    [Neach_section]; the sections are cut at the running sums. *)
Definition section_sizes (Ntotal Nsections : nat) : list nat :=
  let Neach_section := Ntotal / Nsections in
  let extras := Ntotal mod Nsections in
  [0] ++ repeat (Neach_section + 1) extras
      ++ repeat Neach_section (Nsections - extras).

Definition array_split {A} (ary : list A) (Nsections : nat)
  : res (list (list A)) :=
  let Ntotal := length ary in
  if Nsections =? 0 then Err ValueError
  else
    let div_points := cumsum (section_sizes Ntotal Nsections) in
    Ok (map (fun i => slice ary (nth i div_points 0) (nth (i + 1) div_points 0))
            (seq 0 Nsections)).

(** [np.sign] on one float: -1, 0 or 1, and nan for nan. *)
Definition sign (x : float) : float :=
  if (x <? 0)%float then (-1)%float
  else if (0 <? x)%float then 1%float
  else if (x =? 0)%float then 0%float
  else nan.

(** Assigning a one-dimensional value to a slot of [n] entries: the value
    is taken as it is when its length is [n], repeated when its length is
    1, and refused otherwise. *)
Definition broadcast_to {A} (n : nat) (xs : list A) : res (list A) :=
  if length xs =? n then Ok xs
  else match xs with
       | [x] => Ok (repeat x n)
       | _ => Err ValueError
       end.

End np.

(** ** Lists as Python sequences *)

(** [l[i] = v]; [IndexError] out of range. *)
Fixpoint set_nth {A} (i : nat) (v : A) (l : list A) : res (list A) :=
  match l, i with
  | [], _ => Err IndexError
  | _ :: t, O => Ok (v :: t)
  | x :: t, S j => res_bind (set_nth j v t) (fun t' => Ok (x :: t'))
  end.

Definition get_nth {A} (i : nat) (l : list A) : res A :=
  of_option IndexError (nth_error l i).

Definition zip_with {A B C} (f : A -> B -> C) (l1 : list A) (l2 : list B)
  : list C :=
  map (fun p => f (fst p) (snd p)) (combine l1 l2).

Definition count_true (mask : list bool) : nat :=
  length (filter (fun b => b) mask).

(** [a[mask]]: the entries of [a] where the mask is true. *)
Fixpoint select {A} (mask : list bool) (l : list A) : list A :=
  match mask, l with
  | b :: mask', x :: l' => if b then x :: select mask' l' else select mask' l'
  | _, _ => []
  end.

(** [a[mask] = v] for a scalar [v]. *)
Fixpoint mask_set {A} (mask : list bool) (v : A) (l : list A) : list A :=
  match mask, l with
  | b :: mask', x :: l' => (if b then v else x) :: mask_set mask' v l'
  | _, _ => l
  end.

Definition float_of_nat (n : nat) : float :=
  PrimFloat.of_uint63 (Uint63.of_Z (Z.of_nat n)).

(** ** The netlist: a pandas DataFrame with columns desc, node1, node2, value *)

Record row : Type := mk_row
  { desc : string; node1 : nat; node2 : nat; value : float }.

Definition netlist_t : Type := list row.

Definition with_value (v : float) (r : row) : row :=
  {| desc := desc r; node1 := node1 r; node2 := node2 r; value := v |}.

(** [s.find(sub)]: the index of the first occurrence of [sub] in [s], or -1. *)
Definition str_find (sub s : string) : Z :=
  match String.index 0 sub s with
  | Some i => Z.of_nat i
  | None => (-1)%Z
  end.

(** [netlist["desc"].str.find(sub) > -1] *)
Definition desc_map (sub : string) (nl : netlist_t) : list bool :=
  map (fun r => (-1 <? str_find sub (desc r))%Z) nl.

(** The rows of the mask receive the values in order. *)
Fixpoint loc_fill (mask : list bool) (nl : netlist_t) (vals : list float)
  : netlist_t :=
  match mask, nl with
  | true :: mask', r :: nl' =>
      match vals with
      | v :: vals' => with_value v r :: loc_fill mask' nl' vals'
      | [] => r :: loc_fill mask' nl' []
      end
  | false :: mask', r :: nl' => r :: loc_fill mask' nl' vals
  | _, _ => nl
  end.

(** [netlist.loc[mask, "value"] = vals] for an array [vals]: one value per
    selected row; pandas refuses an array of another length. *)
Definition loc_set_array (mask : list bool) (nl : netlist_t) (vals : list float)
  : res netlist_t :=
  if count_true mask =? length vals then Ok (loc_fill mask nl vals)
  else Err ValueError.

(** [netlist.loc[mask, "value"] = v] for a scalar [v]. *)
Fixpoint loc_set_scalar (mask : list bool) (nl : netlist_t) (v : float)
  : netlist_t :=
  match mask, nl with
  | b :: mask', r :: nl' =>
      (if b then with_value v r else r) :: loc_set_scalar mask' nl' v
  | _, _ => nl
  end.

(** ** utils.build_inputs_dict *)

(** The inputs dictionary of one battery: its two keys are [Current] and
    [Total heat transfer coefficient [W.m-2.K-1]]. *)
Record cell_input : Type := mk_input
  { Current : float; Total_heat_transfer_coefficient : float }.

Fixpoint build_inputs_from (i : nat) (I_batt htc : list float)
  : res (list cell_input) :=
  match I_batt with
  | [] => Ok []
  | c :: rest =>
      res_bind (get_nth i htc) (fun h =>
      res_bind (build_inputs_from (S i) rest htc) (fun t =>
      Ok (mk_input c h :: t)))
  end.

Definition build_inputs_dict (I_batt htc : list float) : res (list cell_input) :=
  build_inputs_from 0 I_batt htc.

(** ** utils.get_interpolated_htc *)

(** [for i in range(ncell): htc[i] = funcs[i](T[i], Q)], an interpolant
    being a function of a temperature and a flow rate. *)
Fixpoint interpolate_each (indices : list nat)
    (funcs : list (float -> float -> float)) (T : list float) (Q : float)
    (htc : list float) : res (list float) :=
  match indices with
  | [] => Ok htc
  | i :: rest =>
      res_bind (get_nth i funcs) (fun f =>
      res_bind (get_nth i T) (fun t =>
      res_bind (set_nth i (f t Q) htc) (fun htc' =>
      interpolate_each rest funcs T Q htc')))
  end.

Definition get_interpolated_htc (funcs : list (float -> float -> float))
    (T : list float) (Q : float) : res (list float) :=
  let ncell := length T in
  let htc := np.zeros ncell in
  interpolate_each (seq 0 ncell) funcs T Q htc.

(** ** The experiment and the parameter set *)

(** [protocol] stands for [lp.generate_protocol_from_experiment(experiment)],
    a function of the experiment alone. *)
Record experiment_t : Type := mk_experiment
  { period : float; protocol : list float }.

Definition parameter_values_t : Type := list (string * float).

Fixpoint param_get (key : string) (p : parameter_values_t) : res float :=
  match p with
  | [] => Err KeyError
  | (k, v) :: t => if String.eqb key k then Ok v else param_get key t
  end.

(** ** The logger *)

Inductive log_entry : Type :=
| Notice (msg : string)
| Warning (msg : string)
| Printed (msg : string)
| EventWarning (event_name : string) (batteries : list nat).

(** ** A value of the result mapping *)

Inductive series : Type :=
| Series1 (a : list float)
| Series2 (a : list (list float)).

Definition matrix : Type := list (list float).

Definition np_any (l : list bool) : bool := existsb (fun b => b) l.

Definition np_any2 (l : list (list bool)) : bool := existsb np_any l.

(** [np.where(row)]: the indices of the true entries. *)
Fixpoint where_from (i : nat) (l : list bool) : list nat :=
  match l with
  | [] => []
  | b :: t => if b then i :: where_from (S i) t else where_from (S i) t
  end.

Definition np_where (l : list bool) : list nat := where_from 0 l.

(** ** The model, over the collaborators *)

Section Solvers.

(** A cell's pybamm solution, as the step functions return it. *)
Variable CellSol : Type.

(** What [setup] builds and [step] hands to the step function: the
    simulation with its initial concentrations and the casadi objects
    (integrator, variables_fn, t_eval, events_fn, event_names). *)
Variable CasadiObjs : Type.

(** A user's [sim_func]. *)
Variable SimFunc : Type.

(** [lp.create_simulation] or [sim_func], [lp.update_init_conc] and
    [solver_utils._create_casadi_objects] in one:
    [cco sim_func parameter_values initial_soc I_init htc_init dt Nspm
    nproc variable_names mapped]. *)
Variable cco :
  option SimFunc -> parameter_values_t -> float -> float -> float ->
  float -> nat -> nat -> list string -> bool -> CasadiObjs.

Variable event_names_of : CasadiObjs -> list string.

(** [solver_utils._serial_step] and [_mapped_step]: the new solutions, the
    evaluated variables [variable, cell] and the evaluated events
    [event, cell]; [None] when the integration fails. *)
Variable ss ms :
  CasadiObjs -> list (option CellSol) -> list cell_input ->
  option (list (option CellSol) * matrix * matrix).

(** [lp.solve_circuit_vectorized]: node voltages and battery currents. *)
Variable solve_circuit_vectorized : netlist_t -> list float * list float.

(** *** generic_actor *)

(** An attribute that [setup] does not assign ([var_eval], [events_eval])
    is [None] until [step] assigns it. *)
Record generic_actor : Type := mk_actor
  { step_solutions : list (option CellSol);
    casadi_objs : CasadiObjs;
    mapped : bool;
    var_eval : option matrix;
    events_eval : option matrix;
    last_events : option matrix;
    event_change : option (list (list bool)) }.

Definition actor_setup (Nspm : nat) (sim_func : option SimFunc)
    (parameter_values : parameter_values_t) (dt I_init htc_init : float)
    (variable_names : list string) (initial_soc : float) (nproc : nat)
  : generic_actor :=
  let mapped := 1 <? nproc in
  {| step_solutions := repeat None Nspm;
     casadi_objs := cco sim_func parameter_values initial_soc I_init htc_init
                        dt Nspm nproc variable_names mapped;
     mapped := mapped;
     var_eval := None;
     events_eval := None;
     last_events := None;
     event_change := None |}.

Definition step_fn (a : generic_actor) :=
  if mapped a then ms else ss.

Definition check_events (a : generic_actor) : res (generic_actor * bool) :=
  match events_eval a with
  | None => Err AttributeError
  | Some ev =>
      match last_events a with
      | Some last =>
          let new_sign := map (map np.sign) ev in
          let old_sign := map (map np.sign) last in
          let change :=
            zip_with (zip_with (fun o n => (o * n <? 0)%float))
                     old_sign new_sign in
          Ok ({| step_solutions := step_solutions a;
                 casadi_objs := casadi_objs a;
                 mapped := mapped a;
                 var_eval := var_eval a;
                 events_eval := events_eval a;
                 last_events := Some ev;
                 event_change := Some change |},
              np_any2 change)
      | None =>
          Ok ({| step_solutions := step_solutions a;
                 casadi_objs := casadi_objs a;
                 mapped := mapped a;
                 var_eval := var_eval a;
                 events_eval := events_eval a;
                 last_events := Some ev;
                 event_change := event_change a |},
              false)
      end
  end.

Definition actor_step (a : generic_actor) (inputs : list cell_input)
  : res (generic_actor * bool) :=
  match step_fn a (casadi_objs a) (step_solutions a) inputs with
  | None => Err IntegrationError
  | Some (sols, vars, events) =>
      check_events
        {| step_solutions := sols;
           casadi_objs := casadi_objs a;
           mapped := mapped a;
           var_eval := Some vars;
           events_eval := Some events;
           last_events := last_events a;
           event_change := event_change a |}
  end.

Definition get_event_change (a : generic_actor) := event_change a.

Definition get_event_names (a : generic_actor) :=
  event_names_of (casadi_objs a).

Definition actor_output (a : generic_actor) : res matrix :=
  of_option AttributeError (var_eval a).

(** *** The managers *)

Inductive manager_kind : Type :=
| generic_manager
| ray_manager
| casadi_manager
| dask_manager.

(** [spm_per_worker] is an integer for the casadi manager and a list for the
    ray and dask managers. *)
Inductive spm_per_worker_t : Type :=
| SpmInt (n : nat)
| SpmList (l : list nat).

(** *** The manager object

    The attributes of [self] that [solve] and the backend methods assign.
    [sim_func] and [parameter_values] are only handed on to the actors and
    are passed as arguments. *)
Record manager : Type := mk_manager
  { netlist : netlist_t;
    dt : float;
    variable_names : list string;
    shm_i_app : matrix;
    output : list matrix;
    timestep : nat;
    htc : list (list float);
    split_index : list (list nat);
    spm_per_worker : spm_per_worker_t;
    actors : list generic_actor }.

(** What lives outside the manager: the records of [lp.logger] and of
    [print], the number of remote workers alive (ray actors, dask workers)
    and whether the ray runtime or the dask client is up. *)
Record process : Type := mk_process
  { logged : list log_entry;
    live_workers : nat;
    runtime_up : bool }.

Record state : Type := mk_state { self : manager; world : process }.

Definition set_netlist (v : netlist_t) (m : manager) : manager :=
  {| netlist := v;
     dt := dt m;
     variable_names := variable_names m;
     shm_i_app := shm_i_app m;
     output := output m;
     timestep := timestep m;
     htc := htc m;
     split_index := split_index m;
     spm_per_worker := spm_per_worker m;
     actors := actors m |}.

Definition set_dt (v : float) (m : manager) : manager :=
  {| netlist := netlist m;
     dt := v;
     variable_names := variable_names m;
     shm_i_app := shm_i_app m;
     output := output m;
     timestep := timestep m;
     htc := htc m;
     split_index := split_index m;
     spm_per_worker := spm_per_worker m;
     actors := actors m |}.

Definition set_variable_names (v : list string) (m : manager) : manager :=
  {| netlist := netlist m;
     dt := dt m;
     variable_names := v;
     shm_i_app := shm_i_app m;
     output := output m;
     timestep := timestep m;
     htc := htc m;
     split_index := split_index m;
     spm_per_worker := spm_per_worker m;
     actors := actors m |}.

Definition set_shm_i_app (v : matrix) (m : manager) : manager :=
  {| netlist := netlist m;
     dt := dt m;
     variable_names := variable_names m;
     shm_i_app := v;
     output := output m;
     timestep := timestep m;
     htc := htc m;
     split_index := split_index m;
     spm_per_worker := spm_per_worker m;
     actors := actors m |}.

Definition set_output (v : list matrix) (m : manager) : manager :=
  {| netlist := netlist m;
     dt := dt m;
     variable_names := variable_names m;
     shm_i_app := shm_i_app m;
     output := v;
     timestep := timestep m;
     htc := htc m;
     split_index := split_index m;
     spm_per_worker := spm_per_worker m;
     actors := actors m |}.

Definition set_timestep (v : nat) (m : manager) : manager :=
  {| netlist := netlist m;
     dt := dt m;
     variable_names := variable_names m;
     shm_i_app := shm_i_app m;
     output := output m;
     timestep := v;
     htc := htc m;
     split_index := split_index m;
     spm_per_worker := spm_per_worker m;
     actors := actors m |}.

Definition set_htc (v : list (list float)) (m : manager) : manager :=
  {| netlist := netlist m;
     dt := dt m;
     variable_names := variable_names m;
     shm_i_app := shm_i_app m;
     output := output m;
     timestep := timestep m;
     htc := v;
     split_index := split_index m;
     spm_per_worker := spm_per_worker m;
     actors := actors m |}.

Definition set_split_index (v : list (list nat)) (m : manager) : manager :=
  {| netlist := netlist m;
     dt := dt m;
     variable_names := variable_names m;
     shm_i_app := shm_i_app m;
     output := output m;
     timestep := timestep m;
     htc := htc m;
     split_index := v;
     spm_per_worker := spm_per_worker m;
     actors := actors m |}.

Definition set_spm_per_worker (v : spm_per_worker_t) (m : manager) : manager :=
  {| netlist := netlist m;
     dt := dt m;
     variable_names := variable_names m;
     shm_i_app := shm_i_app m;
     output := output m;
     timestep := timestep m;
     htc := htc m;
     split_index := split_index m;
     spm_per_worker := v;
     actors := actors m |}.

Definition set_actors (v : list generic_actor) (m : manager) : manager :=
  {| netlist := netlist m;
     dt := dt m;
     variable_names := variable_names m;
     shm_i_app := shm_i_app m;
     output := output m;
     timestep := timestep m;
     htc := htc m;
     split_index := split_index m;
     spm_per_worker := spm_per_worker m;
     actors := v |}.

Definition set_logged (v : list log_entry) (w : process) : process :=
  {| logged := v;
     live_workers := live_workers w;
     runtime_up := runtime_up w |}.

Definition set_live_workers (v : nat) (w : process) : process :=
  {| logged := logged w;
     live_workers := v;
     runtime_up := runtime_up w |}.

Definition set_runtime_up (v : bool) (w : process) : process :=
  {| logged := logged w;
     live_workers := live_workers w;
     runtime_up := v |}.

(** *** Computations on the state that may raise *)

Inductive outcome (A : Type) : Type :=
| Done (a : A) (s : state)
| Raised (e : exn) (s : state).

Arguments Done {A} a s.
Arguments Raised {A} e s.

Definition M (A : Type) : Type := state -> outcome A.

Definition ret {A} (a : A) : M A := fun s => Done a s.

Definition bind {A B} (c : M A) (k : A -> M B) : M B :=
  fun s =>
    match c s with
    | Done a s' => k a s'
    | Raised e s' => Raised e s'
    end.

Definition raise {A} (e : exn) : M A := fun s => Raised e s.

Definition lift {A} (r : res A) : M A :=
  match r with
  | Ok a => ret a
  | Err e => raise e
  end.

Definition get {A} (f : manager -> A) : M A := fun s => Done (f (self s)) s.

Definition modify (f : manager -> manager) : M unit :=
  fun s => Done tt {| self := f (self s); world := world s |}.

Definition modify_world (f : process -> process) : M unit :=
  fun s => Done tt {| self := self s; world := f (world s) |}.

Definition logger (e : log_entry) : M unit :=
  modify_world (fun w => set_logged (logged w ++ [e]) w).

Notation "x <- c ;; k" := (bind c (fun x => k))
  (at level 61, c at next level, right associativity).
Notation "c ;; k" := (bind c (fun _ => k))
  (at level 61, right associativity).

Fixpoint for_each {A} (l : list A) (body : A -> M unit) : M unit :=
  match l with
  | [] => ret tt
  | x :: t => body x ;; for_each t body
  end.

(** *** Methods of generic_manager shared by the backends *)

Definition actor_i_app (index : nat) : M (list float) :=
  si <- get split_index ;;
  actor_indices <- lift (get_nth index si) ;;
  shm <- get shm_i_app ;;
  t <- get timestep ;;
  i_row <- lift (get_nth t shm) ;;
  lift (res_mapM (fun i => get_nth i i_row) actor_indices).

Definition actor_htc (index : nat) : M (list float) :=
  h <- get htc ;;
  lift (get_nth index h).

Fixpoint build_inputs_for (indices : list nat) : M (list (list cell_input)) :=
  match indices with
  | [] => ret []
  | i :: rest =>
      I_app <- actor_i_app i ;;
      h <- actor_htc i ;;
      d <- lift (build_inputs_dict I_app h) ;;
      inputs <- build_inputs_for rest ;;
      ret (d :: inputs)
  end.

Definition build_inputs : M (list (list cell_input)) :=
  acts <- get actors ;;
  build_inputs_for (seq 0 (length acts)).

(** *** split_models *)

Definition split_models (kind : manager_kind) (Nspm nproc : nat)
    (htc0 : list float) : M unit :=
  match kind with
  | generic_manager => ret tt
  | ray_manager | dask_manager =>
      h <- lift (np.array_split htc0 nproc) ;;
      modify (set_htc h) ;;
      si <- lift (np.array_split (np.arange Nspm) nproc) ;;
      modify (set_split_index si) ;;
      modify (set_spm_per_worker (SpmList (map (@length nat) si)))
  | casadi_manager =>
      modify (set_spm_per_worker (SpmInt Nspm)) ;;
      si <- lift (np.array_split (np.arange Nspm) 1) ;;
      modify (set_split_index si) ;;
      h <- lift (np.array_split htc0 1) ;;
      modify (set_htc h)
  end.

(** *** setup_actors

    Messages of the logger that report elapsed wall-clock time are left out
    here and below. *)

Definition spm_at (i : nat) (s : spm_per_worker_t) : res nat :=
  match s with
  | SpmList l => get_nth i l
  | SpmInt _ => Err TypeError
  end.

Definition setup_remote_actors (sim_func : option SimFunc)
    (parameter_values : parameter_values_t) (nproc : nat)
    (I_init htc_init initial_soc : float) : M unit :=
  spw <- get spm_per_worker ;;
  d <- get dt ;;
  names <- get variable_names ;;
  acts <- lift (res_mapM (fun i =>
            res_bind (spm_at i spw) (fun Nspm =>
            Ok (actor_setup Nspm sim_func parameter_values d I_init htc_init
                            names initial_soc 1)))
          (seq 0 nproc)) ;;
  modify (set_actors acts).

Definition setup_actors (kind : manager_kind) (sim_func : option SimFunc)
    (parameter_values : parameter_values_t) (nproc : nat)
    (I_init htc_init initial_soc : float) : M unit :=
  match kind with
  | generic_manager => ret tt
  | ray_manager =>
      (* one remote actor per worker, then a simulation on each *)
      modify_world (fun w => set_live_workers (live_workers w + nproc) w) ;;
      setup_remote_actors sim_func parameter_values nproc
                          I_init htc_init initial_soc
  | casadi_manager =>
      spw <- get spm_per_worker ;;
      d <- get dt ;;
      names <- get variable_names ;;
      match spw with
      | SpmInt Nspm =>
          modify (set_actors
                    [actor_setup Nspm sim_func parameter_values d I_init
                                 htc_init names initial_soc nproc])
      | SpmList _ => raise TypeError
      end
  | dask_manager =>
      logger (Notice "Dask initialization started") ;;
      (* Client(n_workers=nproc) *)
      modify_world (fun w =>
        set_runtime_up true (set_live_workers (live_workers w + nproc) w)) ;;
      logger (Notice "Dask initialization complete") ;;
      setup_remote_actors sim_func parameter_values nproc
                          I_init htc_init initial_soc
  end.

(** *** step_actors *)

(** Every actor steps on its own inputs; the results are fetched in order,
    so the first failure is the one raised. *)
Fixpoint step_each (acts : list generic_actor) (inputs : list (list cell_input))
  : res (list generic_actor * list bool) :=
  match acts, inputs with
  | a :: acts', i :: inputs' =>
      res_bind (actor_step a i) (fun r =>
      res_bind (step_each acts' inputs') (fun rs =>
      Ok (fst r :: fst rs, snd r :: snd rs)))
  | [], _ => Ok ([], [])
  | _ :: _, [] => Err IndexError
  end.

Definition step_remote_actors : M unit :=
  inputs <- build_inputs ;;
  acts <- get actors ;;
  r <- lift (step_each acts inputs) ;;
  modify (set_actors (fst r)) ;;
  if np_any (snd r) then logger (Warning "Events were triggered") else ret tt.

(** The rows of [event_change] that hold a true entry, each logged with the
    name of its event and the batteries concerned. *)
Definition log_event_row (event_names : list string)
    (event_change : list (list bool)) (r : nat) : M unit :=
  change_r <- lift (get_nth r event_change) ;;
  if np_any change_r then
    name <- lift (get_nth r event_names) ;;
    logger (EventWarning name (np_where change_r))
  else ret tt.

(** The warnings of the casadi manager after a step that reported events. *)
Definition log_events (a : generic_actor) : M unit :=
  logger (Warning "Events were triggered") ;;
  event_change <- lift (of_option AttributeError (get_event_change a)) ;;
  let Nr := length event_change in
  let event_names := get_event_names a in
  for_each (seq 0 Nr) (log_event_row event_names event_change).

Definition step_casadi_actor : M unit :=
  inputs <- build_inputs ;;
  acts <- get actors ;;
  a0 <- lift (get_nth 0 acts) ;;
  i0 <- lift (get_nth 0 inputs) ;;
  r <- lift (actor_step a0 i0) ;;
  acts' <- lift (set_nth 0 (fst r) acts) ;;
  modify (set_actors acts') ;;
  if snd r then log_events (fst r) else ret tt.

Definition step_actors (kind : manager_kind) : M unit :=
  match kind with
  | generic_manager => ret tt
  | ray_manager | dask_manager => step_remote_actors
  | casadi_manager => step_casadi_actor
  end.

(** *** get_actor_output *)

(** [output[:, step, :] = out]: one row per variable, each written at [step],
    with numpy's broadcasting of [out] to the shape of the slot. *)
Fixpoint set_planes (step : nat) (vals : matrix) (out : list matrix)
  : res (list matrix) :=
  match out, vals with
  | plane :: out', v :: vals' =>
      res_bind (get_nth step plane) (fun old =>
      res_bind (np.broadcast_to (length old) v) (fun v' =>
      res_bind (set_nth step v' plane) (fun plane' =>
      res_bind (set_planes step vals' out') (fun t =>
      Ok (plane' :: t)))))
  | [], _ => Ok []
  | _ :: _, [] => Err ValueError
  end.

Definition set_output_step (step : nat) (val : matrix) (out : list matrix)
  : res (list matrix) :=
  res_bind (np.broadcast_to (length out) val) (fun vals =>
  set_planes step vals out).

(** [a[idx] = v] for an index array [idx] and as many values. *)
Fixpoint scatter (idx : list nat) (v : list float) (a : list float)
  : res (list float) :=
  match idx, v with
  | i :: idx', x :: v' => res_bind (set_nth i x a) (scatter idx' v')
  | [], _ => Ok a
  | _ :: _, [] => Err ValueError
  end.

(** [output[:, step, idx] = out] *)
Fixpoint scatter_planes (step : nat) (idx : list nat) (vals : matrix)
    (out : list matrix) : res (list matrix) :=
  match out, vals with
  | plane :: out', v :: vals' =>
      res_bind (get_nth step plane) (fun old =>
      res_bind (np.broadcast_to (length idx) v) (fun v' =>
      res_bind (scatter idx v' old) (fun new =>
      res_bind (set_nth step new plane) (fun plane' =>
      res_bind (scatter_planes step idx vals' out') (fun t =>
      Ok (plane' :: t))))))
  | [], _ => Ok []
  | _ :: _, [] => Err ValueError
  end.

Definition scatter_output_step (step : nat) (idx : list nat) (val : matrix)
    (out : list matrix) : res (list matrix) :=
  res_bind (np.broadcast_to (length out) val) (fun vals =>
  scatter_planes step idx vals out).

Fixpoint store_outputs (step i : nat) (outs : list matrix) : M unit :=
  match outs with
  | [] => ret tt
  | out :: rest =>
      si <- get split_index ;;
      idx <- lift (get_nth i si) ;;
      o <- get output ;;
      o' <- lift (scatter_output_step step idx out o) ;;
      modify (set_output o') ;;
      store_outputs step (S i) rest
  end.

Definition get_remote_output (step : nat) : M unit :=
  acts <- get actors ;;
  outs <- lift (res_mapM actor_output acts) ;;
  store_outputs step 0 outs.

Definition get_casadi_output (step : nat) : M unit :=
  acts <- get actors ;;
  a0 <- lift (get_nth 0 acts) ;;
  out <- lift (actor_output a0) ;;
  o <- get output ;;
  o' <- lift (set_output_step step out o) ;;
  modify (set_output o').

Definition get_actor_output (kind : manager_kind) (step : nat) : M unit :=
  match kind with
  | generic_manager => ret tt
  | ray_manager | dask_manager => get_remote_output step
  | casadi_manager => get_casadi_output step
  end.

(** *** cleanup *)

Definition cleanup (kind : manager_kind) : M unit :=
  match kind with
  | generic_manager | casadi_manager => ret tt
  | ray_manager =>
      acts <- get actors ;;
      (* ray.kill(actor) for every actor *)
      for_each acts (fun _ =>
        modify_world (fun w => set_live_workers (live_workers w - 1) w)) ;;
      logger (Notice "Shutting down Ray") ;;
      modify_world (set_runtime_up false)
  | dask_manager =>
      logger (Notice "Shutting down Dask client") ;;
      (* client.shutdown(): the client's workers, one per actor, go with it *)
      acts <- get actors ;;
      modify_world (fun w =>
        set_runtime_up false
          (set_live_workers (live_workers w - length acts) w))
  end.

(** [__init__]: the ray manager starts the ray runtime. *)
Definition manager_init (kind : manager_kind) : M unit :=
  match kind with
  | ray_manager =>
      logger (Notice "Ray initialization started") ;;
      modify_world (set_runtime_up true) ;;
      logger (Notice "Ray initialization complete")
  | _ => ret tt
  end.

(** *** solve *)

Definition default_variable_names : list string :=
  ["Terminal voltage [V]"; "Measured battery open circuit voltage [V]"]%string.

(** [for out in output_variables: if out not in names: names.append(out)] *)
Fixpoint extend_names (names outs : list string) : list string :=
  match outs with
  | [] => names
  | out :: rest =>
      if existsb (String.eqb out) names then extend_names names rest
      else extend_names (names ++ [out]) rest
  end.

Definition solve_variable_names (output_variables : option (list string))
  : list string :=
  match output_variables with
  | Some outs => extend_names default_variable_names outs
  | None => default_variable_names
  end.

(** [temp_Ri = (temp_ocv - temp_v) / i_app], then
    [temp_Ri[np.abs(i_app) < 1e-6] = 1e-12]. *)
Definition derive_Ri (temp_ocv temp_v i_app : list float) : list float :=
  let temp_Ri := zip_with PrimFloat.div (zip_with PrimFloat.sub temp_ocv temp_v)
                          i_app in
  let current_cutoff := map (fun i => (abs i <? 1e-6)%float) i_app in
  mask_set current_cutoff (1e-12)%float temp_Ri.

(** [a[row, :] = v] *)
Definition set_row (r : nat) (v : list float) (a : matrix) : res matrix :=
  res_bind (get_nth r a) (fun old =>
  res_bind (np.broadcast_to (length old) v) (fun v' =>
  set_nth r v' a)).

(** [V_node[Terminal_Node][0]] *)
Definition terminal_voltage (V_node : list float) (Terminal_Node : list nat)
  : res float :=
  res_bind (res_mapM (fun n => get_nth n V_node) Terminal_Node) (get_nth 0).

(** The local variables of [solve] that the loop assigns. *)
Record locals : Type := mk_locals
  { time : float;
    V_terminal : list float;
    record_times : list float;
    V_node : list float;
    I_batt : list float;
    step : option nat }.

Definition bind_step (i : nat) (l : locals) : locals :=
  {| time := time l;
     V_terminal := V_terminal l;
     record_times := record_times l;
     V_node := V_node l;
     I_batt := I_batt l;
     step := Some i |}.

Inductive flow : Type :=
| Next (l : locals)
| Break (l : locals).

(** What [solve] fixes before the loop. *)
Record loop_env : Type := mk_env
  { protocol_ : list float;
    Ri_map : list bool;
    V_map : list bool;
    I_map : list bool;
    Terminal_Node : list nat;
    end_time : float;
    v_cut_lower : float;
    v_cut_higher : float }.

Definition update_netlist (env : loop_env) (step : nat)
    (temp_ocv temp_Ri : list float) : M unit :=
  nl <- get netlist ;;
  nl1 <- lift (loc_set_array (V_map env) nl temp_ocv) ;;
  modify (set_netlist nl1) ;;
  nl <- get netlist ;;
  nl2 <- lift (loc_set_array (Ri_map env) nl temp_Ri) ;;
  modify (set_netlist nl2) ;;
  p <- lift (get_nth step (protocol_ env)) ;;
  modify (fun m => set_netlist (loc_set_scalar (I_map env) (netlist m) p) m).

(** [if time <= end_time:] record the time, solve the circuit again and
    record the terminal voltage. *)
Definition resolve_circuit (env : loop_env) (now : float) (l : locals)
  : M locals :=
  if (now <=? end_time env)%float then
    nl <- get netlist ;;
    let VI := solve_circuit_vectorized nl in
    vt <- lift (terminal_voltage (fst VI) (Terminal_Node env)) ;;
    ret {| time := now;
           V_terminal := V_terminal l ++ [vt];
           record_times := record_times l ++ [now];
           V_node := fst VI;
           I_batt := snd VI;
           step := step l |}
  else
    ret {| time := now;
           V_terminal := V_terminal l;
           record_times := record_times l;
           V_node := V_node l;
           I_batt := I_batt l;
           step := step l |}.

(** [if time < end_time: self.shm_i_app[step + 1, :] = I_batt[:] * -1] *)
Definition store_next_current (env : loop_env) (step : nat) (l : locals)
  : M unit :=
  if (time l <? end_time env)%float then
    shm <- get shm_i_app ;;
    shm' <- lift (set_row (step + 1)
                          (map (fun x => (x * -1)%float) (I_batt l)) shm) ;;
    modify (set_shm_i_app shm')
  else ret tt.

Definition print (msg : string) : M unit := logger (Printed msg).

Definition loop_body (kind : manager_kind) (env : loop_env) (step : nat)
    (l : locals) : M flow :=
  step_actors kind ;;
  get_actor_output kind step ;;
  d <- get dt ;;
  let now := (time l + d)%float in
  out <- get output ;;
  plane_v <- lift (get_nth 0 out) ;;
  temp_v <- lift (get_nth step plane_v) ;;
  plane_ocv <- lift (get_nth 1 out) ;;
  temp_ocv <- lift (get_nth step plane_ocv) ;;
  shm <- get shm_i_app ;;
  i_app <- lift (get_nth step shm) ;;
  let temp_Ri := derive_Ri temp_ocv temp_v i_app in
  update_netlist env step temp_ocv temp_Ri ;;
  l1 <- resolve_circuit env now l ;;
  store_next_current env step l1 ;;
  if np_any (map (fun v => (v <? v_cut_lower env)%float) temp_v) then
    print "Low voltage limit reached" ;;
    ret (Break l1)
  else if np_any (map (fun v => (v_cut_higher env <? v)%float) temp_v) then
    print "High voltage limit reached" ;;
    ret (Break l1)
  else
    modify (fun m => set_timestep (timestep m + 1) m) ;;
    ret (Next l1).

(** [for step in range(Nsteps)], given as the list of the steps to run. *)
Fixpoint run_loop (kind : manager_kind) (env : loop_env) (steps : list nat)
    (l : locals) : M locals :=
  match steps with
  | [] => ret l
  | step :: rest =>
      f <- loop_body kind env step (bind_step step l) ;;
      match f with
      | Break l' => ret l'
      | Next l' => run_loop kind env rest l'
      end
  end.

(** A Python dict: assignment replaces the value of a key that is present
    and appends a new key otherwise. *)
Fixpoint dict_set {V} (k : string) (v : V) (d : list (string * V))
  : list (string * V) :=
  match d with
  | [] => [(k, v)]
  | (k', v') :: t =>
      if String.eqb k k' then (k, v) :: t else (k', v') :: dict_set k v t
  end.

Fixpoint dict_get {V} (k : string) (d : list (string * V)) : option V :=
  match d with
  | [] => None
  | (k', v') :: t => if String.eqb k k' then Some v' else dict_get k t
  end.

Definition result_t : Type := list (string * series).

(** [for j in range(Nvar): all_output[variable_names[j]] = output[j, :step+1, :]] *)
Fixpoint collect_variables (js : list nat) (names : list string)
    (out : list matrix) (step : nat) (all_output : result_t) : res result_t :=
  match js with
  | [] => Ok all_output
  | j :: rest =>
      res_bind (get_nth j names) (fun name =>
      res_bind (get_nth j out) (fun plane =>
      collect_variables rest names out step
        (dict_set name (Series2 (firstn (step + 1) plane)) all_output)))
  end.

Definition collect_outputs (env : loop_env) (l : locals) : M result_t :=
  step <- lift (of_option NameError (step l)) ;;
  shm <- get shm_i_app ;;
  names <- get variable_names ;;
  out <- get output ;;
  let all_output :=
    dict_set "Cell current [A]" (Series2 (firstn (step + 1) shm))
   (dict_set "Pack terminal voltage [V]" (Series1 (V_terminal l))
   (dict_set "Pack current [A]" (Series1 (firstn (step + 1) (protocol_ env)))
   (dict_set "Time [s]" (Series1 (record_times l)) []))) in
  lift (collect_variables (seq 0 (length names)) names out step all_output).

(** [solve] up to the loop: the constants of the loop and the first values
    of its local variables. *)
Definition initialize (kind : manager_kind) (netlist0 : netlist_t)
    (sim_func : option SimFunc) (parameter_values : parameter_values_t)
    (experiment : experiment_t) (htc0 : list float)
    (output_variables : option (list string)) (initial_soc : float)
    (nproc : nat) : M (loop_env * locals) :=
  modify (set_netlist netlist0) ;;
  let Ri_map := desc_map "Ri" netlist0 in
  let V_map := desc_map "V" netlist0 in
  let I_map := desc_map "I" netlist0 in
  let Terminal_Node := map node1 (select I_map netlist0) in
  let Nspm := count_true V_map in
  split_models kind Nspm nproc htc0 ;;
  let protocol := protocol experiment in
  modify (set_dt (period experiment)) ;;
  let Nsteps := length protocol in
  nl <- get netlist ;;
  let VI := solve_circuit_vectorized nl in
  modify (set_variable_names (solve_variable_names output_variables)) ;;
  names <- get variable_names ;;
  let Nvar := length names in
  modify (set_shm_i_app (np.zeros2 Nsteps Nspm)) ;;
  modify (set_output (np.zeros3 Nvar Nsteps Nspm)) ;;
  shm <- get shm_i_app ;;
  shm' <- lift (set_row 0 (map (fun x => (x * -1)%float) (snd VI)) shm) ;;
  modify (set_shm_i_app shm') ;;
  modify (set_timestep 0) ;;
  d <- get dt ;;
  let end_time := (d * float_of_nat Nsteps)%float in
  v_cut_lower <- lift (param_get "Lower voltage cut-off [V]" parameter_values) ;;
  v_cut_higher <- lift (param_get "Upper voltage cut-off [V]" parameter_values) ;;
  shm <- get shm_i_app ;;
  row0 <- lift (get_nth 0 shm) ;;
  I_init <- lift (get_nth 0 row0) ;;
  htc_init <- lift (get_nth 0 htc0) ;;
  setup_actors kind sim_func parameter_values nproc I_init htc_init initial_soc ;;
  logger (Notice "Starting step solve") ;;
  ret ({| protocol_ := protocol; Ri_map := Ri_map; V_map := V_map;
          I_map := I_map; Terminal_Node := Terminal_Node;
          end_time := end_time; v_cut_lower := v_cut_lower;
          v_cut_higher := v_cut_higher |},
       {| time := 0; V_terminal := []; record_times := [];
          V_node := fst VI; I_batt := snd VI; step := None |}).

(** [solve] after the loop. *)
Definition finalize (kind : manager_kind) (env : loop_env) (l : locals)
  : M result_t :=
  logger (Notice "Step solve finished") ;;
  cleanup kind ;;
  collect_outputs env l.

Definition solve (kind : manager_kind) (netlist0 : netlist_t)
    (sim_func : option SimFunc) (parameter_values : parameter_values_t)
    (experiment : experiment_t) (htc0 : list float)
    (output_variables : option (list string)) (initial_soc : float)
    (nproc : nat) : M result_t :=
  el <- initialize kind netlist0 sim_func parameter_values experiment htc0
                   output_variables initial_soc nproc ;;
  l <- run_loop kind (fst el) (seq 0 (length (protocol experiment))) (snd el) ;;
  finalize kind (fst el) l.

End Solvers.

Arguments Done {CellSol CasadiObjs A} a s.
Arguments Raised {CellSol CasadiObjs A} e s.
Arguments actor_setup {CellSol} [CasadiObjs SimFunc] cco Nspm sim_func
  parameter_values dt I_init htc_init variable_names initial_soc nproc.

(** ** Notions used to state the properties *)

(** The entry [m[e, c]] of a matrix. *)
Definition entry {A} (m : list (list A)) (e c : nat) : option A :=
  match nth_error m e with
  | Some r => nth_error r c
  | None => None
  end.

Definition same_shape {A B} (m1 : list (list A)) (m2 : list (list B)) : Prop :=
  Forall2 (fun r1 r2 => length r1 = length r2) m1 m2.

(** Some entry [event, cell] has [sign(previous) * sign(current) < 0]. *)
Definition sign_change (prev cur : matrix) : Prop :=
  exists e c p n,
    entry prev e c = Some p /\ entry cur e c = Some n /\
    (np.sign p * np.sign n <? 0)%float = true.

(** The [i]-th cut point of [np.array_split] on [Ntotal] elements. *)
Definition div_point (Ntotal Nsections i : nat) : nat :=
  nth i (np.cumsum (np.section_sizes Ntotal Nsections)) 0.

(** Two netlists with the same rows but for the value column. *)
Definition same_topology (nl1 nl2 : netlist_t) : Prop :=
  Forall2 (fun r1 r2 =>
             desc r1 = desc r2 /\ node1 r1 = node1 r2 /\ node2 r1 = node2 r2)
          nl1 nl2.

(** The keys of a dict, in insertion order. *)
Definition keys {V} (d : list (string * V)) : list string := map fst d.

Definition cell_resistance (ocv v i : float) : float :=
  if (abs i <? 1e-6)%float then (1e-12)%float else ((ocv - v) / i)%float.

(** [triple P c Q E]: from a state in [P], the computation [c] ends in [Q]
    when it returns and in [E] when it raises. *)
Definition triple {CellSol CasadiObjs A} (P : state CellSol CasadiObjs -> Prop)
    (c : M CellSol CasadiObjs A)
    (Q : A -> state CellSol CasadiObjs -> Prop)
    (E : state CellSol CasadiObjs -> Prop) : Prop :=
  forall s, P s ->
    match c s with
    | Done a s' => Q a s'
    | Raised _ s' => E s'
    end.

(** [inv I c]: [c] keeps [I], whether it returns or raises. *)
Definition inv {CellSol CasadiObjs A} (I : state CellSol CasadiObjs -> Prop)
    (c : M CellSol CasadiObjs A) : Prop :=
  triple I c (fun _ => I) I.

(** A property of the state that the assignments of the step loop keep:
    as many new actors, any records of the logger, output buffer, current
    buffer and step counter, and any netlist with the same topology. *)
Record loop_stable {CellSol CasadiObjs}
    (I : state CellSol CasadiObjs -> Prop) : Prop :=
  { stable_actors : forall s v,
      I s -> length v = length (actors (self s)) ->
      I (mk_state (set_actors v (self s)) (world s));
    stable_logged : forall s v,
      I s -> I (mk_state (self s) (set_logged v (world s)));
    stable_output : forall s v,
      I s -> I (mk_state (set_output v (self s)) (world s));
    stable_shm_i_app : forall s v,
      I s -> I (mk_state (set_shm_i_app v (self s)) (world s));
    stable_timestep : forall s v,
      I s -> I (mk_state (set_timestep v (self s)) (world s));
    stable_netlist : forall s v,
      I s -> same_topology (netlist (self s)) v ->
      I (mk_state (set_netlist v (self s)) (world s)) }.

(** No row is selected by both masks. *)
Definition disjoint_masks (m1 m2 : list bool) : Prop :=
  Forall2 (fun a b => a && b = false) m1 m2.

(** The row [a[e, c, :]] of a three-dimensional array. *)
Definition plane_row (a : list matrix) (e c : nat) : option (list float) :=
  entry a e c.

(** What stepping the actors and fetching their output leaves as it was:
    every attribute of the manager but [actors] and [output], and the
    workers. *)
Definition loop_inputs_kept {CellSol CasadiObjs}
    (s0 s : state CellSol CasadiObjs) : Prop :=
  netlist (self s) = netlist (self s0) /\
  dt (self s) = dt (self s0) /\
  variable_names (self s) = variable_names (self s0) /\
  shm_i_app (self s) = shm_i_app (self s0) /\
  timestep (self s) = timestep (self s0) /\
  htc (self s) = htc (self s0) /\
  split_index (self s) = split_index (self s0) /\
  spm_per_worker (self s) = spm_per_worker (self s0) /\
  live_workers (world s) = live_workers (world s0) /\
  runtime_up (world s) = runtime_up (world s0).

(** The netlist after the three assignments of a step. *)
Definition updated_netlist (env : loop_env) (nl : netlist_t)
    (temp_ocv temp_Ri : list float) (p : float) : netlist_t :=
  loc_set_scalar (I_map env)
    (loc_fill (Ri_map env) (loc_fill (V_map env) nl temp_ocv) temp_Ri) p.

(** The local variables after the circuit was, or was not, solved again at
    time [now] on the netlist [nl]. *)
Definition resolved (circuit : netlist_t -> list float * list float)
    (env : loop_env) (now : float) (l : locals) (nl : netlist_t)
    (l1 : locals) : Prop :=
  if (now <=? end_time env)%float then
    exists vt,
      terminal_voltage (fst (circuit nl)) (Terminal_Node env) = Ok vt /\
      l1 = {| time := now;
              V_terminal := V_terminal l ++ [vt];
              record_times := record_times l ++ [now];
              V_node := fst (circuit nl);
              I_batt := snd (circuit nl);
              step := step l |}
  else
    l1 = {| time := now;
            V_terminal := V_terminal l;
            record_times := record_times l;
            V_node := V_node l;
            I_batt := I_batt l;
            step := step l |}.

(** The current buffer after the currents of the next step were, or were
    not, stored. *)
Definition stored (env : loop_env) (step : nat) (l1 : locals)
    (shm shm' : matrix) : Prop :=
  if (time l1 <? end_time env)%float then
    set_row (step + 1) (map (fun x => (x * -1)%float) (I_batt l1)) shm = Ok shm'
  else shm' = shm.

(** Some terminal voltage of the step lies outside the cut-offs. *)
Definition cutoff_reached (env : loop_env) (temp_v : list float) : bool :=
  np_any (map (fun v => (v <? v_cut_lower env)%float) temp_v)
  || np_any (map (fun v => (v_cut_higher env <? v)%float) temp_v).

(** The netlist of the state has the rows of [netlist0] but for the values. *)
Definition topology_of {CellSol CasadiObjs} (netlist0 : netlist_t)
    (s : state CellSol CasadiObjs) : Prop :=
  same_topology netlist0 (netlist (self s)).

(** The state a computation ends in, whether it returned or raised. *)
Definition final_state {CellSol CasadiObjs A}
    (o : outcome CellSol CasadiObjs A) : state CellSol CasadiObjs :=
  match o with
  | Done _ s | Raised _ s => s
  end.

(** The managers whose actors run on workers of their own. *)
Definition is_remote (kind : manager_kind) : bool :=
  match kind with
  | ray_manager | dask_manager => true
  | generic_manager | casadi_manager => false
  end.

(** The workers and the runtime are as in [s0], and there are [k] actors. *)
Definition pool_as {CellSol CasadiObjs} (s0 : state CellSol CasadiObjs)
    (k : nat) (s : state CellSol CasadiObjs) : Prop :=
  live_workers (world s) = live_workers (world s0) /\
  runtime_up (world s) = runtime_up (world s0) /\
  length (actors (self s)) = k.

(** The value of [time] after [n] additions of the period to 0. *)
Fixpoint clock (d : float) (n : nat) : float :=
  match n with
  | O => 0%float
  | S k => (clock d k + d)%float
  end.

(** The local variables and the state on entry to iteration [n] of the loop,
    when the iterations before it all went on to the next one. *)
Fixpoint loop_head {CellSol CasadiObjs}
    (body : nat -> locals -> M CellSol CasadiObjs flow) (n : nat)
    (l : locals) (s : state CellSol CasadiObjs)
  : option (locals * state CellSol CasadiObjs) :=
  match n with
  | O => Some (l, s)
  | S k =>
      match loop_head body k l s with
      | Some (l', s') =>
          match body k (bind_step k l') s' with
          | Done (Next l'') s'' => Some (l'', s'')
          | _ => None
          end
      | None => None
      end
  end.

(** The keys of the result that do not name a variable of the cell model. *)
Definition fixed_keys : list string :=
  ["Time [s]"; "Pack current [A]"; "Pack terminal voltage [V]";
   "Cell current [A]"]%string.

(** The attribute [variable_names] holds [names]. *)
Definition names_are {CellSol CasadiObjs} (names : list string)
    (s : state CellSol CasadiObjs) : Prop :=
  variable_names (self s) = names.

(** ** Two runs side by side *)

(** The attributes of the manager. *)
Inductive field : Type :=
| F_netlist | F_dt | F_variable_names | F_shm_i_app | F_output | F_timestep
| F_htc | F_split_index | F_spm_per_worker | F_actors.

Definition field_eqb (f g : field) : bool :=
  match f, g with
  | F_netlist, F_netlist | F_dt, F_dt
  | F_variable_names, F_variable_names | F_shm_i_app, F_shm_i_app
  | F_output, F_output | F_timestep, F_timestep | F_htc, F_htc
  | F_split_index, F_split_index | F_spm_per_worker, F_spm_per_worker
  | F_actors, F_actors => true
  | _, _ => false
  end.

Definition fields : Type := field -> bool.

Definition no_field : fields := fun _ => false.

Definition add_field (f : field) (P : fields) : fields :=
  fun g => field_eqb f g || P g.

(** Two actors that differ at most in what they remember of the events. *)
Definition actor_sim {CellSol CasadiObjs}
    (a1 a2 : generic_actor CellSol CasadiObjs) : Prop :=
  step_solutions a1 = step_solutions a2 /\
  casadi_objs a1 = casadi_objs a2 /\
  mapped a1 = mapped a2 /\
  var_eval a1 = var_eval a2.

(** Two states that agree on the attributes of [P], the actors being
    compared by [RA]; the logger and the workers are not compared. *)
Definition agree {CellSol CasadiObjs}
    (RA : generic_actor CellSol CasadiObjs ->
          generic_actor CellSol CasadiObjs -> Prop)
    (P : fields) (s1 s2 : state CellSol CasadiObjs) : Prop :=
  (P F_netlist = true -> netlist (self s1) = netlist (self s2)) /\
  (P F_dt = true -> dt (self s1) = dt (self s2)) /\
  (P F_variable_names = true ->
   variable_names (self s1) = variable_names (self s2)) /\
  (P F_shm_i_app = true -> shm_i_app (self s1) = shm_i_app (self s2)) /\
  (P F_output = true -> output (self s1) = output (self s2)) /\
  (P F_timestep = true -> timestep (self s1) = timestep (self s2)) /\
  (P F_htc = true -> htc (self s1) = htc (self s2)) /\
  (P F_split_index = true -> split_index (self s1) = split_index (self s2)) /\
  (P F_spm_per_worker = true ->
   spm_per_worker (self s1) = spm_per_worker (self s2)) /\
  (P F_actors = true -> Forall2 RA (actors (self s1)) (actors (self s2))).

(** [rtriple R c1 c2 Q R']: from states related by [R], the computations
    [c1] and [c2] both return, with values related by [Q] and states related
    by [R'], or both raise the same exception. *)
Definition rtriple {CellSol CasadiObjs A B}
    (R : state CellSol CasadiObjs -> state CellSol CasadiObjs -> Prop)
    (c1 : M CellSol CasadiObjs A) (c2 : M CellSol CasadiObjs B)
    (Q : A -> B -> Prop)
    (R' : state CellSol CasadiObjs -> state CellSol CasadiObjs -> Prop)
  : Prop :=
  forall s1 s2, R s1 s2 ->
    match c1 s1, c2 s2 with
    | Done a s1', Done b s2' => Q a b /\ R' s1' s2'
    | Raised e1 _, Raised e2 _ => e1 = e2
    | _, _ => False
    end.

(** The attributes the step loop reads: all but [spm_per_worker], and for the
    generic manager, whose methods do nothing, those of [solve] itself. *)
Definition loop_fields (kind : manager_kind) : fields :=
  fun f =>
    match f with
    | F_netlist | F_dt | F_variable_names | F_shm_i_app | F_output
    | F_timestep => true
    | F_htc | F_split_index | F_actors =>
        match kind with generic_manager => false | _ => true end
    | F_spm_per_worker => false
    end.

(** A relation on states that does not look at the logger or the workers. *)
Definition world_blind {CellSol CasadiObjs}
    (R : state CellSol CasadiObjs -> state CellSol CasadiObjs -> Prop)
  : Prop :=
  forall s1 s2 w1 w2,
    R s1 s2 -> R (mk_state (self s1) w1) (mk_state (self s2) w2).

(** Two results of a step function that differ at most in the evaluated
    events. *)
Definition same_but_events {CellSol}
    (r1 r2 : option (list (option CellSol) * matrix * matrix)) : Prop :=
  match r1, r2 with
  | Some (sols1, vars1, _), Some (sols2, vars2, _) =>
      sols1 = sols2 /\ vars1 = vars2
  | None, None => True
  | _, _ => False
  end.

(** A step function evaluates no more events than the casadi objects name. *)
Definition events_named {CellSol CasadiObjs}
    (event_names_of : CasadiObjs -> list string)
    (step_fn : CasadiObjs -> list (option CellSol) -> list cell_input ->
               option (list (option CellSol) * matrix * matrix)) : Prop :=
  forall objs sols inputs sols' vars events,
    step_fn objs sols inputs = Some (sols', vars, events) ->
    length events <= length (event_names_of objs).

(** Every row of the event changes an actor holds has a name. *)
Definition changes_named {CellSol CasadiObjs}
    (event_names_of : CasadiObjs -> list string)
    (a : generic_actor CellSol CasadiObjs) : Prop :=
  forall ec, event_change a = Some ec ->
    length ec <= length (event_names_of (casadi_objs a)).

(** Two actors that hold the same solutions and variables, whatever they
    hold of the events; for the casadi manager, which reports the events by
    name, the event changes they hold are named. *)
Definition event_blind {CellSol CasadiObjs}
    (event_names_of : CasadiObjs -> list string) (kind : manager_kind)
    (a1 a2 : generic_actor CellSol CasadiObjs) : Prop :=
  actor_sim a1 a2 /\
  (kind = casadi_manager ->
   changes_named event_names_of a1 /\ changes_named event_names_of a2).

(** The outcome of a run of [solve]: the result mapping or the exception. *)
Definition same_outcome {CellSol CasadiObjs A}
    (o1 o2 : outcome CellSol CasadiObjs A) : Prop :=
  match o1, o2 with
  | Done a _, Done b _ => a = b
  | Raised e1 _, Raised e2 _ => e1 = e2
  | _, _ => False
  end.

(** The buffers have one row per step of the protocol: the current buffer
    and every plane of the output buffer hold [N] rows. *)
Definition shaped {CellSol CasadiObjs} (N : nat)
    (s : state CellSol CasadiObjs) : Prop :=
  length (shm_i_app (self s)) = N /\
  Forall (fun plane : matrix => length plane = N) (output (self s)).

(** The clock has not passed the end time at any of the first [n] steps. *)
Definition clock_in_time (d end_time : float) (n : nat) : Prop :=
  forall k, 1 <= k <= n -> (clock d k <=? end_time)%float = true.

(** An actor as [setup] leaves it: no cell has a solution, nothing has been
    evaluated, no event has been seen, and the step function is the mapped
    one if [mapped_]. *)
Definition fresh_actor {CellSol CasadiObjs} (mapped_ : bool)
    (a : generic_actor CellSol CasadiObjs) : Prop :=
  step_solutions a = repeat None (length (step_solutions a)) /\
  var_eval a = None /\ last_events a = None /\ event_change a = None /\
  mapped a = mapped_.

(** [old[a : a + len(v)] = v]: a stretch of a row replaced. *)
Definition splice (a : nat) (v old : list float) : list float :=
  firstn a old ++ v ++ skipn (a + length v) old.

(** The rows that the actors evaluate for variable [j], end to end. *)
Definition gathered (outs : list matrix) (j : nat) : list float :=
  concat (map (fun out : matrix => nth j out []) outs).

(** ** A small pack to run the model on

    Two cells in parallel and one current source.  A cell's solution is the
    number of steps it has taken; its terminal voltage falls by [drop] volts
    per step from 4 V, its open-circuit voltage lies 0.5 V above, and its one
    event indicator is the terminal voltage minus [level]. *)

Module Bench.

Definition cell_voltage (drop : float) (sol : option nat) : float :=
  match sol with
  | None => 4%float
  | Some n => (4 - drop * float_of_nat n)%float
  end.

Definition cell_step (drop level : float) (_ : unit) (sols : list (option nat))
    (inputs : list cell_input)
  : option (list (option nat) * matrix * matrix) :=
  let sols' :=
    map (fun s => match s with None => Some 1 | Some n => Some (S n) end) sols in
  let v := map (cell_voltage drop) sols' in
  Some (sols',
        [v; map (fun x => (x + 0.5)%float) v],
        [map (fun x => (x - level)%float) v]).

(** A cell model whose integration fails. *)
Definition failing_step (_ : unit) (sols : list (option nat))
    (inputs : list cell_input)
  : option (list (option nat) * matrix * matrix) := None.

Definition cco (_ : option unit) (_ : parameter_values_t)
    (_ _ _ _ : float) (_ _ : nat) (_ : list string) (_ : bool) : unit := tt.

Definition event_names_of (_ : unit) : list string :=
  ["Minimum voltage"%string].

(** The current of the source shared equally by the cells; the node voltages
    are the values of the rows. *)
Definition circuit (nl : netlist_t) : list float * list float :=
  let cells := select (desc_map "V" nl) nl in
  let sources := select (desc_map "I" nl) nl in
  let total := fold_right (fun r acc => (value r + acc)%float) 0%float sources in
  (map value nl,
   map (fun _ => (total / float_of_nat (length cells))%float) cells).

Definition pack : netlist_t :=
  [ mk_row "V0" 1 0 4; mk_row "Ri0" 2 1 0.01;
    mk_row "V1" 1 0 4; mk_row "Ri1" 2 1 0.01;
    mk_row "I0" 0 2 1 ]%float.

Definition parameters : parameter_values_t :=
  [ ("Lower voltage cut-off [V]"%string, 3%float);
    ("Upper voltage cut-off [V]"%string, 5%float) ].

Definition coefficients : list float := [10; 10]%float.

(** A manager before its first [solve], in a process that has logged nothing
    and runs no worker. *)
Definition fresh : state nat unit :=
  {| self := {| netlist := []; dt := 0; variable_names := [];
                shm_i_app := []; output := []; timestep := 0; htc := [];
                split_index := []; spm_per_worker := SpmInt 0;
                actors := [] |};
     world := {| logged := []; live_workers := 0; runtime_up := false |} |}.

(** [solve] on the pack: a constant current of 2 A for [n] steps of [dt]
    seconds. *)
Notation run step kind dt n nproc s :=
  (solve cco event_names_of step step circuit kind pack None parameters
         (mk_experiment dt (repeat 2%float n)) coefficients None 1%float
         nproc s).

(** An actor over two cells that has seen both indicators negative and now
    evaluates one of them positive. *)
Definition armed : generic_actor nat unit :=
  {| step_solutions := [Some 2; Some 2];
     casadi_objs := tt;
     mapped := false;
     var_eval := Some [[3.5; 3.5]; [4; 4]]%float;
     events_eval := Some [[1; -1]]%float;
     last_events := Some [[-1; -1]]%float;
     event_change := None |}.

(** The state and the constants of the loop as [solve] has set them up for
    three steps of one second on the casadi manager. *)
Definition ready : state nat unit :=
  {| self := {| netlist := pack; dt := 1;
                variable_names := default_variable_names;
                shm_i_app := [[-0.5; -0.5]; [0; 0]; [0; 0]]%float;
                output := np.zeros3 2 3 2; timestep := 0;
                htc := [coefficients];
                split_index := [[0; 1]]; spm_per_worker := SpmInt 2;
                actors := [actor_setup cco 2 None parameters 1 (-0.5) 10
                                       default_variable_names 1 1] |};
     world := {| logged := [Notice "Starting step solve"];
                 live_workers := 0; runtime_up := false |} |}.

Definition env : loop_env :=
  {| protocol_ := [2; 2; 2]%float;
     Ri_map := desc_map "Ri" pack;
     V_map := desc_map "V" pack;
     I_map := desc_map "I" pack;
     Terminal_Node := [0];
     end_time := 3;
     v_cut_lower := 3;
     v_cut_higher := 5 |}.

Definition start : locals :=
  {| time := 0; V_terminal := []; record_times := [];
     V_node := fst (circuit pack); I_batt := snd (circuit pack);
     step := None |}.

Notation body :=
  (loop_body event_names_of (cell_step 0.25 3.1) (cell_step 0.25 3.1) circuit
             casadi_manager env).

(** The first iteration of the loop on the pack. *)
Notation first_iteration := (body 0 (bind_step 0 start) ready).

(** A ray manager that has split the two cells over two workers, with two
    actors and a row of applied currents. *)
Definition split_in_two : state nat unit :=
  final_state (split_models ray_manager 2 2 coefficients fresh).

Definition two_workers : state nat unit :=
  {| self := set_actors [armed; armed]
               (set_shm_i_app [[-0.5; -0.7]]%float (self split_in_two));
     world := world split_in_two |}.

(** An actor that holds [out] as the output of its last step. *)
Definition holding (out : matrix) : generic_actor nat unit :=
  {| step_solutions := repeat (Some 1) (length (nth 0 out []));
     casadi_objs := tt;
     mapped := false;
     var_eval := Some out;
     events_eval := None;
     last_events := None;
     event_change := None |}.

(** A ray manager that has split three cells over two workers, whose actors
    hold the values of two variables, with an output array of two time
    steps. *)
Definition split_three : state nat unit :=
  final_state (split_models ray_manager 3 2 [10; 10; 10]%float fresh).

Definition three_cells : state nat unit :=
  {| self := set_output (np.zeros3 2 2 3)
               (set_actors [holding [[1; 2]; [3; 4]]%float;
                            holding [[5]; [6]]%float]
                           (self split_three));
     world := world split_three |}.

End Bench.

(** * Proofs *)

Unset Implicit Arguments.

(** ** Facts on lists *)

Lemma firstn_firstn_skipn {A} (n m : nat) (l : list A) :
  firstn n l ++ firstn m (skipn n l) = firstn (n + m) l.
Proof.
  revert l; induction n as [|n IH]; intros [|x l]; simpl; trivial.
  - now rewrite firstn_nil.
  - now rewrite IH.
Qed.

Lemma slice_app {A} (l : list A) (a b c : nat) :
  a <= b -> b <= c -> np.slice l a b ++ np.slice l b c = np.slice l a c.
Proof.
  intros Hab Hbc. unfold np.slice.
  replace (skipn b l) with (skipn (b - a) (skipn a l))
    by (rewrite skipn_skipn; f_equal; lia).
  rewrite firstn_firstn_skipn. f_equal. lia.
Qed.

Lemma slice_all {A} (l : list A) : np.slice l 0 (length l) = l.
Proof. unfold np.slice. simpl. rewrite Nat.sub_0_r. apply firstn_all. Qed.

Lemma firstn_seq_le (n start len : nat) :
  n <= len -> firstn n (seq start len) = seq start n.
Proof.
  revert start len; induction n as [|n IH]; intros start [|len] H;
    simpl; trivial; [lia|].
  now rewrite IH by lia.
Qed.

Lemma slice_arange (N a b : nat) :
  a <= b -> b <= N -> np.slice (np.arange N) a b = seq a (b - a).
Proof.
  intros Hab HbN. unfold np.slice, np.arange.
  rewrite skipn_seq, firstn_seq_le by lia. reflexivity.
Qed.

Lemma concat_slices {A} (l : list A) (ps : nat -> nat) (n : nat) :
  (forall i, i < n -> ps i <= ps (i + 1)) ->
  ps 0 <= ps n /\
  concat (map (fun i => np.slice l (ps i) (ps (i + 1))) (seq 0 n))
  = np.slice l (ps 0) (ps n).
Proof.
  induction n as [|n IH]; intros Hmono.
  - split; trivial. unfold np.slice. now rewrite Nat.sub_diag.
  - destruct IH as [Hle IH]; [intros; apply Hmono; lia|].
    assert (Hn : ps n <= ps (n + 1)) by (apply Hmono; lia).
    replace (S n) with (n + 1) by lia. split; [lia|].
    rewrite seq_app, map_app, concat_app, IH. simpl.
    rewrite app_nil_r. apply slice_app; trivial.
Qed.

(** ** Running sums and the cut points of array_split *)

Lemma nth_cumsum_from (l : list nat) (acc i : nat) :
  i < length l ->
  nth i (np.cumsum_from acc l) 0 = acc + list_sum (firstn (S i) l).
Proof.
  revert acc i; induction l as [|x l IH]; intros acc i Hi; simpl in Hi; [lia|].
  destruct i as [|i].
  - simpl. lia.
  - cbn [np.cumsum_from nth]. rewrite IH by lia.
    change (firstn (S (S i)) (x :: l)) with (x :: firstn (S i) l).
    simpl. lia.
Qed.

Lemma list_sum_repeat (x n : nat) : list_sum (repeat x n) = n * x.
Proof. induction n; simpl; lia. Qed.

Lemma firstn_repeat {A} (x : A) (n k : nat) :
  firstn k (repeat x n) = repeat x (Nat.min k n).
Proof.
  revert k; induction n as [|n IH]; intros [|k]; simpl; trivial.
  now rewrite IH.
Qed.

Lemma div_point_eq (Ntotal Nsections i : nat) :
  i <= Nsections -> 0 < Nsections ->
  div_point Ntotal Nsections i
  = i * (Ntotal / Nsections) + Nat.min i (Ntotal mod Nsections).
Proof.
  intros Hi Hpos. unfold div_point, np.cumsum, np.section_sizes.
  set (q := Ntotal / Nsections). set (r := Ntotal mod Nsections).
  assert (Hr : r < Nsections) by (apply Nat.mod_upper_bound; lia).
  rewrite nth_cumsum_from
    by (simpl; rewrite length_app, !repeat_length; lia).
  set (L := repeat (q + 1) r ++ repeat q (Nsections - r)).
  change (firstn (S i) ([0] ++ L)) with (0 :: firstn i L).
  change (list_sum (0 :: firstn i L)) with (list_sum (firstn i L)).
  unfold L. cbn [Nat.add].
  rewrite firstn_app, list_sum_app, !firstn_repeat, !list_sum_repeat.
  rewrite repeat_length.
  destruct (Nat.le_gt_cases i r) as [Hle|Hgt].
  - replace (Nat.min i r) with i by lia.
    replace (Nat.min (i - r) (Nsections - r)) with 0 by lia. nia.
  - replace (Nat.min i r) with r by lia.
    replace (Nat.min (i - r) (Nsections - r)) with (i - r) by lia. nia.
Qed.

Lemma div_point_0 (Ntotal Nsections : nat) :
  0 < Nsections -> div_point Ntotal Nsections 0 = 0.
Proof. intros; rewrite div_point_eq by lia. reflexivity. Qed.

Lemma div_point_last (Ntotal Nsections : nat) :
  0 < Nsections -> div_point Ntotal Nsections Nsections = Ntotal.
Proof.
  intros Hpos. rewrite div_point_eq by lia.
  assert (Hr : Ntotal mod Nsections < Nsections)
    by (apply Nat.mod_upper_bound; lia).
  replace (Nat.min Nsections (Ntotal mod Nsections))
    with (Ntotal mod Nsections) by lia.
  rewrite (Nat.div_mod_eq Ntotal Nsections) at 3. lia.
Qed.

Lemma div_point_mono (Ntotal Nsections i : nat) :
  0 < Nsections -> i < Nsections ->
  div_point Ntotal Nsections i <= div_point Ntotal Nsections (i + 1).
Proof. intros; rewrite !div_point_eq by lia. nia. Qed.

Lemma div_point_strict (Ntotal Nsections i : nat) :
  0 < Nsections -> Nsections <= Ntotal -> i < Nsections ->
  div_point Ntotal Nsections i < div_point Ntotal Nsections (i + 1).
Proof.
  intros Hpos Hle Hi. rewrite !div_point_eq by lia.
  assert (0 < Ntotal / Nsections) by (apply Nat.div_str_pos; lia). nia.
Qed.

Lemma div_point_le_total (Ntotal Nsections i : nat) :
  0 < Nsections -> i <= Nsections -> div_point Ntotal Nsections i <= Ntotal.
Proof.
  intros Hpos Hi. rewrite div_point_eq by lia.
  assert (Hr : Ntotal mod Nsections < Nsections)
    by (apply Nat.mod_upper_bound; lia).
  rewrite (Nat.div_mod_eq Ntotal Nsections) at 3. nia.
Qed.

Lemma array_split_ok {A} (ary : list A) (Nsections : nat) :
  0 < Nsections ->
  np.array_split ary Nsections
  = Ok (map (fun i => np.slice ary (div_point (length ary) Nsections i)
                                   (div_point (length ary) Nsections (i + 1)))
            (seq 0 Nsections)).
Proof.
  intros Hpos. unfold np.array_split.
  destruct (Nat.eqb_spec Nsections 0); [lia|reflexivity].
Qed.

Lemma array_split_concat {A} (ary : list A) (Nsections : nat) groups :
  np.array_split ary Nsections = Ok groups ->
  length groups = Nsections /\ concat groups = ary.
Proof.
  intros H. destruct (Nat.eq_dec Nsections 0) as [->|Hne]; [discriminate|].
  rewrite array_split_ok in H by lia. injection H as <-.
  split; [now rewrite length_map, length_seq|].
  destruct (concat_slices ary (div_point (length ary) Nsections) Nsections)
    as [_ ->].
  - intros; apply div_point_mono; lia.
  - rewrite div_point_0, div_point_last by lia. apply slice_all.
Qed.

Lemma NoDup_concat_disjoint {A} (gs : list (list A)) :
  NoDup (concat gs) ->
  forall i j x, i < j ->
    In x (nth i gs []) -> In x (nth j gs []) -> False.
Proof.
  induction gs as [|g gs IH]; intros Hnd i j x Hij Hi Hj.
  - destruct i; contradiction.
  - simpl in Hnd. destruct j as [|j]; [lia|]. destruct i as [|i]; simpl in *.
    + assert (In x (concat gs)).
      { destruct (Nat.lt_ge_cases j (length gs)) as [Hlt|Hge].
        - apply in_concat. exists (nth j gs []). split; trivial.
          now apply nth_In.
        - rewrite nth_overflow in Hj by lia. contradiction. }
      clear IH Hj. induction g as [|y g IHg]; [contradiction|].
      simpl in Hnd. inversion Hnd as [|? ? Hnotin Hnd']; subst.
      destruct Hi as [->|Hi]; [|now apply IHg].
      apply Hnotin, in_or_app. now right.
    + apply (IH (NoDup_app_remove_l _ _ Hnd) i j x); trivial; lia.
Qed.

Lemma nth_error_zip_with {A B C} (f : A -> B -> C) l1 l2 c :
  nth_error (zip_with f l1 l2) c
  = match nth_error l1 c, nth_error l2 c with
    | Some a, Some b => Some (f a b)
    | _, _ => None
    end.
Proof.
  unfold zip_with. revert l2 c.
  induction l1 as [|x l1 IH]; intros [|y l2] [|c]; simpl; trivial;
    try apply IH.
  now destruct (nth_error l1 c).
Qed.

Lemma nth_error_mask_set {A} (mask : list bool) (v : A) l c :
  nth_error (mask_set mask v l) c
  = match nth_error l c with
    | Some x =>
        match nth_error mask c with
        | Some true => Some v
        | _ => Some x
        end
    | None => None
    end.
Proof.
  revert l c. induction mask as [|b mask IH]; intros [|x l] [|c]; simpl; trivial;
    try apply IH.
  - now destruct (nth_error l c).
  - now destruct b.
Qed.

Lemma np_any_true (l : list bool) :
  np_any l = true <-> exists c, nth_error l c = Some true.
Proof.
  unfold np_any. rewrite existsb_exists. split.
  - intros (b & Hin & ->). apply In_nth_error in Hin. exact Hin.
  - intros (c & Hc). exists true. split; trivial. eapply nth_error_In, Hc.
Qed.

Lemma np_any2_true (m : list (list bool)) :
  np_any2 m = true <-> exists e c, entry m e c = Some true.
Proof.
  unfold np_any2, entry. rewrite existsb_exists. split.
  - intros (r & Hin & Hany). apply In_nth_error in Hin as (e & He).
    apply np_any_true in Hany as (c & Hc). exists e, c. now rewrite He.
  - intros (e & c & H). destruct (nth_error m e) as [r|] eqn:He; [|discriminate].
    exists r. split; [eapply nth_error_In, He|].
    apply np_any_true. now exists c.
Qed.

Lemma entry_map {A B} (f : A -> B) (m : list (list A)) e c :
  entry (map (map f) m) e c = option_map f (entry m e c).
Proof.
  unfold entry. rewrite nth_error_map.
  destruct (nth_error m e); simpl; trivial. apply nth_error_map.
Qed.

Lemma entry_zip_with {A B C} (f : A -> B -> C) m1 m2 e c :
  entry (zip_with (zip_with f) m1 m2) e c
  = match entry m1 e c, entry m2 e c with
    | Some a, Some b => Some (f a b)
    | _, _ => None
    end.
Proof.
  unfold entry. rewrite nth_error_zip_with.
  destruct (nth_error m1 e) as [r1|], (nth_error m2 e) as [r2|]; trivial.
  - apply nth_error_zip_with.
  - now destruct (nth_error r1 c).
Qed.


Lemma get_nth_ok {A} (i : nat) (l : list A) (x : A) :
  get_nth i l = Ok x <-> nth_error l i = Some x.
Proof.
  unfold get_nth, of_option. destruct (nth_error l i); split; congruence.
Qed.

Lemma nth_error_set_nth {A} (i : nat) (v : A) (l l' : list A) :
  set_nth i v l = Ok l' ->
  length l' = length l /\
  forall j, nth_error l' j = if j =? i then Some v else nth_error l j.
Proof.
  revert i l'. induction l as [|x l IH]; intros [|i] l'; simpl;
    try discriminate.
  - intros H. inversion H. split; trivial; now intros [|j].
  - destruct (set_nth i v l) as [t|] eqn:E; simpl; try discriminate.
    intros H. inversion H. destruct (IH i t E) as [Hlen Hnth].
    split; [simpl; lia|]. intros [|j]; simpl; trivial.
Qed.

Lemma broadcast_to_length {A} (n : nat) (v v' : list A) :
  np.broadcast_to n v = Ok v' -> length v' = n.
Proof.
  unfold np.broadcast_to. destruct (Nat.eqb_spec (length v) n).
  - intros H. inversion H. now subst.
  - destruct v as [|x [|y v]]; try discriminate.
    intros H. inversion H. apply repeat_length.
Qed.

Lemma broadcast_to_same {A} (v : list A) :
  np.broadcast_to (length v) v = Ok v.
Proof. unfold np.broadcast_to. now rewrite Nat.eqb_refl. Qed.

Lemma set_row_ok (r : nat) (v : list float) (a a' : matrix) :
  set_row r v a = Ok a' ->
  exists v',
    np.broadcast_to (length v') v = Ok v' /\
    length a' = length a /\
    forall j, nth_error a' j = if j =? r then Some v' else nth_error a j.
Proof.
  unfold set_row, get_nth, of_option.
  destruct (nth_error a r) as [old|]; simpl; try discriminate.
  destruct (np.broadcast_to (length old) v) as [v'|] eqn:E; simpl;
    try discriminate.
  intros H. exists v'. rewrite (broadcast_to_length _ _ _ E).
  split; trivial. now apply nth_error_set_nth.
Qed.


Section StepEach.

Context {CellSol CasadiObjs : Type}.
Variables ss ms :
  CasadiObjs -> list (option CellSol) -> list cell_input ->
  option (list (option CellSol) * matrix * matrix).

Lemma step_each_length acts inputs r :
  step_each ss ms acts inputs = Ok r ->
  length (fst r) = length acts /\ length (snd r) = length acts.
Proof.
  revert inputs r. induction acts as [|a acts IH]; intros [|i inputs] r; simpl;
    try discriminate; try (intros H; inversion H; auto).
  destruct (actor_step ss ms a i) as [r1|]; simpl in *; try discriminate.
  destruct (step_each ss ms acts inputs) as [rs|] eqn:E; simpl in *;
    try discriminate.
  inversion H. simpl. destruct (IH _ _ E). auto.
Qed.

End StepEach.

(** ** Facts on float comparisons *)

Lemma SFcompare_antisym (x y : spec_float) :
  SFcompare y x = option_map CompOpp (SFcompare x y).
Proof.
  destruct x as [sx|sx| |sx mx ex], y as [sy|sy| |sy my ey]; simpl; trivial;
    try (destruct sx; reflexivity); try (destruct sy; reflexivity);
    try (destruct sx, sy; reflexivity).
  destruct sx, sy; simpl; trivial;
    rewrite (Z.compare_antisym ey ex);
    destruct (ey ?= ex)%Z eqn:E; simpl; trivial;
    rewrite (Pos.compare_cont_antisym mx my Eq); simpl;
    try rewrite CompOpp_involutive; reflexivity.
Qed.

Lemma float_leb_ltb (x y : float) :
  (x <=? y)%float = true -> (y <? x)%float = false.
Proof.
  rewrite leb_spec, ltb_spec. unfold SFleb, SFltb.
  rewrite (SFcompare_antisym (Prim2SF x) (Prim2SF y)).
  destruct (SFcompare (Prim2SF x) (Prim2SF y)) as [[]|]; simpl; congruence.
Qed.

Lemma float_ltb_leb (x y : float) :
  (x <? y)%float = true -> (x <=? y)%float = true.
Proof.
  rewrite leb_spec, ltb_spec. unfold SFleb, SFltb.
  destruct (SFcompare (Prim2SF x) (Prim2SF y)) as [[]|]; simpl; congruence.
Qed.

Lemma sign_product_negative (p n : float) :
  (np.sign p * np.sign n <? 0)%float = true <->
  ((p <? 0) = true /\ (0 <? n) = true \/ (0 <? p) = true /\ (n <? 0) = true)%float.
Proof.
  assert (Hp : (p <? 0)%float = true -> (0 <? p)%float = false)
    by (intro; now apply float_leb_ltb, float_ltb_leb).
  assert (Hn : (n <? 0)%float = true -> (0 <? n)%float = false)
    by (intro; now apply float_leb_ltb, float_ltb_leb).
  unfold np.sign.
  destruct (p <? 0)%float, (0 <? p)%float, (p =? 0)%float;
    try (specialize (Hp eq_refl); discriminate);
    destruct (n <? 0)%float, (0 <? n)%float, (n =? 0)%float;
    try (specialize (Hn eq_refl); discriminate);
    vm_compute; intuition congruence.
Qed.

(** ** The partition map *)

Lemma nth_map_seq {A} (f : nat -> A) (n i : nat) (d : A) :
  i < n -> nth i (map f (seq 0 n)) d = f i.
Proof.
  intros Hi. rewrite (nth_indep _ d (f 0)) by (rewrite length_map, length_seq; lia).
  now rewrite map_nth, seq_nth.
Qed.

Lemma array_split_arange_groups (N W : nat) groups :
  np.array_split (np.arange N) W = Ok groups ->
  forall i, i < W ->
    nth i groups [] = seq (div_point N W i) (div_point N W (i + 1) - div_point N W i).
Proof.
  intros H i Hi. rewrite array_split_ok in H by lia. injection H as <-.
  rewrite nth_map_seq by trivial.
  replace (length (np.arange N)) with N by (symmetry; apply length_seq).
  rewrite slice_arange; trivial.
  - apply div_point_mono; lia.
  - apply div_point_le_total; lia.
Qed.

Section PartitionMap.

Context {CellSol CasadiObjs : Type}.

(** C4. For [1 <= W <= N], [split_models] of the ray and dask managers
    returns with a partition map of [W] groups: each group is a non-empty run
    of consecutive indices, two different groups share no index, the groups
    in order make up [0 .. N-1], and [spm_per_worker] lists their sizes,
    which sum to [N]. The heat-transfer coefficients are cut the same way. *)
Theorem split_models_partition (kind : manager_kind) (N W : nat)
    (htc0 : list float) (s : state CellSol CasadiObjs) :
  kind = ray_manager \/ kind = dask_manager ->
  1 <= W -> W <= N ->
  exists s',
    split_models kind N W htc0 s = Done tt s' /\
    let groups := split_index (self s') in
    length groups = W /\
    concat groups = seq 0 N /\
    (forall i, i < W ->
       exists start, nth i groups [] = seq start (length (nth i groups [])) /\
                     nth i groups [] <> []) /\
    (forall i j x, i <> j ->
       In x (nth i groups []) -> In x (nth j groups []) -> False) /\
    spm_per_worker (self s') = SpmList (map (@length nat) groups) /\
    list_sum (map (@length nat) groups) = N /\
    concat (htc (self s')) = htc0.
Proof.
  intros Hkind HW HN.
  destruct (np.array_split htc0 W) as [h|] eqn:Hh;
    [|rewrite array_split_ok in Hh by lia; discriminate].
  destruct (np.array_split (np.arange N) W) as [groups|] eqn:Hg;
    [|rewrite array_split_ok in Hg by lia; discriminate].
  eexists. split.
  { destruct Hkind as [-> | ->]; unfold split_models, bind;
      rewrite Hh, Hg; reflexivity. }
  cbn [self split_index set_spm_per_worker set_split_index set_htc
       spm_per_worker htc].
  destruct (array_split_concat _ _ _ Hg) as [Hlen Hcat].
  destruct (array_split_concat _ _ _ Hh) as [_ Hcath].
  assert (Hnd : NoDup (concat groups))
    by (rewrite Hcat; apply seq_NoDup).
  repeat split; trivial.
  - intros i Hi. rewrite (array_split_arange_groups _ _ _ Hg i Hi).
    assert (div_point N W i < div_point N W (i + 1))
      by (apply div_point_strict; lia).
    exists (div_point N W i). rewrite length_seq. split; trivial.
    intros E. apply (f_equal (@length nat)) in E.
    rewrite length_seq in E. simpl in E. lia.
  - intros i j x Hij Hi Hj.
    destruct (Nat.lt_total i j) as [Hlt|[Heq|Hgt]]; [|lia|].
    + exact (NoDup_concat_disjoint groups Hnd i j x Hlt Hi Hj).
    + exact (NoDup_concat_disjoint groups Hnd j i x Hgt Hj Hi).
  - rewrite <- length_concat, Hcat. apply length_seq.
Qed.

End PartitionMap.

Lemma split_models_partition_witness :
  exists s',
    split_models ray_manager 5 2 Bench.coefficients Bench.fresh = Done tt s' /\
    concat (split_index (self s')) = seq 0 5.
Proof.
  destruct (split_models_partition ray_manager 5 2 Bench.coefficients
              Bench.fresh (or_introl eq_refl))
    as (s' & Hs & _ & Hcat & _); [lia | lia |].
  exists s'. split; [exact Hs | exact Hcat].
Defined.

(** ** The event detector *)

Section Actor.

Context {CellSol CasadiObjs : Type}.
Local Notation generic_actor := (generic_actor CellSol CasadiObjs).

(** C2. A call of [check_events] on an actor that has no previous indicators
    stores the current ones and reports no event; a call on an actor that
    has previous ones reports an event exactly when some entry
    [event, cell] has [sign(previous) * sign(current) < 0]; after either
    call the stored previous indicators are the current ones. *)
Theorem check_events_detects (a : generic_actor) (cur : matrix) :
  events_eval a = Some cur ->
  (forall prev, last_events a = Some prev -> same_shape prev cur) ->
  exists a' fired,
    check_events a = Ok (a', fired) /\
    last_events a' = Some cur /\
    events_eval a' = Some cur /\
    match last_events a with
    | None => fired = false
    | Some prev => fired = true <-> sign_change prev cur
    end.
Proof.
  intros Hcur _. unfold check_events. rewrite Hcur.
  destruct (last_events a) as [prev|] eqn:Hlast.
  - eexists _, _. split; [reflexivity|]. cbn [last_events events_eval].
    split; trivial. split; trivial.
    rewrite np_any2_true. unfold sign_change. split.
    + intros (e & c & H). rewrite entry_zip_with, !entry_map in H.
      destruct (entry prev e c) as [p|] eqn:Hp; [|discriminate].
      destruct (entry cur e c) as [n|] eqn:Hn; [|discriminate].
      simpl in H. injection H as H. now exists e, c, p, n.
    + intros (e & c & p & n & Hp & Hn & H). exists e, c.
      rewrite entry_zip_with, !entry_map, Hp, Hn. simpl. now rewrite H.
  - eexists _, _. split; [reflexivity|]. cbn [last_events events_eval].
    auto.
Qed.

End Actor.

Lemma check_events_detects_witness :
  exists a' fired,
    check_events Bench.armed = Ok (a', fired) /\
    last_events a' = Some [[1; -1]]%float /\
    (fired = true <-> sign_change [[-1; -1]]%float [[1; -1]]%float).
Proof.
  destruct (check_events_detects Bench.armed [[1; -1]]%float eq_refl)
    as (a' & fired & H1 & H2 & _ & H4).
  - intros prev H. inversion H. repeat constructor.
  - exists a', fired. repeat split; trivial; apply H4.
Defined.

(** The first call of a new actor: [setup] leaves no previous indicators. *)
Lemma setup_leaves_no_events {CellSol CasadiObjs SimFunc : Type}
    (cco : option SimFunc -> parameter_values_t -> float -> float -> float ->
           float -> nat -> nat -> list string -> bool -> CasadiObjs)
    Nspm sim_func parameter_values dt I_init htc_init variable_names
    initial_soc nproc :
  last_events (actor_setup (CellSol := CellSol) cco Nspm sim_func
                 parameter_values dt I_init htc_init variable_names
                 initial_soc nproc) = None.
Proof. reflexivity. Qed.

(** ** A program logic for the computations on the state *)

Section Triples.

Context {CellSol CasadiObjs : Type}.

Local Notation state := (state CellSol CasadiObjs).
Local Notation M := (M CellSol CasadiObjs).

Lemma triple_ret {A} (P : state -> Prop) (a : A) Q E :
  (forall s, P s -> Q a s) -> triple P (ret a) Q E.
Proof. intros H s Hs. apply H, Hs. Qed.

Lemma triple_raise {A} (P : state -> Prop) e (Q : A -> state -> Prop)
    (E : state -> Prop) :
  (forall s, P s -> E s) -> triple P (raise e) Q E.
Proof. intros H s Hs. apply H, Hs. Qed.

Lemma triple_bind {A B} (P : state -> Prop) (c : M A) (k : A -> M B)
    (Q1 : A -> state -> Prop) Q E :
  triple P c Q1 E -> (forall a, triple (Q1 a) (k a) Q E) ->
  triple P (bind c k) Q E.
Proof.
  intros Hc Hk s Hs. unfold bind. specialize (Hc s Hs).
  destruct (c s) as [a s'|e s']; trivial. now apply Hk.
Qed.

Lemma triple_conseq {A} (P P' : state -> Prop) (c : M A)
    (Q Q' : A -> state -> Prop) (E E' : state -> Prop) :
  triple P' c Q' E' ->
  (forall s, P s -> P' s) -> (forall a s, Q' a s -> Q a s) ->
  (forall s, E' s -> E s) ->
  triple P c Q E.
Proof.
  intros H HP HQ HE s Hs. specialize (H s (HP s Hs)).
  destruct (c s); auto.
Qed.

Lemma triple_lift {A} (P : state -> Prop) (r : res A) Q E :
  (forall a s, r = Ok a -> P s -> Q a s) ->
  (forall e s, r = Err e -> P s -> E s) ->
  triple P (lift r) Q E.
Proof. intros HQ HE s Hs. destruct r; simpl; eauto. Qed.

Lemma triple_get {A} (P : state -> Prop) (f : manager CellSol CasadiObjs -> A)
    Q E :
  (forall s, P s -> Q (f (self s)) s) -> triple P (get f) Q E.
Proof. intros H s Hs. apply H, Hs. Qed.

Lemma triple_modify (P : state -> Prop) f Q E :
  (forall s, P s -> Q tt (mk_state (f (self s)) (world s))) ->
  triple P (modify f) Q E.
Proof. intros H s Hs. apply H, Hs. Qed.

Lemma triple_modify_world (P : state -> Prop) f Q E :
  (forall s, P s -> Q tt (mk_state (self s) (f (world s)))) ->
  triple P (modify_world f) Q E.
Proof. intros H s Hs. apply H, Hs. Qed.

Lemma inv_ret {A} (I : state -> Prop) (a : A) : inv I (ret a).
Proof. now apply triple_ret. Qed.

Lemma inv_raise {A} (I : state -> Prop) e : inv I (raise e : M A).
Proof. now apply triple_raise. Qed.

Lemma inv_lift {A} (I : state -> Prop) (r : res A) : inv I (lift r).
Proof. now apply triple_lift. Qed.

Lemma inv_get {A} (I : state -> Prop) (f : manager CellSol CasadiObjs -> A) : inv I (get f).
Proof. now apply triple_get. Qed.

Lemma inv_bind {A B} (I : state -> Prop) (c : M A) (k : A -> M B) :
  inv I c -> (forall a, inv I (k a)) -> inv I (bind c k).
Proof. intros Hc Hk. eapply triple_bind; [exact Hc|exact Hk]. Qed.

Lemma inv_modify (I : state -> Prop) f :
  (forall s, I s -> I (mk_state (f (self s)) (world s))) -> inv I (modify f).
Proof. intros H. now apply triple_modify. Qed.

Lemma inv_modify_world (I : state -> Prop) f :
  (forall s, I s -> I (mk_state (self s) (f (world s)))) ->
  inv I (modify_world f).
Proof. intros H. now apply triple_modify_world. Qed.

Lemma inv_if {A} (I : state -> Prop) (b : bool) (c1 c2 : M A) :
  inv I c1 -> inv I c2 -> inv I (if b then c1 else c2).
Proof. now destruct b. Qed.

Lemma inv_for_each {A} (I : state -> Prop) (l : list A) (body : A -> M unit) :
  (forall x, inv I (body x)) -> inv I (for_each l body).
Proof.
  intros H. induction l as [|x l IH]; simpl.
  - apply inv_ret.
  - apply inv_bind; auto.
Qed.

(** What a computation that returned has done, read backwards. *)

Lemma bind_done {A B} (c : M A) (k : A -> M B) (s : state) b s' :
  bind c k s = Done b s' ->
  exists a s1, c s = Done a s1 /\ k a s1 = Done b s'.
Proof.
  unfold bind. destruct (c s) as [a s1|e s1]; [|discriminate].
  intros H. now exists a, s1.
Qed.

Lemma lift_done {A} (r : res A) (s : state) a s' :
  lift r s = Done a s' -> r = Ok a /\ s' = s.
Proof.
  destruct r; simpl; unfold ret, raise; intros H; inversion H; auto.
Qed.

Lemma get_done {A} (f : manager CellSol CasadiObjs -> A) (s : state) a s' :
  get f s = Done a s' -> a = f (self s) /\ s' = s.
Proof. unfold get. intros H; inversion H; auto. Qed.

Lemma ret_done {A} (x : A) (s : state) a s' :
  ret x s = Done a s' -> a = x /\ s' = s.
Proof. unfold ret. intros H; inversion H; auto. Qed.

Lemma modify_done f (s : state) a s' :
  modify f s = Done a s' -> s' = mk_state (f (self s)) (world s).
Proof. unfold modify. intros H; inversion H; auto. Qed.

Lemma modify_world_done f (s : state) a s' :
  modify_world f s = Done a s' -> s' = mk_state (self s) (f (world s)).
Proof. unfold modify_world. intros H; inversion H; auto. Qed.

End Triples.

Ltac inv_step :=
  first
    [ apply inv_ret
    | apply inv_raise
    | apply inv_lift
    | apply inv_get
    | apply inv_bind; [|intros ?]
    | apply inv_for_each; intros ?
    | solve [apply inv_modify; intros ? ?; cbn; tauto]
    | solve [apply inv_modify_world; intros ? ?; cbn; tauto]
    | match goal with
      | |- inv _ (if ?b then _ else _) => destruct b
      | |- inv _ (match ?x with _ => _ end) => destruct x
      end ].

Ltac inv_auto := repeat inv_step.

Ltac done_step H :=
  match type of H with
  | bind _ _ _ = Done _ _ =>
      let a := fresh "a" in
      let s := fresh "s" in
      let H1 := fresh "H" in
      apply bind_done in H as (a & s & H1 & H); cbv beta in H;
      lazymatch type of a with unit => destruct a | _ => idtac end;
      done_step H1
  | lift _ _ = Done _ _ =>
      let E := fresh "E" in apply lift_done in H as [E ->]
  | get _ _ = Done _ _ =>
      let E := fresh "E" in apply get_done in H as [E ->]; try subst
  | ret _ _ = Done _ _ =>
      let E := fresh "E" in apply ret_done in H as [E ->]; try subst
  | modify _ _ = Done _ _ => apply modify_done in H as ->
  | modify_world _ _ = Done _ _ => apply modify_world_done in H as ->
  | Done _ _ = Done _ _ => inversion H; subst; clear H
  | Raised _ _ = Done _ _ => discriminate H
  | _ => idtac
  end.


Ltac done_all H := repeat (progress done_step H).

(** ** What the operations of the loop assign *)

Lemma same_topology_refl (nl : netlist_t) : same_topology nl nl.
Proof. induction nl; constructor; auto. Qed.

Lemma same_topology_trans (a b c : netlist_t) :
  same_topology a b -> same_topology b c -> same_topology a c.
Proof.
  intros Hab. revert c. induction Hab as [|x y a b Hxy _ IH]; intros c Hbc.
  - exact Hbc.
  - inversion Hbc as [|? z ? c' Hyz Hbc']; subst. constructor.
    + intuition congruence.
    + now apply IH.
Qed.

Lemma same_topology_fields (a b : netlist_t) :
  same_topology a b ->
  length a = length b /\ map desc a = map desc b /\
  map node1 a = map node1 b /\ map node2 a = map node2 b.
Proof.
  induction 1 as [|x y a b (H1 & H2 & H3) _ (IH0 & IH1 & IH2 & IH3)]; simpl;
    auto.
  repeat split; congruence.
Qed.

Lemma loc_fill_topology (mask : list bool) (nl : netlist_t) (vals : list float) :
  same_topology nl (loc_fill mask nl vals).
Proof.
  revert nl vals.
  induction mask as [|[] mask IH]; intros [|r nl] [|v vals]; simpl;
    try apply same_topology_refl; constructor; try apply IH; repeat split.
Qed.

Lemma loc_set_scalar_topology (mask : list bool) (nl : netlist_t) (v : float) :
  same_topology nl (loc_set_scalar mask nl v).
Proof.
  revert nl. induction mask as [|[] mask IH]; intros [|r nl]; simpl;
    try apply same_topology_refl; constructor; try apply IH; repeat split.
Qed.

Section NetlistUpdate.

Context {CellSol CasadiObjs : Type}.

(** [update_netlist] assigns the netlist and nothing else, and the netlist
    keeps its topology, also when an assignment is refused. *)
Lemma update_netlist_effect (env : loop_env) (step : nat)
    (temp_ocv temp_Ri : list float) (s : state CellSol CasadiObjs) :
  exists nl',
    same_topology (netlist (self s)) nl' /\
    let s' := mk_state (set_netlist nl' (self s)) (world s) in
    (exists e, update_netlist env step temp_ocv temp_Ri s = Raised e s') \/
    update_netlist env step temp_ocv temp_Ri s = Done tt s'.
Proof.
  destruct s as [[nl d vn shm out ts h si spw acts] w].
  unfold update_netlist, bind, get, lift, modify, loc_set_array, ret, raise.
  cbn [self world netlist].
  destruct (count_true (V_map env) =? length temp_ocv);
    [|eexists; split; [apply same_topology_refl|left; eexists; reflexivity]].
  cbn [self world netlist set_netlist].
  destruct (count_true (Ri_map env) =? length temp_Ri);
    [|eexists; split; [apply loc_fill_topology|left; eexists; reflexivity]].
  cbn [self world netlist set_netlist].
  destruct (get_nth step (protocol_ env));
    cbn [self world netlist set_netlist].
  - eexists; split; [|right; reflexivity].
    eapply same_topology_trans; [apply loc_fill_topology|].
    eapply same_topology_trans; [apply loc_fill_topology|].
    apply loc_set_scalar_topology.
  - eexists; split; [|left; eexists; reflexivity].
    eapply same_topology_trans; apply loc_fill_topology.
Qed.

End NetlistUpdate.

Section Frames.

Context {CellSol CasadiObjs : Type}.
Variable event_names_of : CasadiObjs -> list string.
Variables ss ms :
  CasadiObjs -> list (option CellSol) -> list cell_input ->
  option (list (option CellSol) * matrix * matrix).
Variable circuit : netlist_t -> list float * list float.

Local Notation state := (state CellSol CasadiObjs).

Variable I : state -> Prop.
Hypothesis stable_actors : forall s v,
  I s -> length v = length (actors (self s)) ->
  I (mk_state (set_actors v (self s)) (world s)).
Hypothesis stable_logged : forall s v,
  I s -> I (mk_state (self s) (set_logged v (world s))).
Hypothesis stable_output : forall s v,
  I s -> I (mk_state (set_output v (self s)) (world s)).
Hypothesis stable_shm_i_app : forall s v,
  I s -> I (mk_state (set_shm_i_app v (self s)) (world s)).
Hypothesis stable_timestep : forall s v,
  I s -> I (mk_state (set_timestep v (self s)) (world s)).
Hypothesis stable_netlist : forall s v,
  I s -> same_topology (netlist (self s)) v ->
  I (mk_state (set_netlist v (self s)) (world s)).

Lemma inv_logger (e : log_entry) : inv I (logger e).
Proof. apply inv_modify_world. intros s Hs. now apply stable_logged. Qed.

Lemma inv_build_inputs_for (indices : list nat) :
  inv I (build_inputs_for indices).
Proof.
  induction indices as [|i rest IH]; simpl; [apply inv_ret|].
  unfold actor_i_app, actor_htc. inv_auto. exact IH.
Qed.

Lemma inv_build_inputs : inv I (@build_inputs CellSol CasadiObjs).
Proof. unfold build_inputs. inv_auto. apply inv_build_inputs_for. Qed.

Lemma inv_set_output o : inv I (modify (set_output o)).
Proof. apply inv_modify. intros s Hs. now apply stable_output. Qed.

Lemma inv_step_remote_actors : inv I (step_remote_actors ss ms).
Proof.
  unfold step_remote_actors.
  apply inv_bind; [apply inv_build_inputs|intros inputs].
  apply triple_bind with (Q1 := fun acts s => I s /\ acts = actors (self s));
    [apply triple_get; auto|intros acts].
  apply triple_bind
    with (Q1 := fun r s => I s /\ length (fst r) = length (actors (self s))).
  { apply triple_lift; [|tauto].
    intros r s E [Hs ->]. split; trivial.
    apply (step_each_length _ _ _ _ _ E). }
  intros r. apply triple_bind with (Q1 := fun _ => I).
  - apply triple_modify. intros s [Hs Hlen]. now apply stable_actors.
  - intros _. destruct (np_any (snd r)); [apply inv_logger|apply inv_ret].
Qed.

Lemma inv_log_events (a : generic_actor CellSol CasadiObjs) :
  inv I (log_events event_names_of a).
Proof.
  unfold log_events, log_event_row.
  repeat first [ apply inv_logger | inv_step ].
Qed.

Lemma inv_casadi_tail (r : generic_actor CellSol CasadiObjs * bool) :
  inv I (if snd r then log_events event_names_of (fst r) else ret tt).
Proof. destruct (snd r); [apply inv_log_events|apply inv_ret]. Qed.

Lemma inv_step_casadi_actor :
  inv I (step_casadi_actor event_names_of ss ms).
Proof.
  unfold step_casadi_actor.
  apply inv_bind; [apply inv_build_inputs|intros inputs].
  apply triple_bind with (Q1 := fun acts s => I s /\ acts = actors (self s));
    [apply triple_get; auto|intros acts].
  apply triple_bind with (Q1 := fun _ s => I s /\ acts = actors (self s));
    [apply triple_lift; tauto|intros a0].
  apply triple_bind with (Q1 := fun _ s => I s /\ acts = actors (self s));
    [apply triple_lift; tauto|intros i0].
  apply triple_bind with (Q1 := fun _ s => I s /\ acts = actors (self s));
    [apply triple_lift; tauto|intros r].
  apply triple_bind
    with (Q1 := fun acts' s => I s /\ length acts' = length (actors (self s))).
  { apply triple_lift; [|tauto].
    intros acts' s E [Hs ->]. split; trivial.
    apply (nth_error_set_nth _ _ _ _ E). }
  intros acts'. apply triple_bind with (Q1 := fun _ => I).
  - apply triple_modify. intros s [Hs Hlen]. now apply stable_actors.
  - intros _. apply inv_casadi_tail.
Qed.

Lemma inv_step_actors (kind : manager_kind) :
  inv I (step_actors event_names_of ss ms kind).
Proof.
  destruct kind; simpl;
    first [ apply inv_ret | apply inv_step_remote_actors
          | apply inv_step_casadi_actor ].
Qed.

Lemma inv_store_outputs (step : nat) (outs : list matrix) (i : nat) :
  inv I (store_outputs step i outs).
Proof.
  revert i. induction outs as [|out rest IH]; intros i; simpl; [apply inv_ret|].
  repeat first [ apply inv_set_output | apply IH | inv_step ].
Qed.

Lemma inv_get_actor_output (kind : manager_kind) (step : nat) :
  inv I (get_actor_output kind step).
Proof.
  destruct kind; simpl; try apply inv_ret;
    unfold get_remote_output, get_casadi_output;
    repeat first [ apply inv_set_output | apply inv_store_outputs | inv_step ].
Qed.

Lemma inv_update_netlist (env : loop_env) (step : nat)
    (temp_ocv temp_Ri : list float) :
  inv I (update_netlist env step temp_ocv temp_Ri).
Proof.
  intros s Hs.
  destruct (update_netlist_effect env step temp_ocv temp_Ri s)
    as (nl' & Htop & [[e ->] | ->]); now apply stable_netlist.
Qed.

Lemma inv_resolve_circuit (env : loop_env) (now : float) (l : locals) :
  inv I (resolve_circuit circuit env now l).
Proof. unfold resolve_circuit. inv_auto. Qed.

Lemma inv_store_next_current (env : loop_env) (step : nat) (l : locals) :
  inv I (store_next_current env step l).
Proof.
  unfold store_next_current. inv_auto.
  apply inv_modify. intros s Hs. now apply stable_shm_i_app.
Qed.

Lemma inv_loop_body (kind : manager_kind) (env : loop_env) (step : nat)
    (l : locals) :
  inv I (loop_body event_names_of ss ms circuit kind env step l).
Proof.
  unfold loop_body, print.
  repeat first [ apply inv_step_actors | apply inv_get_actor_output
               | apply inv_update_netlist | apply inv_resolve_circuit
               | apply inv_store_next_current | apply inv_logger
               | apply inv_modify; intros ? ?; now apply stable_timestep
               | inv_step ].
Qed.

Lemma inv_run_loop (kind : manager_kind) (env : loop_env) (steps : list nat)
    (l : locals) :
  inv I (run_loop event_names_of ss ms circuit kind env steps l).
Proof.
  revert l. induction steps as [|step rest IH]; intros l; simpl.
  - apply inv_ret.
  - apply inv_bind; [apply inv_loop_body|].
    intros [l'|l']; [apply IH|apply inv_ret].
Qed.

End Frames.

Section StableLoop.

Context {CellSol CasadiObjs : Type}.
Variable event_names_of : CasadiObjs -> list string.
Variables ss ms :
  CasadiObjs -> list (option CellSol) -> list cell_input ->
  option (list (option CellSol) * matrix * matrix).
Variable circuit : netlist_t -> list float * list float.

Lemma inv_run_loop_stable (I : state CellSol CasadiObjs -> Prop)
    (kind : manager_kind) (env : loop_env) (steps : list nat) (l : locals) :
  loop_stable I ->
  inv I (run_loop event_names_of ss ms circuit kind env steps l).
Proof.
  intros []. now apply inv_run_loop.
Qed.

Lemma inv_loop_body_stable (I : state CellSol CasadiObjs -> Prop)
    (kind : manager_kind) (env : loop_env) (step : nat) (l : locals) :
  loop_stable I ->
  inv I (loop_body event_names_of ss ms circuit kind env step l).
Proof.
  intros []. now apply inv_loop_body.
Qed.

(** Stepping the actors and fetching their output assign [actors],
    [output] and records of the logger only. *)
Lemma step_and_output_keep (kind : manager_kind) (step : nat)
    (s sA sB : state CellSol CasadiObjs) :
  step_actors event_names_of ss ms kind s = Done tt sA ->
  get_actor_output kind step sA = Done tt sB ->
  loop_inputs_kept s sB /\ actors (self sB) = actors (self sA).
Proof.
  intros HA HB.
  assert (H1 : loop_inputs_kept s sA).
  { pose proof (@inv_step_actors _ _ event_names_of ss ms
                  (loop_inputs_kept s)) as H.
    specialize (H ltac:(intros ? ? Hs _; exact Hs)
                  ltac:(intros ? ? Hs; exact Hs) kind s).
    rewrite HA in H. apply H. repeat split. }
  pose proof (@inv_get_actor_output _ _
                (fun x => loop_inputs_kept s x /\
                          actors (self x) = actors (self sA))) as H.
  specialize (H ltac:(intros ? ? Hs; exact Hs) kind step sA).
  rewrite HB in H. apply H. now split.
Qed.

End StableLoop.

(** ** The values an update writes into the netlist *)

Lemma select_loc_fill (mask : list bool) (nl : netlist_t) (vals : list float) :
  length mask = length nl -> count_true mask = length vals ->
  select mask (map value (loc_fill mask nl vals)) = vals.
Proof.
  unfold count_true. revert nl vals.
  induction mask as [|[] mask IH]; intros [|r nl] [|v vals]; simpl;
    intros Hlen Hcount; try discriminate; trivial.
  - f_equal. apply IH; lia.
  - apply IH; trivial; lia.
  - apply IH; trivial; lia.
Qed.

Lemma select_loc_fill_disjoint (mask m' : list bool) (nl : netlist_t)
    (vals : list float) :
  disjoint_masks m' mask ->
  select m' (map value (loc_fill mask nl vals)) = select m' (map value nl).
Proof.
  intros H. revert nl vals.
  induction H as [|a b m' mask Hab _ IH]; intros nl vals; trivial.
  destruct nl as [|r nl]; [now destruct b|].
  destruct a, b; try discriminate; simpl.
  - f_equal. apply IH.
  - destruct vals; simpl; apply IH.
  - apply IH.
Qed.

Lemma select_loc_set_scalar (mask : list bool) (nl : netlist_t) (v : float) :
  length mask = length nl ->
  select mask (map value (loc_set_scalar mask nl v))
  = repeat v (count_true mask).
Proof.
  unfold count_true. revert nl.
  induction mask as [|[] mask IH]; intros [|r nl]; simpl; intros Hlen;
    try discriminate; trivial.
  - f_equal. apply IH; lia.
  - apply IH; lia.
Qed.

Lemma select_loc_set_scalar_disjoint (mask m' : list bool) (nl : netlist_t)
    (v : float) :
  disjoint_masks m' mask ->
  select m' (map value (loc_set_scalar mask nl v)) = select m' (map value nl).
Proof.
  intros H. revert nl.
  induction H as [|a b m' mask Hab _ IH]; intros nl; trivial.
  destruct nl as [|r nl]; trivial.
  destruct a, b; try discriminate; simpl.
  - f_equal. apply IH.
  - apply IH.
  - apply IH.
Qed.

Lemma derive_Ri_nth (temp_ocv temp_v i_app : list float) (c : nat) :
  nth_error (derive_Ri temp_ocv temp_v i_app) c
  = match nth_error temp_ocv c, nth_error temp_v c, nth_error i_app c with
    | Some ocv, Some v, Some i => Some (cell_resistance ocv v i)
    | _, _, _ => None
    end.
Proof.
  unfold derive_Ri, cell_resistance.
  rewrite nth_error_mask_set, !nth_error_zip_with, nth_error_map.
  destruct (nth_error temp_ocv c), (nth_error temp_v c), (nth_error i_app c);
    simpl; trivial.
  now destruct (abs _ <? _)%float.
Qed.

Lemma derive_Ri_length (temp_ocv temp_v i_app : list float) :
  length temp_ocv = length i_app -> length temp_v = length i_app ->
  length (derive_Ri temp_ocv temp_v i_app) = length i_app.
Proof.
  intros H1 H2. unfold derive_Ri.
  assert (Hm : forall (A : Type) mask (v : A) l,
             length (mask_set mask v l) = length l).
  { intros A mask v. induction mask as [|b mask IH]; intros [|x l]; simpl;
      trivial. now rewrite IH. }
  rewrite Hm. unfold zip_with.
  rewrite !length_map, !length_combine, !length_map, length_combine. lia.
Qed.

Lemma cell_resistance_cases (ocv v i : float) :
  ((abs i <? 1e-6)%float = true -> cell_resistance ocv v i = (1e-12)%float) /\
  ((1e-6 <=? abs i)%float = true ->
   cell_resistance ocv v i = ((ocv - v) / i)%float).
Proof.
  unfold cell_resistance. split; intros H.
  - now rewrite H.
  - now rewrite (float_leb_ltb _ _ H).
Qed.

(** ** One iteration that returns *)

Section Iteration.

Context {CellSol CasadiObjs : Type}.
Variable event_names_of : CasadiObjs -> list string.
Variables ss ms :
  CasadiObjs -> list (option CellSol) -> list cell_input ->
  option (list (option CellSol) * matrix * matrix).
Variable circuit : netlist_t -> list float * list float.

Local Notation state := (state CellSol CasadiObjs).

Lemma update_netlist_done (env : loop_env) (step : nat)
    (temp_ocv temp_Ri : list float) (s s' : state) :
  update_netlist env step temp_ocv temp_Ri s = Done tt s' ->
  exists p,
    nth_error (protocol_ env) step = Some p /\
    count_true (V_map env) = length temp_ocv /\
    count_true (Ri_map env) = length temp_Ri /\
    s' = mk_state
           (set_netlist
              (updated_netlist env (netlist (self s)) temp_ocv temp_Ri p)
              (self s))
           (world s).
Proof.
  destruct s as [[nl d vn shm out ts h si spw acts] w].
  unfold update_netlist, bind, get, lift, modify, loc_set_array, ret, raise,
    get_nth, of_option, updated_netlist.
  cbn [self world netlist].
  destruct (Nat.eqb_spec (count_true (V_map env)) (length temp_ocv));
    [|discriminate].
  cbn [self world netlist set_netlist].
  destruct (Nat.eqb_spec (count_true (Ri_map env)) (length temp_Ri));
    [|discriminate].
  cbn [self world netlist set_netlist].
  destruct (nth_error (protocol_ env) step) as [p|]; [|discriminate].
  cbn [self world netlist set_netlist].
  intros H. inversion H. now exists p.
Qed.

Lemma resolve_circuit_done (env : loop_env) (now : float) (l l1 : locals)
    (s s' : state) :
  resolve_circuit circuit env now l s = Done l1 s' ->
  s' = s /\ resolved circuit env now l (netlist (self s)) l1.
Proof.
  unfold resolve_circuit, resolved.
  destruct (now <=? end_time env)%float.
  - unfold bind, get, lift, ret.
    destruct (terminal_voltage _ _) as [vt|]; [|discriminate].
    intros H. inversion H. split; trivial. now exists vt.
  - unfold ret. intros H. now inversion H.
Qed.

Lemma store_next_current_done (env : loop_env) (step : nat) (l1 : locals)
    (s s' : state) :
  store_next_current env step l1 s = Done tt s' ->
  exists shm',
    stored env step l1 (shm_i_app (self s)) shm' /\
    netlist (self s') = netlist (self s) /\
    dt (self s') = dt (self s) /\
    variable_names (self s') = variable_names (self s) /\
    shm_i_app (self s') = shm' /\
    output (self s') = output (self s) /\
    timestep (self s') = timestep (self s) /\
    htc (self s') = htc (self s) /\
    split_index (self s') = split_index (self s) /\
    spm_per_worker (self s') = spm_per_worker (self s) /\
    actors (self s') = actors (self s) /\
    world s' = world s.
Proof.
  unfold store_next_current, stored.
  destruct (time l1 <? end_time env)%float.
  - unfold bind, get, lift, modify, ret.
    destruct (set_row _ _ _) as [shm'|]; [|discriminate].
    intros H. inversion H. exists shm'. cbn. repeat split.
  - unfold ret. intros H. inversion H. exists (shm_i_app (self s')).
    repeat split.
Qed.

Lemma loop_body_done (kind : manager_kind) (env : loop_env) (step : nat)
    (l : locals) (s s' : state) (f : flow) :
  loop_body event_names_of ss ms circuit kind env step l s = Done f s' ->
  exists sB temp_v temp_ocv i_app p l1,
    loop_inputs_kept s sB /\
    plane_row (output (self sB)) 0 step = Some temp_v /\
    plane_row (output (self sB)) 1 step = Some temp_ocv /\
    nth_error (shm_i_app (self s)) step = Some i_app /\
    nth_error (protocol_ env) step = Some p /\
    count_true (V_map env) = length temp_ocv /\
    count_true (Ri_map env) = length (derive_Ri temp_ocv temp_v i_app) /\
    (let nl' := updated_netlist env (netlist (self s)) temp_ocv
                  (derive_Ri temp_ocv temp_v i_app) p in
     resolved circuit env (time l + dt (self s))%float l nl' l1 /\
     stored env step l1 (shm_i_app (self s)) (shm_i_app (self s')) /\
     netlist (self s') = nl') /\
    output (self s') = output (self sB) /\
    actors (self s') = actors (self sB) /\
    dt (self s') = dt (self s) /\
    variable_names (self s') = variable_names (self s) /\
    htc (self s') = htc (self s) /\
    split_index (self s') = split_index (self s) /\
    spm_per_worker (self s') = spm_per_worker (self s) /\
    live_workers (world s') = live_workers (world s) /\
    runtime_up (world s') = runtime_up (world s) /\
    f = (if cutoff_reached env temp_v then Break l1 else Next l1) /\
    timestep (self s')
    = (if cutoff_reached env temp_v then timestep (self s)
       else timestep (self s) + 1).
Proof.
  unfold loop_body. intros H.
  done_all H.
  destruct (step_and_output_keep _ _ _ _ _ _ _ _ H0 H1) as [Hkept Hact].
  pose proof Hkept as (Knl & Kdt & Kvn & Kshm & Kts & Khtc & Ksi & Kspw & Klw & Kru).
  apply update_netlist_done in H2 as (p & Hp & HV & HRi & ->).
  apply resolve_circuit_done in H3 as [-> Hres].
  apply store_next_current_done in H4
    as (shm' & Hst & Snl & Sdt & Svn & Sshm & Sout & Sts & Shtc & Ssi & Sspw
        & Sact & Sw).
  cbn [self world netlist dt variable_names shm_i_app output timestep htc
       split_index spm_per_worker actors set_netlist] in *.
  apply get_nth_ok in E, E0, E1, E2, E3.
  exists s1, a0, a2, a3, p, a4.
  assert (Htail :
    f = (if cutoff_reached env a0 then Break a4 else Next a4) /\
    timestep (self s')
    = (if cutoff_reached env a0 then timestep (self s4)
       else timestep (self s4) + 1) /\
    netlist (self s') = netlist (self s4) /\
    dt (self s') = dt (self s4) /\
    variable_names (self s') = variable_names (self s4) /\
    shm_i_app (self s') = shm_i_app (self s4) /\
    output (self s') = output (self s4) /\
    htc (self s') = htc (self s4) /\
    split_index (self s') = split_index (self s4) /\
    spm_per_worker (self s') = spm_per_worker (self s4) /\
    actors (self s') = actors (self s4) /\
    live_workers (world s') = live_workers (world s4) /\
    runtime_up (world s') = runtime_up (world s4)).
  { unfold cutoff_reached.
    destruct (np_any (map (fun v => (v <? v_cut_lower env)%float) a0));
      [|destruct (np_any (map (fun v => (v_cut_higher env <? v)%float) a0))];
      cbv [print logger bind modify_world modify ret] in H;
      inversion H; subst; cbn; repeat split. }
  destruct Htail as (Tf & Tts & Tnl & Tdt & Tvn & Tshm & Tout & Thtc & Tsi
                     & Tspw & Tact & Tlw & Tru).
  unfold plane_row, entry, matrix in *. rewrite E, E0, E1, E2.
  rewrite Kshm in E3. rewrite Knl, Kdt in *. rewrite Kshm in Hst.
  rewrite Tshm, Sshm.
  repeat split; trivial; try congruence.
  destruct (cutoff_reached env a0); congruence.
Qed.

End Iteration.


(** ** The resistance written at a step, and the netlist's fixed topology *)

Section NetlistFacts.

Context {CellSol CasadiObjs SimFunc : Type}.
Variable cco :
  option SimFunc -> parameter_values_t -> float -> float -> float ->
  float -> nat -> nat -> list string -> bool -> CasadiObjs.
Variable event_names_of : CasadiObjs -> list string.
Variables ss ms :
  CasadiObjs -> list (option CellSol) -> list cell_input ->
  option (list (option CellSol) * matrix * matrix).
Variable circuit : netlist_t -> list float * list float.

Local Notation state := (state CellSol CasadiObjs).

(** C1. At every step that completes, the resistor rows of the netlist hold
    one resistance per cell, computed from that step's open-circuit voltage,
    terminal voltage and applied current alone: [1e-12] where
    [|I| < 1e-6] and [(OCV - V) / I] where [|I| >= 1e-6]. *)
Theorem resistance_written (kind : manager_kind) (env : loop_env) (step : nat)
    (l : locals) (s s' : state) (f : flow) :
  loop_body event_names_of ss ms circuit kind env step l s = Done f s' ->
  length (Ri_map env) = length (netlist (self s)) ->
  disjoint_masks (Ri_map env) (I_map env) ->
  exists temp_ocv temp_v i_app,
    plane_row (output (self s')) 1 step = Some temp_ocv /\
    plane_row (output (self s')) 0 step = Some temp_v /\
    nth_error (shm_i_app (self s')) step = Some i_app /\
    select (Ri_map env) (map value (netlist (self s')))
    = derive_Ri temp_ocv temp_v i_app /\
    forall c ocv v i,
      nth_error temp_ocv c = Some ocv ->
      nth_error temp_v c = Some v ->
      nth_error i_app c = Some i ->
      exists R,
        nth_error (derive_Ri temp_ocv temp_v i_app) c = Some R /\
        ((abs i <? 1e-6)%float = true -> R = (1e-12)%float) /\
        ((1e-6 <=? abs i)%float = true -> R = ((ocv - v) / i)%float).
Proof.
  intros H Hlen Hdisj.
  apply loop_body_done in H
    as (sB & temp_v & temp_ocv & i_app & p & l1 & Hkept & Hv & Hocv & Hi & Hp
        & HV & HRi & (Hres & Hst & Hnl) & Hout & _).
  exists temp_ocv, temp_v, i_app. rewrite Hout, Hnl.
  split; trivial. split; trivial. split; [|split].
  - unfold stored in Hst. destruct (time l1 <? end_time env)%float.
    + apply set_row_ok in Hst as (v' & _ & _ & Hnth). rewrite Hnth.
      destruct (Nat.eqb_spec step (step + 1)); [lia|trivial].
    + now rewrite Hst.
  - unfold updated_netlist.
    rewrite select_loc_set_scalar_disjoint by trivial.
    apply select_loc_fill; trivial.
    rewrite Hlen.
    apply (same_topology_fields _ _ (loc_fill_topology _ _ _)).
  - intros c ocv v i Hc1 Hc2 Hc3. exists (cell_resistance ocv v i).
    rewrite derive_Ri_nth, Hc1, Hc2, Hc3. split; trivial.
    apply cell_resistance_cases.
Qed.

Lemma update_netlist_values (env : loop_env) (step : nat)
    (temp_ocv temp_Ri : list float) (s1 s2 : state) :
  update_netlist env step temp_ocv temp_Ri s1 = Done tt s2 ->
  length (V_map env) = length (netlist (self s1)) ->
  disjoint_masks (V_map env) (Ri_map env) ->
  disjoint_masks (V_map env) (I_map env) ->
  disjoint_masks (Ri_map env) (I_map env) ->
  exists p,
    nth_error (protocol_ env) step = Some p /\
    select (V_map env) (map value (netlist (self s2))) = temp_ocv /\
    select (Ri_map env) (map value (netlist (self s2))) = temp_Ri /\
    select (I_map env) (map value (netlist (self s2)))
    = repeat p (count_true (I_map env)) /\
    forall m,
      disjoint_masks m (V_map env) -> disjoint_masks m (Ri_map env) ->
      disjoint_masks m (I_map env) ->
      select m (map value (netlist (self s2)))
      = select m (map value (netlist (self s1))).
Proof.
  intros H Hlen HVR HVI HRI.
  apply update_netlist_done in H as (p & Hp & HV & HRi & ->).
  cbn [self netlist set_netlist]. unfold updated_netlist.
  set (nl := netlist (self s1)) in *.
  assert (L1 : length (loc_fill (V_map env) nl temp_ocv) = length nl)
    by (symmetry; apply (same_topology_fields _ _ (loc_fill_topology _ _ _))).
  assert (L2 : length (loc_fill (Ri_map env)
                         (loc_fill (V_map env) nl temp_ocv) temp_Ri)
               = length nl)
    by (rewrite <- L1; symmetry;
        apply (same_topology_fields _ _ (loc_fill_topology _ _ _))).
  pose proof (Forall2_length HVR) as LR.
  pose proof (Forall2_length HVI) as LI.
  exists p. split; trivial. split; [|split; [|split]].
  - rewrite select_loc_set_scalar_disjoint, select_loc_fill_disjoint by trivial.
    now apply select_loc_fill.
  - rewrite select_loc_set_scalar_disjoint by trivial.
    apply select_loc_fill; trivial. congruence.
  - apply select_loc_set_scalar. congruence.
  - intros m H1 H2 H3.
    now rewrite select_loc_set_scalar_disjoint, !select_loc_fill_disjoint.
Qed.

Lemma topology_stable (netlist0 : netlist_t) :
  loop_stable (topology_of netlist0 : state -> Prop).
Proof.
  split; unfold topology_of; intros s v Hs; cbn; trivial.
  intros Hv. eapply same_topology_trans; eauto.
Qed.

Lemma inv_split_models_topology netlist0 kind Nspm nproc htc0 :
  inv (topology_of netlist0)
      (split_models kind Nspm nproc htc0 : M CellSol CasadiObjs unit).
Proof. unfold topology_of. destruct kind; simpl; inv_auto. Qed.

Lemma inv_setup_actors_topology netlist0 kind sim_func parameter_values nproc
    I_init htc_init initial_soc :
  inv (topology_of netlist0)
      (setup_actors cco kind sim_func parameter_values nproc I_init htc_init
                    initial_soc : M CellSol CasadiObjs unit).
Proof.
  unfold topology_of.
  destruct kind; simpl; unfold setup_remote_actors, logger; inv_auto.
Qed.

Lemma inv_cleanup_topology netlist0 kind :
  inv (topology_of netlist0) (cleanup kind : M CellSol CasadiObjs unit).
Proof. unfold topology_of. destruct kind; simpl; unfold logger; inv_auto. Qed.


End NetlistFacts.

Lemma resistance_written_witness :
  exists f s' temp_ocv temp_v i_app,
    Bench.first_iteration = Done f s' /\
    plane_row (output (self s')) 1 0 = Some temp_ocv /\
    plane_row (output (self s')) 0 0 = Some temp_v /\
    nth_error (shm_i_app (self s')) 0 = Some i_app /\
    select (Ri_map Bench.env) (map value (netlist (self s')))
    = derive_Ri temp_ocv temp_v i_app.
Proof.
  destruct Bench.first_iteration as [f s'|e s'] eqn:E;
    [|vm_compute in E; discriminate].
  exists f, s'.
  destruct (resistance_written _ _ _ _ _ _ _ _ _ _ _ E)
    as (temp_ocv & temp_v & i_app & H1 & H2 & H3 & H4 & _).
  - reflexivity.
  - repeat constructor.
  - exists temp_ocv, temp_v, i_app. repeat split; trivial.
Defined.

(** ** Workers and teardown *)

Section Pool.

Context {CellSol CasadiObjs SimFunc : Type}.
Variable cco :
  option SimFunc -> parameter_values_t -> float -> float -> float ->
  float -> nat -> nat -> list string -> bool -> CasadiObjs.
Variable event_names_of : CasadiObjs -> list string.
Variables ss ms :
  CasadiObjs -> list (option CellSol) -> list cell_input ->
  option (list (option CellSol) * matrix * matrix).
Variable circuit : netlist_t -> list float * list float.

Local Notation state := (state CellSol CasadiObjs).

Lemma pool_stable (s0 : state) (k : nat) : loop_stable (pool_as s0 k).
Proof.
  split; unfold pool_as; intros s v (H1 & H2 & H3); cbn; auto.
  intros Hv. repeat split; congruence.
Qed.

Lemma res_mapM_length {A B} (f : A -> res B) l l' :
  res_mapM f l = Ok l' -> length l' = length l.
Proof.
  revert l'. induction l as [|x l IH]; intros l'; simpl.
  - intros H. now inversion H.
  - destruct (f x); simpl; try discriminate.
    destruct (res_mapM f l) eqn:E; simpl; try discriminate.
    intros H. inversion H. simpl. now rewrite (IH _ eq_refl).
Qed.

Lemma split_models_done kind Nspm nproc htc0 (s s' : state) :
  split_models kind Nspm nproc htc0 s = Done tt s' ->
  world s' = world s /\
  netlist (self s') = netlist (self s) /\
  dt (self s') = dt (self s) /\
  variable_names (self s') = variable_names (self s) /\
  shm_i_app (self s') = shm_i_app (self s) /\
  output (self s') = output (self s) /\
  timestep (self s') = timestep (self s).
Proof.
  destruct kind; simpl; intros H; done_all H; cbn; repeat split.
Qed.

Lemma setup_actors_done kind sim_func parameter_values nproc I_init htc_init
    initial_soc (s s' : state) :
  setup_actors cco kind sim_func parameter_values nproc I_init htc_init
               initial_soc s = Done tt s' ->
  (live_workers (world s')
   = live_workers (world s) + (if is_remote kind then nproc else 0) /\
   (is_remote kind = true -> length (actors (self s')) = nproc)) /\
  netlist (self s') = netlist (self s) /\
  dt (self s') = dt (self s) /\
  variable_names (self s') = variable_names (self s) /\
  shm_i_app (self s') = shm_i_app (self s) /\
  output (self s') = output (self s) /\
  timestep (self s') = timestep (self s).
Proof.
  destruct kind; simpl; unfold setup_remote_actors, logger; intros H;
    done_all H.
  - repeat split. now rewrite Nat.add_0_r. discriminate.
  - cbn. repeat split. intros _.
    rewrite (res_mapM_length _ _ _ E), length_seq. reflexivity.
  - destruct (spm_per_worker (self s)); done_all H; cbn; repeat split;
      try discriminate; now rewrite Nat.add_0_r.
  - cbn. repeat split. intros _.
    rewrite (res_mapM_length _ _ _ E), length_seq. reflexivity.
Qed.

(** What [initialize] has set up when it returns. *)
Lemma initialize_done kind netlist0 sim_func parameter_values experiment htc0
    output_variables initial_soc nproc (s s0 : state) env l0 :
  initialize cco circuit kind netlist0 sim_func parameter_values experiment
             htc0 output_variables initial_soc nproc s = Done (env, l0) s0 ->
  let N := length (protocol experiment) in
  let Nspm := count_true (desc_map "V" netlist0) in
  (protocol_ env = protocol experiment /\
   Ri_map env = desc_map "Ri" netlist0 /\
   V_map env = desc_map "V" netlist0 /\
   I_map env = desc_map "I" netlist0 /\
   end_time env = (period experiment * float_of_nat N)%float /\
   param_get "Lower voltage cut-off [V]" parameter_values
   = Ok (v_cut_lower env) /\
   param_get "Upper voltage cut-off [V]" parameter_values
   = Ok (v_cut_higher env)) /\
  l0 = {| time := 0; V_terminal := []; record_times := [];
          V_node := fst (circuit netlist0); I_batt := snd (circuit netlist0);
          step := None |} /\
  netlist (self s0) = netlist0 /\
  dt (self s0) = period experiment /\
  variable_names (self s0) = solve_variable_names output_variables /\
  set_row 0 (map (fun x => (x * -1)%float) (snd (circuit netlist0)))
          (np.zeros2 N Nspm) = Ok (shm_i_app (self s0)) /\
  output (self s0)
  = np.zeros3 (length (solve_variable_names output_variables)) N Nspm /\
  timestep (self s0) = 0 /\
  live_workers (world s0)
  = live_workers (world s) + (if is_remote kind then nproc else 0) /\
  (is_remote kind = true -> length (actors (self s0)) = nproc).
Proof.
  unfold initialize, logger. intros H. done_all H.
  apply split_models_done in H0 as (W0 & N0 & D0 & V0 & S0 & O0 & T0).
  apply setup_actors_done in H1 as ((L1 & A1) & N1 & D1 & V1 & S1 & O1 & T1).
  cbn [self world netlist dt variable_names shm_i_app output timestep
       set_netlist set_dt set_variable_names set_shm_i_app set_output
       set_timestep live_workers logged set_logged runtime_up
       protocol_ Ri_map V_map I_map end_time v_cut_lower v_cut_higher] in *.
  rewrite N0 in *. rewrite W0 in L1.
  match goal with
  | E : (_, _) = (_, _) |- _ => inversion E; subst; clear E
  end.
  repeat split; trivial; try congruence.
Qed.

Lemma for_each_kill {A} (acts : list A) (s s' : state) :
  for_each acts
    (fun _ => modify_world
                (fun w => set_live_workers (live_workers w - 1) w)) s
  = Done tt s' ->
  self s' = self s /\
  live_workers (world s') = live_workers (world s) - length acts /\
  runtime_up (world s') = runtime_up (world s).
Proof.
  revert s. induction acts as [|a acts IH]; intros s H; simpl in H;
    done_all H.
  - repeat split. now rewrite Nat.sub_0_r.
  - apply IH in H as (H1 & H2 & H3). cbn in *. split; trivial.
    split; trivial. lia.
Qed.

Lemma cleanup_done kind (s s' : state) :
  cleanup kind s = Done tt s' ->
  self s' = self s /\
  live_workers (world s')
  = live_workers (world s)
    - (if is_remote kind then length (actors (self s)) else 0) /\
  (is_remote kind = true -> runtime_up (world s') = false).
Proof.
  destruct kind; simpl; unfold logger; intros H; done_all H.
  - repeat split; [now rewrite Nat.sub_0_r|discriminate].
  - apply for_each_kill in H0 as (H1 & H2 & H3). cbn.
    rewrite H1, H2. repeat split.
  - repeat split; [now rewrite Nat.sub_0_r|discriminate].
  - cbn. repeat split.
Qed.

Lemma collect_outputs_done env l r (s s' : state) :
  collect_outputs env l s = Done r s' -> s' = s.
Proof. unfold collect_outputs. intros H. done_all H. reflexivity. Qed.


End Pool.

(** A ray manager in a process whose runtime [__init__] has started. *)
Lemma ray_manager_started :
  manager_init ray_manager Bench.fresh
  = Done tt
      {| self := self Bench.fresh;
         world := {| logged := [Notice "Ray initialization started";
                                Notice "Ray initialization complete"];
                     live_workers := 0;
                     runtime_up := true |} |}.
Proof. reflexivity. Qed.


(** ** The applied current of every step *)

Lemma bench_initialized :
  initialize Bench.cco Bench.circuit casadi_manager Bench.pack None
    Bench.parameters (mk_experiment 1 [2; 2; 2]%float) Bench.coefficients
    None 1 1 Bench.fresh
  = Done (Bench.env, Bench.start) Bench.ready.
Proof. vm_compute. reflexivity. Qed.

Section AppliedCurrent.

Context {CellSol CasadiObjs SimFunc : Type}.
Variable cco :
  option SimFunc -> parameter_values_t -> float -> float -> float ->
  float -> nat -> nat -> list string -> bool -> CasadiObjs.
Variable event_names_of : CasadiObjs -> list string.
Variables ss ms :
  CasadiObjs -> list (option CellSol) -> list cell_input ->
  option (list (option CellSol) * matrix * matrix).
Variable circuit : netlist_t -> list float * list float.

Local Notation state := (state CellSol CasadiObjs).
Local Notation body kind env :=
  (loop_body event_names_of ss ms circuit kind env).

Lemma loop_head_succ kind env n l (s : state) l' s' :
  loop_head (body kind env) (S n) l s = Some (l', s') ->
  exists l1 s1,
    loop_head (body kind env) n l s = Some (l1, s1) /\
    body kind env n (bind_step n l1) s1 = Done (Next l') s'.
Proof.
  simpl. destruct (loop_head (body kind env) n l s) as [[l1 s1]|];
    [|discriminate].
  destruct (body kind env n (bind_step n l1) s1) as [[l2|l2] s2|] eqn:E;
    try discriminate.
  intros H. inversion H. subst. exists l1, s1. split; trivial.
Qed.

(** The heads are the states the loop goes through. *)
Lemma run_loop_from_head kind env N n l (s : state) l' s' :
  n <= N ->
  loop_head (body kind env) n l s = Some (l', s') ->
  run_loop event_names_of ss ms circuit kind env (seq 0 N) l s
  = run_loop event_names_of ss ms circuit kind env (seq n (N - n)) l' s'.
Proof.
  revert l' s'. induction n as [|n IH]; intros l' s' Hn H.
  - simpl in H. inversion H. now rewrite Nat.sub_0_r.
  - apply loop_head_succ in H as (l1 & s1 & H1 & H2).
    rewrite (IH l1 s1) by (trivial; lia).
    replace (N - n) with (S (N - S n)) by lia.
    cbn [seq run_loop]. unfold bind at 1. now rewrite H2.
Qed.

Lemma next_means_no_cutoff env temp_v l1 l' :
  Next l' = (if cutoff_reached env temp_v then Break l1 else Next l1) ->
  cutoff_reached env temp_v = false /\ l' = l1.
Proof.
  destruct (cutoff_reached env temp_v); [discriminate|].
  intros H. inversion H. auto.
Qed.

Lemma head_invariant kind netlist0 sim_func parameter_values experiment htc0
    output_variables initial_soc nproc (s s0 : state) env l0 :
  initialize cco circuit kind netlist0 sim_func parameter_values experiment
             htc0 output_variables initial_soc nproc s = Done (env, l0) s0 ->
  forall n l s',
    loop_head (body kind env) n l0 s0 = Some (l, s') ->
    (forall k, 1 <= k <= n ->
       (clock (period experiment) k <? end_time env)%float = true) ->
    timestep (self s') = n /\
    dt (self s') = period experiment /\
    time l = clock (period experiment) n /\
    I_batt l = snd (circuit (netlist (self s'))) /\
    exists row,
      nth_error (shm_i_app (self s')) n = Some row /\
      np.broadcast_to (length row) (map (fun x => (x * -1)%float) (I_batt l))
      = Ok row.
Proof.
  intros Hinit.
  apply initialize_done in Hinit
    as (_ & -> & Hnl & Hdt & _ & Hrow & _ & Hts & _).
  induction n as [|n IH]; intros l s' Hhead Hclock.
  - simpl in Hhead. injection Hhead as <- <-. cbn [time I_batt].
    rewrite Hnl. repeat split; trivial.
    apply set_row_ok in Hrow as (v' & Hb & _ & Hnth).
    exists v'. now rewrite Hnth.
  - apply loop_head_succ in Hhead as (l1 & s1 & H1 & H2).
    destruct (IH l1 s1 H1) as (Its & Idt & Itime & Ibatt & _);
      [intros k Hk; apply Hclock; lia|].
    apply loop_body_done in H2
      as (sB & temp_v & temp_ocv & i_app & p & l2 & _ & _ & _ & _ & _ & _ & _
          & (Hres & Hst & Hnl') & _ & _ & Hdt' & _ & _ & _ & _ & _ & _ & Hf
          & Hts').
    apply next_means_no_cutoff in Hf as [Hcut ->]. rewrite Hcut in Hts'.
    cbn [time bind_step] in Hres. rewrite Itime, Idt in Hres.
    change (clock (period experiment) n + period experiment)%float
      with (clock (period experiment) (S n)) in Hres.
    assert (Hlt : (clock (period experiment) (S n) <? end_time env)%float
                  = true) by (apply Hclock; lia).
    unfold resolved in Hres. rewrite (float_ltb_leb _ _ Hlt) in Hres.
    destruct Hres as (vt & _ & ->).
    unfold stored in Hst. cbn [time I_batt] in *. rewrite Hlt in Hst.
    apply set_row_ok in Hst as (v' & Hb & _ & Hnth).
    rewrite Hts', Its, Hdt', Idt, Hnl'. repeat split; try lia.
    exists v'. rewrite Hnth. replace (n + 1) with (S n) by lia.
    now rewrite Nat.eqb_refl.
Qed.

(** C10. On entry to every step, the first one included, the row of the
    current buffer at that step, which is the row the workers are fed, is
    the battery currents that the circuit solver returns on the netlist as
    it stands, each multiplied by -1 (and spread over the row when the
    solver returns a single current).  The period is taken to keep the
    clock below the end time at the steps before. *)
Theorem applied_current_negates_branch_current (kind : manager_kind)
    (netlist0 : netlist_t) (sim_func : option SimFunc)
    (parameter_values : parameter_values_t) (experiment : experiment_t)
    (htc0 : list float) (output_variables : option (list string))
    (initial_soc : float) (nproc : nat) (s s0 : state) (env : loop_env)
    (l0 : locals) (n : nat) (l : locals) (s' : state) :
  initialize cco circuit kind netlist0 sim_func parameter_values experiment
             htc0 output_variables initial_soc nproc s = Done (env, l0) s0 ->
  loop_head (body kind env) n l0 s0 = Some (l, s') ->
  (forall k, 1 <= k <= n ->
     (clock (period experiment) k <? end_time env)%float = true) ->
  let I_batt := snd (circuit (netlist (self s'))) in
  exists row,
    nth_error (shm_i_app (self s')) n = Some row /\
    np.broadcast_to (length row) (map (fun x => (x * -1)%float) I_batt)
    = Ok row /\
    (length I_batt = length row ->
     row = map (fun x => (x * -1)%float) I_batt) /\
    forall index actor_indices,
      nth_error (split_index (self s')) index = Some actor_indices ->
      actor_i_app index s'
      = lift (res_mapM (fun i => get_nth i row) actor_indices) s'.
Proof.
  intros Hinit Hhead Hclock.
  destruct (head_invariant _ _ _ _ _ _ _ _ _ _ _ _ _ Hinit n l s' Hhead Hclock)
    as (Hts & _ & _ & Hbatt & row & Hrow & Hb).
  cbv zeta. rewrite <- Hbatt. exists row. repeat split; trivial.
  - intros Hlen. unfold np.broadcast_to in Hb.
    rewrite length_map, Hlen, Nat.eqb_refl in Hb. now inversion Hb.
  - intros index actor_indices Hidx.
    unfold actor_i_app, bind, get, lift at 1 2, get_nth at 1 2, of_option.
    rewrite Hidx. cbv [ret]. rewrite Hts. unfold matrix in *.
    rewrite Hrow. reflexivity.
Qed.

End AppliedCurrent.

Lemma applied_current_witness :
  exists l s' row,
    loop_head Bench.body 1 Bench.start Bench.ready = Some (l, s') /\
    nth_error (shm_i_app (self s')) 1 = Some row /\
    row = map (fun x => (x * -1)%float)
              (snd (Bench.circuit (netlist (self s')))).
Proof.
  destruct (loop_head Bench.body 1 Bench.start Bench.ready) as [[l s']|] eqn:E;
    [|vm_compute in E; discriminate].
  pose proof E as E'. vm_compute in E'. injection E' as <- <-.
  destruct (applied_current_negates_branch_current
              Bench.cco Bench.event_names_of (Bench.cell_step 0.25 3.1)
              (Bench.cell_step 0.25 3.1) Bench.circuit casadi_manager
              Bench.pack None Bench.parameters
              (mk_experiment 1 [2; 2; 2]%float) Bench.coefficients None 1 1
              Bench.fresh Bench.ready Bench.env Bench.start 1 _ _
              bench_initialized E)
    as (row & H1 & _ & H3 & _).
  - intros [|[|k]] Hk; try lia. reflexivity.
  - eexists _, _, row. split; [reflexivity|]. split; [exact H1|].
    apply H3. vm_compute in H1. injection H1 as <-. reflexivity.
Defined.

(** ** The result mapping *)

Lemma in_keys_dict_set {V} (k k' : string) (v : V) (d : list (string * V)) :
  In k' (keys (dict_set k v d)) <-> k' = k \/ In k' (keys d).
Proof.
  unfold keys. induction d as [|[k0 v0] d IH]; simpl.
  - intuition.
  - destruct (String.eqb_spec k k0) as [->|Hne]; simpl.
    + intuition.
    + rewrite IH. intuition.
Qed.

Lemma NoDup_keys_dict_set {V} (k : string) (v : V) (d : list (string * V)) :
  NoDup (keys d) -> NoDup (keys (dict_set k v d)).
Proof.
  induction d as [|[k0 v0] d IH]; simpl; intros H.
  - repeat constructor. intros [].
  - inversion H as [|? ? Hnotin Hnd]; subst.
    destruct (String.eqb_spec k k0) as [->|Hne]; simpl.
    + now constructor.
    + constructor; [|now apply IH].
      change (~ In k0 (keys (dict_set k v d))).
      rewrite in_keys_dict_set. intros [->|Hin]; [now apply Hne|].
      now apply Hnotin.
Qed.

Lemma dict_get_set_same {V} (k : string) (v : V) (d : list (string * V)) :
  dict_get k (dict_set k v d) = Some v.
Proof.
  induction d as [|[k0 v0] d IH]; simpl.
  - now rewrite String.eqb_refl.
  - destruct (String.eqb_spec k k0) as [->|Hne]; simpl.
    + now rewrite String.eqb_refl.
    + destruct (String.eqb_spec k k0); [contradiction|exact IH].
Qed.

Lemma dict_get_set_other {V} (k k' : string) (v : V) (d : list (string * V)) :
  k' <> k -> dict_get k' (dict_set k v d) = dict_get k' d.
Proof.
  intros Hne. induction d as [|[k0 v0] d IH]; simpl.
  - destruct (String.eqb_spec k' k); [contradiction|reflexivity].
  - destruct (String.eqb_spec k k0) as [->|Hne0]; simpl.
    + destruct (String.eqb_spec k' k0); [contradiction|reflexivity].
    + destruct (String.eqb_spec k' k0); [reflexivity|exact IH].
Qed.

Lemma existsb_eqb_in (k : string) (l : list string) :
  existsb (String.eqb k) l = true <-> In k l.
Proof.
  rewrite existsb_exists. split.
  - intros (x & Hin & Heq). apply String.eqb_eq in Heq. now subst.
  - intros Hin. exists k. split; trivial. apply String.eqb_refl.
Qed.

Lemma extend_names_spec (outs names : list string) :
  (NoDup names -> NoDup (extend_names names outs)) /\
  forall k, In k (extend_names names outs) <-> In k names \/ In k outs.
Proof.
  revert names. induction outs as [|out outs IH]; intros names; simpl.
  - split; [trivial|intuition].
  - destruct (existsb (String.eqb out) names) eqn:E.
    + apply existsb_eqb_in in E. destruct (IH names) as [H1 H2].
      split; trivial. intros k. rewrite H2. intuition. subst. now left.
    + assert (Hnot : ~ In out names)
        by (intros Hin; apply existsb_eqb_in in Hin; congruence).
      destruct (IH (names ++ [out])) as [H1 H2]. split.
      * intros Hnd. apply H1. apply NoDup_app; trivial.
        -- repeat constructor. intros [].
        -- intros a Ha [<-|[]]. now apply Hnot.
      * intros k. rewrite H2, in_app_iff. simpl. intuition.
Qed.

Lemma solve_variable_names_spec (output_variables : option (list string)) :
  NoDup (solve_variable_names output_variables) /\
  forall k,
    In k (solve_variable_names output_variables) <->
    In k default_variable_names \/
    exists outs, output_variables = Some outs /\ In k outs.
Proof.
  assert (Hd : NoDup default_variable_names).
  { repeat constructor; simpl; intuition discriminate. }
  destruct output_variables as [outs|]; simpl.
  - destruct (extend_names_spec outs default_variable_names) as [H1 H2].
    split; [auto|]. intros k. rewrite H2. split.
    + intros [H|H]; [now left|right; now exists outs].
    + intros [H|(o & Ho & H)]; [now left|right; congruence].
  - split; trivial. intros k. split; [now left|].
    intros [H|(o & Ho & _)]; [trivial|discriminate].
Qed.

(** What the loop over the variables adds to the result. *)
Lemma collect_variables_spec (names : list string) (out : list matrix)
    (step : nat) (js : list nat) (d r : result_t) :
  collect_variables js names out step d = Ok r ->
  (NoDup (keys d) -> NoDup (keys r)) /\
  (forall k, In k (keys r) <->
             In k (keys d) \/ exists j, In j js /\ nth_error names j = Some k) /\
  (forall k, (forall j, In j js -> nth_error names j <> Some k) ->
             dict_get k r = dict_get k d) /\
  (NoDup names -> NoDup js ->
   forall j name, In j js -> nth_error names j = Some name ->
     exists plane,
       nth_error out j = Some plane /\
       dict_get name r = Some (Series2 (firstn (step + 1) plane))).
Proof.
  revert d. induction js as [|j js IH]; intros d; simpl.
  - intros H. inversion H. subst. repeat split; trivial.
    + now left.
    + intros [H0|(j & [] & _)]. trivial.
    + intros _ _ j name [].
  - unfold get_nth, of_option.
    destruct (nth_error names j) as [name|] eqn:Ename; simpl;
      try discriminate.
    destruct (nth_error out j) as [plane|] eqn:Eplane; simpl;
      try discriminate.
    intros H. apply IH in H as (H1 & H2 & H3 & H4). repeat split.
    + intros Hnd. now apply H1, NoDup_keys_dict_set.
    + rewrite H2, in_keys_dict_set.
      intros [[->|Hin]|(j' & Hj' & Hn)].
      * right. exists j. auto.
      * now left.
      * right. exists j'. auto.
    + rewrite H2, in_keys_dict_set.
      intros [Hin|(j' & [<-|Hj'] & Hn)].
      * left. now right.
      * left. left. congruence.
      * right. exists j'. auto.
    + intros k Hk. rewrite H3 by (intros j' Hj'; apply Hk; now right).
      apply dict_get_set_other. intros ->. apply (Hk j); [now left|trivial].
    + intros Hnames Hjs j' name' [<-|Hj'] Hn.
      * rewrite Ename in Hn. injection Hn as <-. exists plane.
        split; trivial. inversion Hjs as [|? ? Hnotin Hjs']; subst.
        rewrite H3; [apply dict_get_set_same|].
        intros j' Hj' E'. apply Hnotin.
        rewrite NoDup_nth_error in Hnames.
        assert (j' = j); [|now subst].
        apply Hnames; [|congruence].
        apply nth_error_Some. congruence.
      * inversion Hjs as [|? ? Hnotin Hjs']; subst. now apply H4.
Qed.

Section Result.

Context {CellSol CasadiObjs SimFunc : Type}.
Variable cco :
  option SimFunc -> parameter_values_t -> float -> float -> float ->
  float -> nat -> nat -> list string -> bool -> CasadiObjs.
Variable event_names_of : CasadiObjs -> list string.
Variables ss ms :
  CasadiObjs -> list (option CellSol) -> list cell_input ->
  option (list (option CellSol) * matrix * matrix).
Variable circuit : netlist_t -> list float * list float.

Local Notation state := (state CellSol CasadiObjs).

Lemma names_stable (names : list string) :
  loop_stable (names_are names : state -> Prop).
Proof. split; unfold names_are; intros s v Hs; cbn; trivial. Qed.

Lemma collect_outputs_result env l r (s s' : state) :
  collect_outputs env l s = Done r s' ->
  s' = s /\
  exists k,
    step l = Some k /\
    collect_variables (seq 0 (length (variable_names (self s))))
      (variable_names (self s)) (output (self s)) k
      [("Time [s]"%string, Series1 (record_times l));
       ("Pack current [A]"%string, Series1 (firstn (k + 1) (protocol_ env)));
       ("Pack terminal voltage [V]"%string, Series1 (V_terminal l));
       ("Cell current [A]"%string,
        Series2 (firstn (k + 1) (shm_i_app (self s))))]
    = Ok r.
Proof.
  unfold collect_outputs. intros H. done_all H. split; trivial.
  destruct (step l) as [k|]; [|discriminate].
  exists k. split; trivial. simpl in E. injection E as <-. exact E0.
Qed.

(** What [solve] has done when it returns: the loop ran from the state that
    [initialize] left, and the result was collected after [cleanup]. *)
Lemma solve_done kind netlist0 sim_func parameter_values experiment htc0
    output_variables initial_soc nproc (s s' : state) r :
  solve cco event_names_of ss ms circuit kind netlist0 sim_func
        parameter_values experiment htc0 output_variables initial_soc nproc s
  = Done r s' ->
  exists env l0 s0 l s1 s2,
    initialize cco circuit kind netlist0 sim_func parameter_values experiment
               htc0 output_variables initial_soc nproc s
    = Done (env, l0) s0 /\
    run_loop event_names_of ss ms circuit kind env
             (seq 0 (length (protocol experiment))) l0 s0 = Done l s1 /\
    cleanup kind
      (mk_state (self s1)
         (set_logged (logged (world s1) ++ [Notice "Step solve finished"])
                     (world s1))) = Done tt s2 /\
    collect_outputs env l s2 = Done r s'.
Proof.
  unfold solve, finalize, logger. intros H. done_all H.
  destruct a as [env l0]. cbn [fst snd] in *.
  repeat eexists; eassumption.
Qed.

(** C8, as the code has it. The result of [solve] has no key twice; its
    keys are the four fixed ones, the two variables that [solve] always asks
    of the cell models, and the requested output variables. Every variable
    maps to its plane of the output buffer cut after the last step run, a
    step-by-cell array, and so does the cell current unless a variable of
    that name replaced it; the time, the pack current and the pack terminal
    voltage are one-dimensional. *)
Theorem result_mapping_keys (kind : manager_kind) (netlist0 : netlist_t)
    (sim_func : option SimFunc) (parameter_values : parameter_values_t)
    (experiment : experiment_t) (htc0 : list float)
    (output_variables : option (list string)) (initial_soc : float)
    (nproc : nat) (s s' : state) (r : result_t) :
  solve cco event_names_of ss ms circuit kind netlist0 sim_func
        parameter_values experiment htc0 output_variables initial_soc nproc s
  = Done r s' ->
  let names := solve_variable_names output_variables in
  NoDup (keys r) /\
  (forall k, In k (keys r) <->
     In k fixed_keys \/ In k default_variable_names \/
     exists outs, output_variables = Some outs /\ In k outs) /\
  exists last,
    (forall j name, nth_error names j = Some name ->
       exists plane,
         nth_error (output (self s')) j = Some plane /\
         dict_get name r = Some (Series2 (firstn (last + 1) plane))) /\
    (~ In "Cell current [A]"%string names ->
     dict_get "Cell current [A]" r
     = Some (Series2 (firstn (last + 1) (shm_i_app (self s'))))) /\
    (~ In "Pack current [A]"%string names ->
     dict_get "Pack current [A]" r
     = Some (Series1 (firstn (last + 1) (protocol experiment)))) /\
    (~ In "Time [s]"%string names ->
     exists t, dict_get "Time [s]" r = Some (Series1 t)) /\
    (~ In "Pack terminal voltage [V]"%string names ->
     exists v, dict_get "Pack terminal voltage [V]" r = Some (Series1 v)).
Proof.
  intros H. cbv zeta.
  apply solve_done in H
    as (env & l0 & s0 & l & s1 & s2 & Hinit & Hloop & Hclean & Hcollect).
  apply initialize_done in Hinit
    as ((Hprot & _) & _ & _ & _ & Hnames & _).
  pose proof (inv_run_loop_stable event_names_of ss ms circuit _ kind env
                (seq 0 (length (protocol experiment))) l0
                (names_stable (solve_variable_names output_variables))
                s0 Hnames) as P.
  rewrite Hloop in P. unfold names_are in P.
  apply cleanup_done in Hclean as (C1 & _). cbn [self] in C1.
  apply collect_outputs_result in Hcollect as (-> & last & _ & Hcv).
  rewrite C1, P, Hprot in Hcv.
  destruct (solve_variable_names_spec output_variables) as [Hnd Hin].
  apply collect_variables_spec in Hcv as (K1 & K2 & K3 & K4).
  assert (Hjs : forall k,
             (exists j, In j (seq 0 (length (solve_variable_names
                                               output_variables))) /\
                        nth_error (solve_variable_names output_variables) j
                        = Some k)
             <-> In k (solve_variable_names output_variables)).
  { intros k. split.
    - intros (j & _ & Hj). eapply nth_error_In, Hj.
    - intros Hk. apply In_nth_error in Hk as (j & Hj). exists j.
      split; trivial. apply in_seq. split; [lia|].
      simpl. apply nth_error_Some. congruence. }
  assert (Hfree : forall k,
             ~ In k (solve_variable_names output_variables) ->
             forall j, In j (seq 0 (length (solve_variable_names
                                              output_variables))) ->
                       nth_error (solve_variable_names output_variables) j
                       <> Some k).
  { intros k Hk j Hj E. apply Hk. eapply nth_error_In, E. }
  split; [|split].
  - apply K1. repeat constructor; simpl; intuition discriminate.
  - intros k. rewrite K2, Hjs, Hin. unfold fixed_keys. simpl. tauto.
  - exists last. rewrite C1. split; [|split; [|split; [|split]]].
    + intros j name Hj. apply (K4 Hnd (seq_NoDup _ _) j name); trivial.
      apply in_seq. split; [lia|]. simpl. apply nth_error_Some. congruence.
    + intros Hk. rewrite (K3 _ (Hfree _ Hk)). reflexivity.
    + intros Hk. rewrite (K3 _ (Hfree _ Hk)). reflexivity.
    + intros Hk. rewrite (K3 _ (Hfree _ Hk)). eexists. reflexivity.
    + intros Hk. rewrite (K3 _ (Hfree _ Hk)). eexists. reflexivity.
Qed.

End Result.


(** C8 fails as stated: on a solve that requests no output variable the
    result still holds the two variables [solve] itself asks for. *)
Lemma result_has_unrequested_keys :
  exists r s',
    Bench.run (Bench.cell_step 0.25 3.1) casadi_manager 1 3 1 Bench.fresh
    = Done r s' /\
    keys r = ["Time [s]"; "Pack current [A]"; "Pack terminal voltage [V]";
              "Cell current [A]"; "Terminal voltage [V]";
              "Measured battery open circuit voltage [V]"]%string.
Proof.
  destruct (Bench.run (Bench.cell_step 0.25 3.1) casadi_manager 1 3 1
              Bench.fresh) as [r s'|e s'] eqn:E;
    [|vm_compute in E; discriminate].
  exists r, s'. split; [reflexivity|].
  vm_compute in E. injection E as <- _. reflexivity.
Qed.

Lemma result_mapping_keys_witness :
  exists r s',
    Bench.run (Bench.cell_step 0.25 3.1) casadi_manager 1 3 1 Bench.fresh
    = Done r s' /\
    NoDup (keys r) /\
    forall k, In k (keys r) <->
      In k fixed_keys \/ In k default_variable_names \/
      exists outs, @None (list string) = Some outs /\ In k outs.
Proof.
  destruct (Bench.run (Bench.cell_step 0.25 3.1) casadi_manager 1 3 1
              Bench.fresh) as [r s'|e s'] eqn:E;
    [|vm_compute in E; discriminate].
  exists r, s'. split; [reflexivity|].
  destruct (result_mapping_keys _ _ _ _ _ _ _ _ _ _ _ _ _ _ _ _ _ E)
    as (H1 & H2 & _).
  split; assumption.
Defined.

(** ** A relational logic for two runs *)

Section Relational.

Context {CellSol CasadiObjs : Type}.

Local Notation state := (state CellSol CasadiObjs).
Local Notation M := (M CellSol CasadiObjs).
Local Notation actor := (generic_actor CellSol CasadiObjs).

Lemma rt_ret {A} (R : state -> state -> Prop) (a : A) :
  rtriple R (ret a) (ret a) eq R.
Proof. intros s1 s2 HR. simpl. auto. Qed.

Lemma rt_raise {A B} (R R' : state -> state -> Prop) (e : exn)
    (Q : A -> B -> Prop) :
  rtriple R (raise e) (raise e) Q R'.
Proof. intros s1 s2 HR. reflexivity. Qed.

Lemma rt_bind {A B A' B'} (R R1 R2 : state -> state -> Prop)
    (c1 : M A) (c2 : M B) (k1 : A -> M A') (k2 : B -> M B')
    (Q1 : A -> B -> Prop) (Q : A' -> B' -> Prop) :
  rtriple R c1 c2 Q1 R1 ->
  (forall a b, Q1 a b -> rtriple R1 (k1 a) (k2 b) Q R2) ->
  rtriple R (bind c1 k1) (bind c2 k2) Q R2.
Proof.
  intros Hc Hk s1 s2 HR. unfold bind. specialize (Hc s1 s2 HR).
  destruct (c1 s1) as [a s1'|e1 s1'], (c2 s2) as [b s2'|e2 s2']; trivial;
    try contradiction.
  destruct Hc as [HQ HR1]. now apply Hk.
Qed.

Lemma rt_bind_eq {A A' B'} (R R1 R2 : state -> state -> Prop)
    (c1 c2 : M A) (k1 : A -> M A') (k2 : A -> M B') (Q : A' -> B' -> Prop) :
  rtriple R c1 c2 eq R1 ->
  (forall a, rtriple R1 (k1 a) (k2 a) Q R2) ->
  rtriple R (bind c1 k1) (bind c2 k2) Q R2.
Proof. intros Hc Hk. eapply rt_bind; [exact Hc|]. intros a ? <-. apply Hk. Qed.

Lemma rt_weaken {A B} (R R1 R1' : state -> state -> Prop)
    (c1 : M A) (c2 : M B) (Q : A -> B -> Prop) :
  rtriple R c1 c2 Q R1' ->
  (forall s1 s2, R1' s1 s2 -> R1 s1 s2) ->
  rtriple R c1 c2 Q R1.
Proof.
  intros H H1 s1 s2 HR. specialize (H s1 s2 HR).
  destruct (c1 s1), (c2 s2); trivial. destruct H. split; auto.
Qed.

Lemma rt_lift {A} (R : state -> state -> Prop) (r : res A) :
  rtriple R (lift r) (lift r) eq R.
Proof. intros s1 s2 HR. destruct r; simpl; auto. Qed.

Lemma rt_lift_rel {A B} (R : state -> state -> Prop) (r1 : res A)
    (r2 : res B) (Q : A -> B -> Prop) :
  match r1, r2 with
  | Ok a, Ok b => Q a b
  | Err e1, Err e2 => e1 = e2
  | _, _ => False
  end ->
  rtriple R (lift r1) (lift r2) Q R.
Proof. intros H s1 s2 HR. destruct r1, r2; simpl; auto. Qed.

Lemma rt_get {A} (R : state -> state -> Prop)
    (f : manager CellSol CasadiObjs -> A) (Q : A -> A -> Prop) :
  (forall s1 s2, R s1 s2 -> Q (f (self s1)) (f (self s2))) ->
  rtriple R (get f) (get f) Q R.
Proof. intros H s1 s2 HR. simpl. auto. Qed.

Lemma rt_get_eq {A} (R : state -> state -> Prop)
    (f : manager CellSol CasadiObjs -> A) :
  (forall s1 s2, R s1 s2 -> f (self s1) = f (self s2)) ->
  rtriple R (get f) (get f) eq R.
Proof. apply rt_get. Qed.

Lemma rt_modify (R R' : state -> state -> Prop) f1 f2 :
  (forall s1 s2, R s1 s2 ->
     R' (mk_state (f1 (self s1)) (world s1))
        (mk_state (f2 (self s2)) (world s2))) ->
  rtriple R (modify f1) (modify f2) eq R'.
Proof. intros H s1 s2 HR. simpl. auto. Qed.

Lemma rt_modify_keep (R : state -> state -> Prop) f1 f2 :
  (forall s1 s2, R s1 s2 ->
     R (mk_state (f1 (self s1)) (world s1))
       (mk_state (f2 (self s2)) (world s2))) ->
  rtriple R (modify f1) (modify f2) eq R.
Proof. apply rt_modify. Qed.

Lemma rt_modify_world (R : state -> state -> Prop) f1 f2 :
  world_blind R -> rtriple R (modify_world f1) (modify_world f2) eq R.
Proof. intros H s1 s2 HR. simpl. split; trivial. now apply H. Qed.

Lemma rt_logger (R : state -> state -> Prop) e1 e2 :
  world_blind R -> rtriple R (logger e1) (logger e2) eq R.
Proof. apply rt_modify_world. Qed.

Lemma rt_for_each {A} (R : state -> state -> Prop) (l : list A)
    (b1 b2 : A -> M unit) :
  (forall x, rtriple R (b1 x) (b2 x) eq R) ->
  rtriple R (for_each l b1) (for_each l b2) eq R.
Proof.
  intros H. induction l as [|x l IH]; simpl; [apply rt_ret|].
  eapply rt_bind; [apply H|]. intros _ _ _. exact IH.
Qed.

Lemma rt_log_events (R : state -> state -> Prop)
    (event_names_of : CasadiObjs -> list string) (a : actor) :
  world_blind R ->
  rtriple R (log_events event_names_of a) (log_events event_names_of a) eq R.
Proof.
  intros HR. unfold log_events.
  eapply rt_bind; [now apply rt_logger|intros _ _ _].
  eapply rt_bind; [apply rt_lift|intros ec ? <-].
  apply rt_for_each. intros r. unfold log_event_row.
  eapply rt_bind; [apply rt_lift|intros row ? <-].
  destruct (np_any row); [|apply rt_ret].
  eapply rt_bind; [apply rt_lift|intros name ? <-].
  now apply rt_logger.
Qed.

(** Work that only writes to the logger or the workers, and always returns,
    leaves related states related. *)
Lemma rt_world_only (R : state -> state -> Prop) (c1 c2 : M unit) :
  world_blind R ->
  (forall s, exists w, c1 s = Done tt (mk_state (self s) w)) ->
  (forall s, exists w, c2 s = Done tt (mk_state (self s) w)) ->
  rtriple R c1 c2 eq R.
Proof.
  intros HR H1 H2 s1 s2 Hs.
  destruct (H1 s1) as [w1 ->], (H2 s2) as [w2 ->]. split; trivial.
  now apply HR.
Qed.

Lemma for_each_world {A} (l : list A) (f : process -> process) (s : state) :
  exists w,
    for_each l (fun _ => modify_world f) s = Done tt (mk_state (self s) w).
Proof.
  revert s. induction l as [|x l IH]; intros [m w]; simpl.
  - eexists. reflexivity.
  - unfold bind, modify_world. cbn [self world]. apply (IH (mk_state m _)).
Qed.

(** [cleanup] always returns and leaves the manager as it is. *)
Lemma cleanup_returns (kind : manager_kind) (s : state) :
  exists w, cleanup kind s = Done tt (mk_state (self s) w).
Proof.
  destruct s as [m w]. destruct kind; simpl; try (eexists; reflexivity).
  unfold bind, get. cbn [self world].
  destruct (for_each_world (actors m) (fun w => set_live_workers (live_workers w - 1) w)
              (mk_state m w)) as [w' ->].
  eexists. reflexivity.
Qed.

Lemma agree_world_blind (RA : actor -> actor -> Prop) (P : fields) :
  world_blind (agree RA P).
Proof. intros s1 s2 w1 w2 H. exact H. Qed.

Lemma agree_weaken (RA : actor -> actor -> Prop) (P P' : fields)
    (s1 s2 : state) :
  (forall f, P' f = true -> P f = true) ->
  agree RA P s1 s2 -> agree RA P' s1 s2.
Proof. unfold agree. intros H. intuition. Qed.

Lemma rt_get_actors (RA : actor -> actor -> Prop) (P : fields) :
  P F_actors = true ->
  rtriple (agree RA P) (get (@actors _ _)) (get (@actors _ _)) (Forall2 RA)
          (agree RA P).
Proof. intros HP. apply rt_get. intros s1 s2 H. now apply H. Qed.

End Relational.
(** ** Two runs in lockstep *)

Ltac agree_solve :=
  let H := fresh "H" in
  intros ? ? H; unfold agree, add_field, no_field, loop_fields in *;
  cbn in *; intuition (auto; congruence).

Ltac rt_add F :=
  lazymatch goal with
  | |- rtriple (agree ?RA ?P) _ _ _ _ =>
      apply rt_modify with (R' := agree RA (add_field F P));
      solve [agree_solve]
  end.

Ltac rt_leaf :=
  lazymatch goal with
  | |- rtriple _ (ret _) _ _ _ => apply rt_ret
  | |- rtriple _ (raise _) _ _ _ => apply rt_raise
  | |- rtriple _ (lift _) _ _ _ => apply rt_lift
  | |- rtriple _ (logger _) _ _ _ => apply rt_logger; apply agree_world_blind
  | |- rtriple _ (modify_world _) _ _ _ =>
      apply rt_modify_world; apply agree_world_blind
  | |- rtriple _ (get _) _ _ _ => apply rt_get_eq; solve [agree_solve]
  | |- rtriple _ (modify _) _ _ _ => apply rt_modify_keep; solve [agree_solve]
  end.

Ltac rt_step :=
  lazymatch goal with
  | |- rtriple _ (bind _ _) _ _ _ => eapply rt_bind_eq; [|intros ?]
  | |- rtriple _ (if ?b then _ else _) _ _ _ => destruct b
  | |- rtriple _ (match ?x with _ => _ end) _ _ _ => destruct x
  | _ => rt_leaf
  end.

Ltac rt_auto := repeat rt_step.

(** An assignment to an attribute makes the two states agree on it. *)
Ltac rt_assign :=
  lazymatch goal with
  | |- rtriple _ (modify (set_netlist _)) _ _ _ => rt_add F_netlist
  | |- rtriple _ (modify (set_dt _)) _ _ _ => rt_add F_dt
  | |- rtriple _ (modify (set_variable_names _)) _ _ _ =>
      rt_add F_variable_names
  | |- rtriple _ (modify (set_shm_i_app _)) _ _ _ => rt_add F_shm_i_app
  | |- rtriple _ (modify (set_output _)) _ _ _ => rt_add F_output
  | |- rtriple _ (modify (set_timestep _)) _ _ _ => rt_add F_timestep
  | |- rtriple _ (modify (set_htc _)) _ _ _ => rt_add F_htc
  | |- rtriple _ (modify (set_split_index _)) _ _ _ => rt_add F_split_index
  | |- rtriple _ (modify (set_spm_per_worker _)) _ _ _ =>
      rt_add F_spm_per_worker
  end.

Section Lockstep.

Context {CellSol CasadiObjs SimFunc : Type}.
Variable cco :
  option SimFunc -> parameter_values_t -> float -> float -> float ->
  float -> nat -> nat -> list string -> bool -> CasadiObjs.
Variable event_names_of : CasadiObjs -> list string.
Variables ss1 ms1 ss2 ms2 :
  CasadiObjs -> list (option CellSol) -> list cell_input ->
  option (list (option CellSol) * matrix * matrix).
Variable circuit : netlist_t -> list float * list float.
Variable kind : manager_kind.

Local Notation state := (state CellSol CasadiObjs).
Local Notation M := (M CellSol CasadiObjs).
Local Notation actor := (generic_actor CellSol CasadiObjs).

(** How the actors of the two runs correspond: they hold the same evaluated
    variables, are set up alike, and step alike. *)
Variable RA : actor -> actor -> Prop.

Hypothesis RA_output : forall a1 a2, RA a1 a2 -> var_eval a1 = var_eval a2.

Hypothesis RA_setup :
  forall Nspm sim_func parameter_values dt I_init htc_init names initial_soc
         nproc,
    RA (actor_setup cco Nspm sim_func parameter_values dt I_init htc_init
                    names initial_soc nproc)
       (actor_setup cco Nspm sim_func parameter_values dt I_init htc_init
                    names initial_soc nproc).

Hypothesis RA_step : forall a1 a2 inputs,
  RA a1 a2 ->
  match actor_step ss1 ms1 a1 inputs, actor_step ss2 ms2 a2 inputs with
  | Ok r1, Ok r2 =>
      RA (fst r1) (fst r2) /\
      (kind = casadi_manager ->
       forall R : state -> state -> Prop, world_blind R ->
         rtriple R
           (if snd r1 then log_events event_names_of (fst r1) else ret tt)
           (if snd r2 then log_events event_names_of (fst r2) else ret tt)
           eq R)
  | Err e1, Err e2 => e1 = e2
  | _, _ => False
  end.

Local Notation R := (agree RA (loop_fields kind)).

Lemma rt_build_inputs_for (P : fields) (indices : list nat) :
  P F_split_index = true -> P F_shm_i_app = true -> P F_timestep = true ->
  P F_htc = true ->
  rtriple (agree RA P) (build_inputs_for indices) (build_inputs_for indices)
          eq (agree RA P).
Proof.
  intros H1 H2 H3 H4.
  induction indices as [|i rest IH]; simpl; [apply rt_ret|].
  unfold actor_i_app, actor_htc.
  repeat first [ exact IH | rt_step ].
Qed.

Lemma rt_build_inputs (P : fields) :
  P F_split_index = true -> P F_shm_i_app = true -> P F_timestep = true ->
  P F_htc = true -> P F_actors = true ->
  rtriple (agree RA P) (@build_inputs CellSol CasadiObjs) (@build_inputs _ _)
          eq (agree RA P).
Proof.
  intros H1 H2 H3 H4 H5. unfold build_inputs.
  eapply rt_bind; [now apply rt_get_actors|intros acts1 acts2 Hacts].
  rewrite (Forall2_length Hacts). now apply rt_build_inputs_for.
Qed.

Lemma step_each_alike (acts1 acts2 : list actor)
    (inputs : list (list cell_input)) :
  Forall2 RA acts1 acts2 ->
  match step_each ss1 ms1 acts1 inputs, step_each ss2 ms2 acts2 inputs with
  | Ok r1, Ok r2 => Forall2 RA (fst r1) (fst r2)
  | Err e1, Err e2 => e1 = e2
  | _, _ => False
  end.
Proof.
  intros H. revert inputs.
  induction H as [|a1 a2 acts1 acts2 Ha _ IH]; intros inputs; simpl.
  - constructor.
  - destruct inputs as [|i inputs]; trivial.
    pose proof (RA_step a1 a2 i Ha) as Hstep.
    destruct (actor_step ss1 ms1 a1 i) as [r1|e1],
             (actor_step ss2 ms2 a2 i) as [r2|e2]; simpl; trivial;
      try contradiction.
    specialize (IH inputs).
    destruct (step_each ss1 ms1 acts1 inputs) as [rs1|e1],
             (step_each ss2 ms2 acts2 inputs) as [rs2|e2]; simpl; trivial.
    constructor; tauto.
Qed.

Lemma get_nth_alike (acts1 acts2 : list actor) (i : nat) :
  Forall2 RA acts1 acts2 ->
  match get_nth i acts1, get_nth i acts2 with
  | Ok a1, Ok a2 => RA a1 a2
  | Err e1, Err e2 => e1 = e2
  | _, _ => False
  end.
Proof.
  intros H. revert i. unfold get_nth.
  induction H as [|a1 a2 acts1 acts2 Ha _ IH]; intros [|i]; simpl; trivial.
  apply IH.
Qed.

Lemma set_nth_alike (acts1 acts2 : list actor) (i : nat) (a1 a2 : actor) :
  Forall2 RA acts1 acts2 -> RA a1 a2 ->
  match set_nth i a1 acts1, set_nth i a2 acts2 with
  | Ok l1, Ok l2 => Forall2 RA l1 l2
  | Err e1, Err e2 => e1 = e2
  | _, _ => False
  end.
Proof.
  intros H Ha. revert i.
  induction H as [|b1 b2 acts1 acts2 Hb H IH]; intros [|i]; simpl; trivial.
  - now constructor.
  - specialize (IH i).
    destruct (set_nth i a1 acts1), (set_nth i a2 acts2); simpl; trivial.
    now constructor.
Qed.

Lemma outputs_alike (acts1 acts2 : list actor) :
  Forall2 RA acts1 acts2 ->
  res_mapM (@actor_output _ _) acts1 = res_mapM (@actor_output _ _) acts2.
Proof.
  induction 1 as [|a1 a2 acts1 acts2 Ha _ IH]; simpl; trivial.
  unfold actor_output at 1 3. rewrite (RA_output _ _ Ha), IH. reflexivity.
Qed.

Lemma rt_step_remote_actors :
  is_remote kind = true ->
  rtriple R (step_remote_actors ss1 ms1) (step_remote_actors ss2 ms2) eq R.
Proof.
  intros Hk. unfold step_remote_actors.
  eapply rt_bind_eq;
    [apply rt_build_inputs; destruct kind; trivial; discriminate
    |intros inputs].
  eapply rt_bind;
    [apply rt_get_actors; destruct kind; trivial; discriminate
    |intros acts1 acts2 Hacts].
  eapply rt_bind;
    [apply rt_lift_rel with (Q := fun r1 r2 => Forall2 RA (fst r1) (fst r2));
     now apply step_each_alike
    |intros r1 r2 Hr].
  eapply rt_bind; [apply rt_modify with (R' := R); agree_solve|intros _ _ _].
  apply rt_world_only; [apply agree_world_blind| |]; intros [m w];
    [destruct (np_any (snd r1))|destruct (np_any (snd r2))];
    eexists; reflexivity.
Qed.

Lemma rt_step_casadi_actor :
  kind = casadi_manager ->
  rtriple R (step_casadi_actor event_names_of ss1 ms1)
          (step_casadi_actor event_names_of ss2 ms2) eq R.
Proof.
  intros Hk. unfold step_casadi_actor.
  eapply rt_bind_eq; [apply rt_build_inputs; now rewrite Hk|intros inputs].
  eapply rt_bind;
    [apply rt_get_actors; now rewrite Hk|intros acts1 acts2 Hacts].
  eapply rt_bind;
    [apply rt_lift_rel with (Q := RA); now apply get_nth_alike
    |intros a1 a2 Ha].
  eapply rt_bind_eq; [apply rt_lift|intros i0].
  pose proof (RA_step a1 a2 i0 Ha) as Hstep.
  eapply rt_bind; [apply rt_lift_rel, Hstep|].
  cbv beta. intros r1 r2 [Hr Hlog].
  eapply rt_bind;
    [apply rt_lift_rel with (Q := Forall2 RA); now apply set_nth_alike
    |intros l1 l2 Hl].
  eapply rt_bind; [apply rt_modify with (R' := R); agree_solve|intros _ _ _].
  apply Hlog; trivial. apply agree_world_blind.
Qed.

Lemma rt_step_actors :
  rtriple R (step_actors event_names_of ss1 ms1 kind)
          (step_actors event_names_of ss2 ms2 kind) eq R.
Proof.
  pose proof rt_step_remote_actors as Hr.
  pose proof rt_step_casadi_actor as Hc.
  destruct kind; simpl; first [ apply rt_ret | now apply Hr | now apply Hc ].
Qed.

Lemma rt_store_outputs (P : fields) (step : nat) (outs : list matrix)
    (i : nat) :
  P F_split_index = true -> P F_output = true ->
  rtriple (agree RA P) (store_outputs step i outs) (store_outputs step i outs)
          eq (agree RA P).
Proof.
  intros H1 H2. revert i.
  induction outs as [|out rest IH]; intros i; simpl; [apply rt_ret|].
  repeat first [ apply IH | rt_step ].
Qed.

Lemma rt_get_actor_output (step : nat) :
  rtriple R (get_actor_output kind step) (get_actor_output kind step) eq R.
Proof.
  destruct kind eqn:Hk; simpl; try apply rt_ret;
    unfold get_remote_output, get_casadi_output;
    (eapply rt_bind;
       [apply rt_get_actors; reflexivity|intros acts1 acts2 Hacts]).
  - rewrite (outputs_alike _ _ Hacts).
    eapply rt_bind_eq; [apply rt_lift|intros outs].
    now apply rt_store_outputs.
  - eapply rt_bind;
      [apply rt_lift_rel with (Q := RA); now apply get_nth_alike
      |intros a1 a2 Ha].
    unfold actor_output. rewrite (RA_output _ _ Ha). rt_auto.
  - rewrite (outputs_alike _ _ Hacts).
    eapply rt_bind_eq; [apply rt_lift|intros outs].
    now apply rt_store_outputs.
Qed.

Lemma rt_loop_body (env : loop_env) (step : nat) (l : locals) :
  rtriple R (loop_body event_names_of ss1 ms1 circuit kind env step l)
          (loop_body event_names_of ss2 ms2 circuit kind env step l) eq R.
Proof.
  unfold loop_body.
  eapply rt_bind_eq; [apply rt_step_actors|intros _].
  eapply rt_bind_eq; [apply rt_get_actor_output|intros _].
  unfold update_netlist, resolve_circuit, store_next_current, print.
  rt_auto.
Qed.

Lemma rt_run_loop (env : loop_env) (steps : list nat) (l : locals) :
  rtriple R (run_loop event_names_of ss1 ms1 circuit kind env steps l)
          (run_loop event_names_of ss2 ms2 circuit kind env steps l) eq R.
Proof.
  revert l. induction steps as [|step rest IH]; intros l; simpl;
    [apply rt_ret|].
  eapply rt_bind_eq; [apply rt_loop_body|intros [l'|l']];
    [apply IH|apply rt_ret].
Qed.

Lemma setup_alike (spw : spm_per_worker_t) (sim_func : option SimFunc)
    (parameter_values : parameter_values_t) (d I_init htc_init : float)
    (names : list string) (initial_soc : float) (l : list nat)
    (acts : list actor) :
  res_mapM (fun i =>
    res_bind (spm_at i spw) (fun Nspm =>
    Ok (actor_setup cco Nspm sim_func parameter_values d I_init htc_init
                    names initial_soc 1))) l = Ok acts ->
  Forall2 RA acts acts.
Proof.
  revert acts. induction l as [|i l IH]; simpl; intros acts H.
  - inversion H. constructor.
  - destruct (spm_at i spw); simpl in H; try discriminate.
    destruct (res_mapM _ l); simpl in H; try discriminate.
    inversion H. constructor; [apply RA_setup|now apply IH].
Qed.

Lemma rt_setup_remote_actors (P : fields) (sim_func : option SimFunc)
    (parameter_values : parameter_values_t) (nproc : nat)
    (I_init htc_init initial_soc : float) :
  P F_spm_per_worker = true -> P F_dt = true -> P F_variable_names = true ->
  rtriple (agree RA P)
    (setup_remote_actors cco sim_func parameter_values nproc I_init htc_init
                         initial_soc)
    (setup_remote_actors cco sim_func parameter_values nproc I_init htc_init
                         initial_soc)
    eq (agree RA (add_field F_actors P)).
Proof.
  intros H1 H2 H3. unfold setup_remote_actors.
  eapply rt_bind_eq; [rt_leaf|intros spw].
  eapply rt_bind_eq; [rt_leaf|intros d].
  eapply rt_bind_eq; [rt_leaf|intros names].
  eapply rt_bind;
    [apply rt_lift_rel with (Q := Forall2 RA);
     destruct (res_mapM _ _) eqn:E; [eapply setup_alike; exact E|reflexivity]
    |intros acts1 acts2 Hacts].
  rt_add F_actors.
Qed.

Lemma rt_initialize (netlist0 : netlist_t) (sim_func : option SimFunc)
    (parameter_values : parameter_values_t) (experiment : experiment_t)
    (htc0 : list float) (output_variables : option (list string))
    (initial_soc : float) (nproc : nat) :
  rtriple (agree RA no_field)
    (initialize cco circuit kind netlist0 sim_func parameter_values
                experiment htc0 output_variables initial_soc nproc)
    (initialize cco circuit kind netlist0 sim_func parameter_values
                experiment htc0 output_variables initial_soc nproc)
    eq R.
Proof.
  pose proof RA_setup as Hsetup.
  unfold initialize, split_models, setup_actors.
  destruct kind;
    (eapply rt_weaken;
     [ repeat first
         [ rt_assign
         | apply rt_setup_remote_actors; reflexivity
         | rt_add F_actors; repeat constructor; apply Hsetup
         | rt_step ]
     | intros s1 s2; apply agree_weaken; intros []; trivial ]).
Qed.

Lemma rt_finalize (env : loop_env) (l : locals) :
  rtriple R (finalize kind env l) (finalize kind env l) eq R.
Proof.
  unfold finalize.
  eapply rt_bind_eq; [rt_leaf|intros _].
  eapply rt_bind_eq;
    [apply rt_world_only;
       [apply agree_world_blind|apply cleanup_returns|apply cleanup_returns]
    |intros _].
  unfold collect_outputs. rt_auto.
Qed.

(** The two runs of [solve] return the same result, or raise the same
    exception, and leave managers that agree on what the loop uses. *)
Lemma rt_solve (netlist0 : netlist_t) (sim_func : option SimFunc)
    (parameter_values : parameter_values_t) (experiment : experiment_t)
    (htc0 : list float) (output_variables : option (list string))
    (initial_soc : float) (nproc : nat) :
  rtriple (fun _ _ => True)
    (solve cco event_names_of ss1 ms1 circuit kind netlist0 sim_func
           parameter_values experiment htc0 output_variables initial_soc
           nproc)
    (solve cco event_names_of ss2 ms2 circuit kind netlist0 sim_func
           parameter_values experiment htc0 output_variables initial_soc
           nproc)
    eq R.
Proof.
  intros s1 s2 _.
  assert (H0 : agree RA no_field s1 s2) by (repeat split; discriminate).
  revert s1 s2 H0. change (rtriple (agree RA no_field)
    (solve cco event_names_of ss1 ms1 circuit kind netlist0 sim_func
           parameter_values experiment htc0 output_variables initial_soc
           nproc)
    (solve cco event_names_of ss2 ms2 circuit kind netlist0 sim_func
           parameter_values experiment htc0 output_variables initial_soc
           nproc)
    eq R).
  unfold solve.
  eapply rt_bind_eq; [apply rt_initialize|intros [env l0]].
  eapply rt_bind_eq; [apply rt_run_loop|intros l].
  apply rt_finalize.
Qed.

End Lockstep.
(** ** Running [solve] again *)

Section Rerun.

Context {CellSol CasadiObjs SimFunc : Type}.
Variable cco :
  option SimFunc -> parameter_values_t -> float -> float -> float ->
  float -> nat -> nat -> list string -> bool -> CasadiObjs.
Variable event_names_of : CasadiObjs -> list string.
Variables ss ms :
  CasadiObjs -> list (option CellSol) -> list cell_input ->
  option (list (option CellSol) * matrix * matrix).
Variable circuit : netlist_t -> list float * list float.

Local Notation state := (state CellSol CasadiObjs).

Lemma same_actor_steps_alike (kind : manager_kind)
    (a1 a2 : generic_actor CellSol CasadiObjs) (inputs : list cell_input) :
  a1 = a2 ->
  match actor_step ss ms a1 inputs, actor_step ss ms a2 inputs with
  | Ok r1, Ok r2 =>
      fst r1 = fst r2 /\
      (kind = casadi_manager ->
       forall R : state -> state -> Prop, world_blind R ->
         rtriple R
           (if snd r1 then log_events event_names_of (fst r1) else ret tt)
           (if snd r2 then log_events event_names_of (fst r2) else ret tt)
           eq R)
  | Err e1, Err e2 => e1 = e2
  | _, _ => False
  end.
Proof.
  intros ->. destruct (actor_step ss ms a2 inputs) as [r|e]; trivial.
  split; trivial. intros _ R HR.
  destruct (snd r); [now apply rt_log_events|apply rt_ret].
Qed.


End Rerun.
(** ** Events and the flow of the loop *)

Section EventsLogged.

Context {CellSol CasadiObjs : Type}.
Variable event_names_of : CasadiObjs -> list string.

Local Notation state := (state CellSol CasadiObjs).

Lemma log_event_rows_return (names : list string)
    (event_change : list (list bool)) (rows : list nat) (s : state) :
  Forall (fun r => r < length event_change) rows ->
  length event_change <= length names ->
  exists w,
    for_each rows (log_event_row names event_change) s
    = Done tt (mk_state (self s) w).
Proof.
  intros Hrows Hlen. revert s.
  induction Hrows as [|r rows Hr _ IH]; intros [m w]; simpl.
  - eexists. reflexivity.
  - unfold bind at 1, log_event_row, bind, lift, get_nth, of_option.
    destruct (nth_error event_change r) as [row|] eqn:Erow;
      [|apply nth_error_None in Erow; lia].
    cbv [ret]. destruct (np_any row).
    + destruct (nth_error names r) as [name|] eqn:Ename;
        [|apply nth_error_None in Ename; lia].
      cbv [ret logger modify_world]. cbn [self world].
      apply (IH (mk_state m _)).
    + apply (IH (mk_state m w)).
Qed.

(** The casadi manager's report of the events returns, and writes to the
    logger only, when every row of the event changes has a name. *)
Lemma log_events_returns (a : generic_actor CellSol CasadiObjs)
    (ec : list (list bool)) (s : state) :
  event_change a = Some ec ->
  changes_named event_names_of a ->
  exists w, log_events event_names_of a s = Done tt (mk_state (self s) w).
Proof.
  intros Hec Hnamed. destruct s as [m w].
  unfold log_events, bind at 1, logger, modify_world, get_event_change.
  cbn [self world]. rewrite Hec. unfold bind, lift, of_option. cbv [ret].
  apply (log_event_rows_return _ _ _ (mk_state m _)).
  - apply Forall_forall. intros r Hr. apply in_seq in Hr. lia.
  - now apply Hnamed.
Qed.

End EventsLogged.

Section EventsFlow.

Context {CellSol CasadiObjs SimFunc : Type}.
Variable cco :
  option SimFunc -> parameter_values_t -> float -> float -> float ->
  float -> nat -> nat -> list string -> bool -> CasadiObjs.
Variable event_names_of : CasadiObjs -> list string.
Variable circuit : netlist_t -> list float * list float.

Local Notation state := (state CellSol CasadiObjs).
Local Notation actor := (generic_actor CellSol CasadiObjs).
Local Notation step_fn_t :=
  (CasadiObjs -> list (option CellSol) -> list cell_input ->
   option (list (option CellSol) * matrix * matrix)).

(** What the check of the events leaves in the actor and reports, for an
    actor that has just been stepped. *)
Lemma check_events_stepped (a : actor) (sols : list (option CellSol))
    (vars events : matrix) :
  exists last' change' (fired : bool),
    check_events
      {| step_solutions := sols; casadi_objs := casadi_objs a;
         mapped := mapped a; var_eval := Some vars;
         events_eval := Some events; last_events := last_events a;
         event_change := event_change a |}
    = Ok ({| step_solutions := sols; casadi_objs := casadi_objs a;
             mapped := mapped a; var_eval := Some vars;
             events_eval := Some events; last_events := last';
             event_change := change' |}, fired) /\
    (change' = event_change a \/
     exists ec, change' = Some ec /\ length ec <= length events) /\
    (fired = true -> exists ec, change' = Some ec).
Proof.
  unfold check_events. cbn.
  destruct (last_events a) as [last|].
  - eexists _, _, _. split; [reflexivity|]. split.
    + right. eexists. split; [reflexivity|].
      unfold zip_with. rewrite length_map, length_combine, !length_map. lia.
    + intros _. eexists. reflexivity.
  - eexists _, _, _. split; [reflexivity|]. split; [now left|discriminate].
Qed.

Section OneRun.

Variables ss ms : step_fn_t.

(** The loop runs every step of its list unless, at some step, a terminal
    voltage of that step lies outside the cut-offs. *)
Lemma run_loop_stops (kind : manager_kind) (env : loop_env)
    (steps : list nat) (l : locals) (s : state) (l' : locals) (s' : state) :
  run_loop event_names_of ss ms circuit kind env steps l s = Done l' s' ->
  timestep (self s') = timestep (self s) + length steps \/
  exists k step temp_v,
    nth_error steps k = Some step /\
    timestep (self s') = timestep (self s) + k /\
    plane_row (output (self s')) 0 step = Some temp_v /\
    cutoff_reached env temp_v = true.
Proof.
  revert l s. induction steps as [|step rest IH]; intros l s H; simpl in H.
  - apply ret_done in H as [_ ->]. left. simpl. lia.
  - apply bind_done in H as (f & s1 & Hbody & H).
    apply loop_body_done in Hbody
      as (sB & temp_v & temp_ocv & i_app & p & l1 & _ & Hv & _ & _ & _ & _
          & _ & _ & Hout & _ & _ & _ & _ & _ & _ & _ & _ & Hf & Hts).
    destruct (cutoff_reached env temp_v) eqn:Hcut; subst f.
    + apply ret_done in H as [_ ->]. right. exists 0, step, temp_v.
      rewrite Hout, Hts. repeat split; trivial; lia.
    + apply IH in H as [H|(k & st & tv & Hk & Hts' & Hrow & Hc)].
      * left. simpl. lia.
      * right. exists (S k), st, tv. repeat split; trivial; lia.
Qed.

Lemma solve_stops (kind : manager_kind) (netlist0 : netlist_t)
    (sim_func : option SimFunc) (parameter_values : parameter_values_t)
    (experiment : experiment_t) (htc0 : list float)
    (output_variables : option (list string)) (initial_soc : float)
    (nproc : nat) (s : state) (r : result_t) (s' : state) :
  solve cco event_names_of ss ms circuit kind netlist0 sim_func
        parameter_values experiment htc0 output_variables initial_soc nproc s
  = Done r s' ->
  timestep (self s') = length (protocol experiment) \/
  exists env l0 s0 temp_v,
    initialize cco circuit kind netlist0 sim_func parameter_values
               experiment htc0 output_variables initial_soc nproc s
    = Done (env, l0) s0 /\
    timestep (self s') < length (protocol experiment) /\
    plane_row (output (self s')) 0 (timestep (self s')) = Some temp_v /\
    cutoff_reached env temp_v = true.
Proof.
  intros H.
  apply solve_done in H
    as (env & l0 & s0 & l & s1 & s2 & Hinit & Hloop & Hclean & Hcollect).
  apply collect_outputs_done in Hcollect as ->.
  apply cleanup_done in Hclean as (Hself & _). cbn [self] in Hself.
  rewrite Hself.
  pose proof Hinit as Hinit'.
  apply initialize_done in Hinit'
    as (_ & _ & _ & _ & _ & _ & _ & Hts & _).
  apply run_loop_stops in Hloop
    as [Hall|(k & step & temp_v & Hk & Hts' & Hrow & Hcut)].
  - left. rewrite Hall, Hts, length_seq. reflexivity.
  - right. exists env, l0, s0, temp_v.
    assert (Hlt : k < length (seq 0 (length (protocol experiment))))
      by (apply nth_error_Some; congruence).
    rewrite length_seq in Hlt.
    apply nth_error_nth with (d := 0) in Hk. rewrite seq_nth in Hk by trivial.
    rewrite Hts', Hts. simpl in Hk. subst step. repeat split; trivial.
Qed.

(** When [solve] returns, it has run every step of the protocol, or the
    step it stopped at has a terminal voltage outside the cut-offs: nothing
    else ends the loop early. *)
Theorem solve_stops_early_only_at_cutoff (kind : manager_kind)
    (netlist0 : netlist_t) (sim_func : option SimFunc)
    (parameter_values : parameter_values_t) (experiment : experiment_t)
    (htc0 : list float) (output_variables : option (list string))
    (initial_soc : float) (nproc : nat) (s : state) (r : result_t)
    (s' : state) :
  solve cco event_names_of ss ms circuit kind netlist0 sim_func
        parameter_values experiment htc0 output_variables initial_soc nproc s
  = Done r s' ->
  timestep (self s') = length (protocol experiment) \/
  exists lo hi temp_v,
    param_get "Lower voltage cut-off [V]" parameter_values = Ok lo /\
    param_get "Upper voltage cut-off [V]" parameter_values = Ok hi /\
    timestep (self s') < length (protocol experiment) /\
    plane_row (output (self s')) 0 (timestep (self s')) = Some temp_v /\
    (np_any (map (fun v => (v <? lo)%float) temp_v)
     || np_any (map (fun v => (hi <? v)%float) temp_v)) = true.
Proof.
  intros H. apply solve_stops in H
    as [H|(env & l0 & s0 & temp_v & Hinit & Hlt & Hrow & Hcut)];
    [now left|right].
  apply initialize_done in Hinit
    as ((_ & _ & _ & _ & _ & Hlo & Hhi) & _).
  exists (v_cut_lower env), (v_cut_higher env), temp_v.
  repeat split; trivial.
Qed.

End OneRun.

Section TwoStepFunctions.

Variables ss1 ms1 ss2 ms2 : step_fn_t.
Variable kind : manager_kind.

Hypothesis ss_alike : forall objs sols inputs,
  same_but_events (ss1 objs sols inputs) (ss2 objs sols inputs).
Hypothesis ms_alike : forall objs sols inputs,
  same_but_events (ms1 objs sols inputs) (ms2 objs sols inputs).
Hypothesis named :
  kind = casadi_manager ->
  events_named event_names_of ss1 /\ events_named event_names_of ms1 /\
  events_named event_names_of ss2 /\ events_named event_names_of ms2.

Lemma stepped_changes_named (step_fn : step_fn_t) (a : actor)
    (inputs : list cell_input) sols vars events last' change' :
  events_named event_names_of step_fn ->
  step_fn (casadi_objs a) (step_solutions a) inputs
  = Some (sols, vars, events) ->
  changes_named event_names_of a ->
  (change' = event_change a \/
   exists ec, change' = Some ec /\ length ec <= length events) ->
  changes_named event_names_of
    {| step_solutions := sols; casadi_objs := casadi_objs a;
       mapped := mapped a; var_eval := Some vars;
       events_eval := Some events; last_events := last';
       event_change := change' |}.
Proof.
  intros Hnamed Hstep Ha Hchange ec. cbn. intros ->.
  destruct Hchange as [Hc|(ec' & Hc & Hlen)].
  - now apply Ha.
  - inversion Hc. subst ec'. apply Hnamed in Hstep. lia.
Qed.

Lemma step_fn_alike (a : actor) (inputs : list cell_input) :
  same_but_events
    (step_fn ss1 ms1 a (casadi_objs a) (step_solutions a) inputs)
    (step_fn ss2 ms2 a (casadi_objs a) (step_solutions a) inputs).
Proof. unfold step_fn. destruct (mapped a); auto. Qed.

Lemma step_fn_named (a : actor) :
  kind = casadi_manager ->
  events_named event_names_of (step_fn ss1 ms1 a) /\
  events_named event_names_of (step_fn ss2 ms2 a).
Proof.
  intros Hk. destruct (named Hk) as (H1 & H2 & H3 & H4).
  unfold step_fn. destruct (mapped a); auto.
Qed.

(** Stepped on the same inputs, two such actors both fail or both return
    such actors again, and what the casadi manager then reports returns. *)
Lemma event_blind_step (a1 a2 : actor) (inputs : list cell_input) :
  event_blind event_names_of kind a1 a2 ->
  match actor_step ss1 ms1 a1 inputs, actor_step ss2 ms2 a2 inputs with
  | Ok r1, Ok r2 =>
      event_blind event_names_of kind (fst r1) (fst r2) /\
      (kind = casadi_manager ->
       forall R : state -> state -> Prop, world_blind R ->
         rtriple R
           (if snd r1 then log_events event_names_of (fst r1) else ret tt)
           (if snd r2 then log_events event_names_of (fst r2) else ret tt)
           eq R)
  | Err e1, Err e2 => e1 = e2
  | _, _ => False
  end.
Proof.
  intros [(Hsol & Hobj & Hmap & Hvar) Hn].
  pose proof (step_fn_alike a1 inputs) as Halike.
  pose proof (step_fn_named a1) as Hnamed1.
  pose proof (step_fn_named a2) as Hnamed2.
  unfold actor_step.
  assert (E : step_fn ss2 ms2 a2 (casadi_objs a2) (step_solutions a2) inputs
              = step_fn ss2 ms2 a1 (casadi_objs a1) (step_solutions a1) inputs)
    by (unfold step_fn; now rewrite Hsol, Hobj, Hmap).
  rewrite E.
  destruct (step_fn ss1 ms1 a1 _ _ _) as [[[sols1 vars1] ev1]|] eqn:E1,
           (step_fn ss2 ms2 a1 _ _ _) as [[[sols2 vars2] ev2]|] eqn:E2;
    simpl in Halike; try contradiction; trivial.
  destruct Halike as [<- <-].
  destruct (check_events_stepped a1 sols1 vars1 ev1)
    as (last1 & ch1 & f1 & -> & Hch1 & Hf1).
  destruct (check_events_stepped a2 sols1 vars1 ev2)
    as (last2 & ch2 & f2 & -> & Hch2 & Hf2).
  cbn [fst snd].
  assert (Hnew : kind = casadi_manager ->
    changes_named event_names_of
      {| step_solutions := sols1; casadi_objs := casadi_objs a1;
         mapped := mapped a1; var_eval := Some vars1;
         events_eval := Some ev1; last_events := last1;
         event_change := ch1 |} /\
    changes_named event_names_of
      {| step_solutions := sols1; casadi_objs := casadi_objs a2;
         mapped := mapped a2; var_eval := Some vars1;
         events_eval := Some ev2; last_events := last2;
         event_change := ch2 |}).
  { intros Hk. destruct (Hn Hk) as [Hn1 Hn2]. split.
    - eapply stepped_changes_named; eauto. now apply Hnamed1.
    - rewrite <- E in E2.
      eapply stepped_changes_named; eauto. now apply Hnamed2. }
  split.
  - split; [repeat split; cbn; trivial|exact Hnew].
  - intros Hk R HR. destruct (Hnew Hk) as [Hn1 Hn2].
    apply rt_world_only; trivial; intros s.
    + destruct f1; [|destruct s; eexists; reflexivity].
      destruct (Hf1 eq_refl) as [ec Hec].
      eapply log_events_returns; [|exact Hn1]. cbn. exact Hec.
    + destruct f2; [|destruct s; eexists; reflexivity].
      destruct (Hf2 eq_refl) as [ec Hec].
      eapply log_events_returns; [|exact Hn2]. cbn. exact Hec.
Qed.


End TwoStepFunctions.

End EventsFlow.

Lemma bench_steps_alike (drop level1 level2 : float) objs sols inputs :
  same_but_events (Bench.cell_step drop level1 objs sols inputs)
                  (Bench.cell_step drop level2 objs sols inputs).
Proof. simpl. split; reflexivity. Qed.

Lemma bench_events_named (drop level : float) :
  events_named Bench.event_names_of (Bench.cell_step drop level).
Proof.
  intros objs sols inputs sols' vars events H. inversion H. simpl. lia.
Qed.


Lemma bench_run_with_event :
  exists r s1,
    Bench.run (Bench.cell_step 0.25 3.1) casadi_manager 1 8 1 Bench.fresh
    = Done r s1 /\
    In (EventWarning "Minimum voltage" [0; 1]) (logged (world s1)) /\
    timestep (self s1) = 4.
Proof.
  destruct (Bench.run (Bench.cell_step 0.25 3.1) casadi_manager 1 8 1
              Bench.fresh) as [r1 s1|e1 s1] eqn:E1;
    [|vm_compute in E1; discriminate].
  exists r1, s1. split; [reflexivity|].
  vm_compute in E1. injection E1 as _ <-.
  split; [|reflexivity]. simpl; tauto.
Qed.

Lemma bench_run_without_event :
  exists r s2,
    Bench.run (Bench.cell_step 0.25 9) casadi_manager 1 8 1 Bench.fresh
    = Done r s2 /\
    ~ In (Warning "Events were triggered") (logged (world s2)).
Proof.
  destruct (Bench.run (Bench.cell_step 0.25 9) casadi_manager 1 8 1
              Bench.fresh) as [r2 s2|e2 s2] eqn:E2;
    [|vm_compute in E2; discriminate].
  exists r2, s2. split; [reflexivity|].
  vm_compute in E2. injection E2 as _ <-. simpl.
  intuition discriminate.
Qed.


(** On the bench, the run of eight steps stops at the fifth, where the
    cells are at 2.75 V, below the cut-off of 3 V. *)
Lemma solve_stops_early_only_at_cutoff_witness :
  exists r s',
    Bench.run (Bench.cell_step 0.25 3.1) casadi_manager 1 8 1 Bench.fresh
    = Done r s' /\
    timestep (self s') = 4 /\
    plane_row (output (self s')) 0 4 = Some [2.75; 2.75]%float.
Proof.
  destruct bench_run_with_event as (r & s' & E & _ & Hts).
  exists r, s'. split; [exact E|]. split; [exact Hts|].
  destruct (solve_stops_early_only_at_cutoff _ _ _ _ _ _ _ _ _ _ _ _ _ _ _
              _ _ E) as [H|(lo & hi & temp_v & _ & _ & _ & Hrow & _)].
  - rewrite Hts in H. discriminate H.
  - rewrite Hts in Hrow. rewrite Hrow. f_equal.
    vm_compute in E. injection E as _ <-. vm_compute in Hrow.
    now injection Hrow as <-.
Defined.
(** ** The helpers of utils.py *)

Lemma skipn_nth_error {A} (l : list A) (i : nat) (x : A) :
  nth_error l i = Some x -> skipn i l = x :: skipn (S i) l.
Proof.
  revert i. induction l as [|y l IH]; intros [|i] H; simpl in *;
    try discriminate.
  - now inversion H.
  - now apply IH.
Qed.

Lemma set_nth_app {A} (done rest : list A) (x v : A) :
  set_nth (length done) v (done ++ x :: rest) = Ok (done ++ v :: rest).
Proof.
  induction done as [|y done IH]; simpl; trivial. now rewrite IH.
Qed.

Lemma build_inputs_from_pairs (I_batt htc : list float) (i : nat) :
  i <= length htc ->
  build_inputs_from i I_batt htc
  = if i + length I_batt <=? length htc
    then Ok (zip_with mk_input I_batt (skipn i htc))
    else Err IndexError.
Proof.
  revert i. induction I_batt as [|c rest IH]; intros i Hi; simpl.
  - rewrite Nat.add_0_r. apply Nat.leb_le in Hi. now rewrite Hi.
  - unfold get_nth, of_option.
    destruct (nth_error htc i) as [h|] eqn:E; simpl.
    + assert (Hlt : i < length htc) by (apply nth_error_Some; congruence).
      rewrite IH by lia. rewrite (skipn_nth_error _ _ _ E).
      replace (i + S (length rest)) with (S i + length rest) by lia.
      destruct (S i + length rest <=? length htc); reflexivity.
    + apply nth_error_None in E.
      destruct (i + S (length rest) <=? length htc) eqn:Hle; trivial.
      apply Nat.leb_le in Hle. lia.
Qed.

(** [build_inputs_dict] returns one dictionary per battery current, the
    i-th holding the i-th current and the i-th heat transfer coefficient;
    coefficients beyond the currents are dropped, and with fewer
    coefficients than currents the call raises IndexError. *)
Theorem build_inputs_dict_pairs (I_batt htc : list float) :
  build_inputs_dict I_batt htc
  = if length I_batt <=? length htc
    then Ok (zip_with mk_input I_batt htc)
    else Err IndexError.
Proof.
  unfold build_inputs_dict. rewrite build_inputs_from_pairs by lia.
  reflexivity.
Qed.

Lemma interpolate_each_from (funcs : list (float -> float -> float))
    (T : list float) (Q : float) (n : nat) (done : list float) :
  length done <= length funcs ->
  length done + n = length T ->
  interpolate_each (seq (length done) n) funcs T Q (done ++ np.zeros n)
  = if length T <=? length funcs
    then Ok (done ++ zip_with (fun f t => f t Q)
                              (skipn (length done) funcs)
                              (skipn (length done) T))
    else Err IndexError.
Proof.
  revert done. induction n as [|n IH]; intros done Hf HT;
    [|change (np.zeros (S n)) with (0%float :: np.zeros n)]; simpl.
  - rewrite Nat.add_0_r in HT. rewrite (skipn_all2 T) by lia.
    rewrite app_nil_r, <- HT. apply Nat.leb_le in Hf. rewrite Hf.
    unfold zip_with. rewrite combine_nil. simpl. now rewrite app_nil_r.
  - unfold get_nth at 1, of_option.
    destruct (nth_error funcs (length done)) as [f|] eqn:Ef; simpl.
    + unfold get_nth, of_option.
      destruct (nth_error T (length done)) as [t|] eqn:Et;
        [|apply nth_error_None in Et; lia].
      simpl. rewrite set_nth_app. simpl.
      assert (Hlt : length done < length funcs)
        by (apply nth_error_Some; congruence).
      specialize (IH (done ++ [f t Q])).
      rewrite length_app, Nat.add_1_r, <- app_assoc in IH.
      cbn [app length] in IH. rewrite IH by lia.
      rewrite (skipn_nth_error _ _ _ Ef), (skipn_nth_error _ _ _ Et).
      rewrite <- app_assoc. reflexivity.
    + apply nth_error_None in Ef.
      destruct (length T <=? length funcs) eqn:Hle; trivial.
      apply Nat.leb_le in Hle. lia.
Qed.

(** [get_interpolated_htc] evaluates the i-th interpolant at the i-th
    temperature and the flow rate, for every temperature; interpolants beyond
    the temperatures are not used, and with fewer interpolants than
    temperatures the call raises IndexError. *)
Theorem get_interpolated_htc_each (funcs : list (float -> float -> float))
    (T : list float) (Q : float) :
  get_interpolated_htc funcs T Q
  = if length T <=? length funcs
    then Ok (zip_with (fun f t => f t Q) funcs T)
    else Err IndexError.
Proof.
  unfold get_interpolated_htc.
  apply (interpolate_each_from funcs T Q (length T) []); simpl; lia.
Qed.
(** ** What [solve] refuses *)

Lemma array_split_err {A} (ary : list A) (n : nat) (e : exn) :
  np.array_split ary n = Err e -> e = ValueError /\ n = 0.
Proof.
  unfold np.array_split. destruct n; simpl; [|discriminate].
  intros H. inversion H. auto.
Qed.

Lemma set_nth_err {A} (i : nat) (v : A) (l : list A) (e : exn) :
  set_nth i v l = Err e -> e = IndexError.
Proof.
  revert i. induction l as [|x l IH]; intros [|i]; simpl; try discriminate;
    try (intros H; now inversion H).
  destruct (set_nth i v l) eqn:E; simpl; [discriminate|].
  intros H. inversion H. subst. now apply (IH i).
Qed.

Lemma set_row_err (r : nat) (v : list float) (a : matrix) (e : exn) :
  set_row r v a = Err e -> e = IndexError \/ e = ValueError.
Proof.
  unfold set_row, get_nth, of_option.
  destruct (nth_error a r) as [old|]; simpl; [|intros H; inversion H; auto].
  destruct (np.broadcast_to (length old) v) as [v'|e'] eqn:E; simpl.
  - intros H. left. now apply set_nth_err in H.
  - intros H. inversion H. subst. right. unfold np.broadcast_to in E.
    destruct (length v =? length old); [discriminate|].
    destruct v as [|x [|y v]]; now inversion E.
Qed.

Lemma param_get_err (key : string) (p : parameter_values_t) (e : exn) :
  param_get key p = Err e -> e = KeyError.
Proof.
  induction p as [|[k v] p IH]; simpl; [intros H; now inversion H|].
  destruct (String.eqb key k); [discriminate|exact IH].
Qed.

(** The first row of a current buffer without columns is empty. *)
Lemma set_row_no_cells (v : list float) (N : nat) (shm : matrix) :
  set_row 0 v (np.zeros2 N 0) = Ok shm -> nth_error shm 0 = Some [].
Proof.
  destruct N as [|N]; [discriminate|].
  unfold set_row, get_nth, of_option. simpl.
  unfold np.broadcast_to.
  destruct v as [|x [|y v]]; simpl; intros H; inversion H; reflexivity.
Qed.

Ltac run_lift :=
  match goal with
  | |- context [lift ?r] =>
      let E := fresh "E" in
      destruct r eqn:E; cbn [lift ret raise self world]
  end.

Ltac raised_here :=
  eexists _, _; split; [reflexivity|]; cbn; repeat split; auto.

Section Refusals.

Context {CellSol CasadiObjs SimFunc : Type}.
Variable cco :
  option SimFunc -> parameter_values_t -> float -> float -> float ->
  float -> nat -> nat -> list string -> bool -> CasadiObjs.
Variable event_names_of : CasadiObjs -> list string.
Variables ss ms :
  CasadiObjs -> list (option CellSol) -> list cell_input ->
  option (list (option CellSol) * matrix * matrix).
Variable circuit : netlist_t -> list float * list float.

Local Notation state := (state CellSol CasadiObjs).


(** Without either cut-off in the parameter values, [solve] raises before
    it sets up an actor or starts a worker, and logs nothing: KeyError,
    unless the split of the models or the first assignment to the current
    buffer has raised before. *)
Theorem solve_without_cutoff_raises (kind : manager_kind)
    (netlist0 : netlist_t) (sim_func : option SimFunc)
    (parameter_values : parameter_values_t) (experiment : experiment_t)
    (htc0 : list float) (output_variables : option (list string))
    (initial_soc : float) (nproc : nat) (s : state) :
  param_get "Lower voltage cut-off [V]" parameter_values = Err KeyError \/
  param_get "Upper voltage cut-off [V]" parameter_values = Err KeyError ->
  exists e s',
    solve cco event_names_of ss ms circuit kind netlist0 sim_func
          parameter_values experiment htc0 output_variables initial_soc
          nproc s
    = Raised e s' /\
    world s' = world s /\
    actors (self s') = actors (self s) /\
    (e = KeyError \/ e = ValueError \/ e = IndexError).
Proof.
  intros H. destruct s as [m w].
  unfold solve, initialize, split_models.
  destruct kind; unfold bind, modify, get, ret; cbn [self world];
    repeat (run_lift;
            try (match goal with
                 | E : np.array_split _ _ = Err _ |- _ =>
                     apply array_split_err in E as [-> _]
                 | E : set_row _ _ _ = Err _ |- _ =>
                     apply set_row_err in E as [-> | ->]
                 | E : param_get _ _ = Err _ |- _ =>
                     apply param_get_err in E as ->
                 end; raised_here));
    destruct H; congruence.
Qed.

(** On an experiment without a step, [solve] raises IndexError at its first
    assignment to the current buffer, which has no row (ValueError before
    that, when a ray or dask manager has no worker to split the models
    over); no actor is set up and no worker started. *)
Theorem solve_without_steps_raises (kind : manager_kind)
    (netlist0 : netlist_t) (sim_func : option SimFunc)
    (parameter_values : parameter_values_t) (experiment : experiment_t)
    (htc0 : list float) (output_variables : option (list string))
    (initial_soc : float) (nproc : nat) (s : state) :
  protocol experiment = [] ->
  exists s',
    solve cco event_names_of ss ms circuit kind netlist0 sim_func
          parameter_values experiment htc0 output_variables initial_soc
          nproc s
    = Raised (if is_remote kind && (nproc =? 0) then ValueError
              else IndexError) s' /\
    world s' = world s /\
    actors (self s') = actors (self s).
Proof.
  intros H. destruct s as [m w].
  unfold solve, initialize, split_models. rewrite H.
  destruct kind; [| destruct nproc | | destruct nproc];
    eexists; (split; [reflexivity|]); split; reflexivity.
Qed.

(** On a netlist without a voltage source, that is without a cell, or with
    no heat transfer coefficient, [solve] raises before it sets up an actor
    or starts a worker, and logs nothing. *)
Theorem solve_without_cells_raises (kind : manager_kind)
    (netlist0 : netlist_t) (sim_func : option SimFunc)
    (parameter_values : parameter_values_t) (experiment : experiment_t)
    (htc0 : list float) (output_variables : option (list string))
    (initial_soc : float) (nproc : nat) (s : state) :
  count_true (desc_map "V" netlist0) = 0 \/ htc0 = [] ->
  exists e s',
    solve cco event_names_of ss ms circuit kind netlist0 sim_func
          parameter_values experiment htc0 output_variables initial_soc
          nproc s
    = Raised e s' /\
    world s' = world s /\
    actors (self s') = actors (self s) /\
    (e = IndexError \/ e = ValueError \/ e = KeyError).
Proof.
  intros H. destruct s as [m w].
  unfold solve, initialize, split_models.
  destruct kind; unfold bind, modify, get, ret; cbn [self world];
    repeat (run_lift;
            try (match goal with
                 | E : np.array_split _ _ = Err _ |- _ =>
                     apply array_split_err in E as [-> _]
                 | E : set_row _ _ _ = Err _ |- _ =>
                     apply set_row_err in E as [-> | ->]
                 | E : param_get _ _ = Err _ |- _ =>
                     apply param_get_err in E as ->
                 | E : get_nth _ _ = Err _ |- _ =>
                     unfold get_nth, of_option in E;
                     destruct (nth_error _ _); inversion E; subst
                 end; raised_here)).
  all: exfalso;
    cbn [shm_i_app netlist variable_names set_timestep set_shm_i_app
         set_output set_variable_names set_dt set_netlist set_htc
         set_split_index set_spm_per_worker] in *;
    destruct H as [H|H]; [|subst; discriminate].
  all: match goal with
       | Es : set_row 0 _ (np.zeros2 _ _) = Ok ?a,
         Er : get_nth 0 ?a = Ok ?row,
         Ec : get_nth 0 ?row = Ok _ |- _ =>
           rewrite H in Es; apply set_row_no_cells in Es;
           apply get_nth_ok in Er; rewrite Es in Er; inversion Er; subst;
           discriminate
       end.
Qed.

End Refusals.

Lemma solve_without_cutoff_raises_witness :
  exists s',
    solve Bench.cco Bench.event_names_of (Bench.cell_step 0.25 3.1)
          (Bench.cell_step 0.25 3.1) Bench.circuit casadi_manager Bench.pack
          None [("Upper voltage cut-off [V]"%string, 5%float)]
          (mk_experiment 1 [2; 2; 2]%float) Bench.coefficients None 1%float
          1 Bench.fresh
    = Raised KeyError s' /\
    world s' = world Bench.fresh.
Proof.
  destruct (solve_without_cutoff_raises
              Bench.cco Bench.event_names_of (Bench.cell_step 0.25 3.1)
              (Bench.cell_step 0.25 3.1) Bench.circuit casadi_manager
              Bench.pack None [("Upper voltage cut-off [V]"%string, 5%float)]
              (mk_experiment 1 [2; 2; 2]%float) Bench.coefficients None
              1%float 1 Bench.fresh (or_introl eq_refl))
    as (e & s' & H & Hw & _ & _).
  exists s'. split; [|exact Hw].
  rewrite H. f_equal. vm_compute in H. now injection H as <- _.
Defined.

Lemma solve_without_steps_raises_witness :
  exists s',
    Bench.run (Bench.cell_step 0.25 3.1) casadi_manager 1 0 1 Bench.fresh
    = Raised IndexError s' /\
    world s' = world Bench.fresh.
Proof.
  destruct (solve_without_steps_raises
              Bench.cco Bench.event_names_of (Bench.cell_step 0.25 3.1)
              (Bench.cell_step 0.25 3.1) Bench.circuit casadi_manager
              Bench.pack None Bench.parameters
              (mk_experiment 1 (repeat 2%float 0)) Bench.coefficients None
              1%float 1 Bench.fresh eq_refl)
    as (s' & H & Hw & _).
  exists s'. split; [exact H|exact Hw].
Defined.

Lemma solve_without_cells_raises_witness :
  exists s',
    solve Bench.cco Bench.event_names_of (Bench.cell_step 0.25 3.1)
          (Bench.cell_step 0.25 3.1) Bench.circuit casadi_manager
          [mk_row "I0" 0 2 1] None Bench.parameters
          (mk_experiment 1 [2; 2; 2]%float) Bench.coefficients None 1%float
          1 Bench.fresh
    = Raised IndexError s' /\
    world s' = world Bench.fresh.
Proof.
  destruct (solve_without_cells_raises
              Bench.cco Bench.event_names_of (Bench.cell_step 0.25 3.1)
              (Bench.cell_step 0.25 3.1) Bench.circuit casadi_manager
              [mk_row "I0" 0 2 1] None Bench.parameters
              (mk_experiment 1 [2; 2; 2]%float) Bench.coefficients None
              1%float 1 Bench.fresh (or_introl eq_refl))
    as (e & s' & H & Hw & _ & _).
  exists s'. split; [|exact Hw].
  rewrite H. f_equal. vm_compute in H. now injection H as <- _.
Defined.
(** ** The clock of the loop and the last step *)

Lemma set_row_in_range (r : nat) (v : list float) (a a' : matrix) :
  set_row r v a = Ok a' -> r < length a.
Proof.
  unfold set_row, get_nth, of_option.
  destruct (nth_error a r) eqn:E; [|discriminate].
  intros _. apply nth_error_Some. congruence.
Qed.

Lemma resolved_time (circuit : netlist_t -> list float * list float)
    (env : loop_env) (now : float) (l : locals) (nl : netlist_t)
    (l1 : locals) :
  resolved circuit env now l nl l1 -> time l1 = now.
Proof.
  unfold resolved. destruct (now <=? end_time env)%float.
  - now intros (vt & _ & ->).
  - now intros ->.
Qed.

Section Clock.

Context {CellSol CasadiObjs SimFunc : Type}.
Variable cco :
  option SimFunc -> parameter_values_t -> float -> float -> float ->
  float -> nat -> nat -> list string -> bool -> CasadiObjs.
Variable event_names_of : CasadiObjs -> list string.
Variables ss ms :
  CasadiObjs -> list (option CellSol) -> list cell_input ->
  option (list (option CellSol) * matrix * matrix).
Variable circuit : netlist_t -> list float * list float.

Local Notation state := (state CellSol CasadiObjs).

(** With a clock that is still below the end time after the last step, the
    loop returns only from a step before the last one. *)
Lemma run_loop_clock (kind : manager_kind) (env : loop_env) (d : float)
    (len a : nat) (l : locals) (s : state) (l' : locals) (s' : state) :
  run_loop event_names_of ss ms circuit kind env (seq a len) l s
  = Done l' s' ->
  timestep (self s) = a ->
  dt (self s) = d ->
  time l = clock d a ->
  length (shm_i_app (self s)) = a + len ->
  (clock d (a + len) <? end_time env)%float = true ->
  1 <= len ->
  timestep (self s') + 1 < a + len.
Proof.
  revert a l s. induction len as [|len IH]; intros a l s H Hts Hdt Htime Hshm
    Hclock Hlen; [lia|].
  cbn [seq run_loop] in H.
  apply bind_done in H as (f & s1 & Hbody & H).
  apply loop_body_done in Hbody
    as (sB & temp_v & temp_ocv & i_app & p & l1 & _ & _ & _ & _ & _ & _ & _
        & (Hres & Hst & _) & _ & _ & Hdt' & _ & _ & _ & _ & _ & _ & Hf
        & Hts').
  apply resolved_time in Hres. cbn [time bind_step] in Hres.
  rewrite Htime, Hdt in Hres.
  change (clock d a + d)%float with (clock d (S a)) in Hres.
  unfold stored in Hst. rewrite Hres in Hst.
  destruct len as [|len].
  - exfalso. replace (a + 1) with (S a) in Hclock by lia.
    replace (S a) with (a + 1) in Hst at 2 by lia.
    rewrite Hclock in Hst.
    apply set_row_in_range in Hst. unfold matrix in *. lia.
  - destruct (cutoff_reached env temp_v); subst f.
    + apply ret_done in H as [_ ->]. lia.
    + replace (a + S (S len)) with (S a + S len) in * by lia.
      apply (IH (S a) l1 s1) in H; trivial; try lia.
      * congruence.
      * destruct (clock d (S a) <? end_time env)%float.
        -- apply set_row_ok in Hst as (_ & _ & Hl & _).
           unfold matrix in *. lia.
        -- unfold matrix in *. rewrite Hst. lia.
Qed.

(** When the period added up over the steps of the protocol stays below
    the end time, the product of the period and the number of steps, as it
    does in binary64 for a period of 0.1 and 6 to 12 steps, [solve] cannot
    return from the last step of the protocol: it returns only when a
    cut-off has stopped the loop at an earlier step. *)
Theorem solve_returns_before_last_step (kind : manager_kind)
    (netlist0 : netlist_t) (sim_func : option SimFunc)
    (parameter_values : parameter_values_t) (experiment : experiment_t)
    (htc0 : list float) (output_variables : option (list string))
    (initial_soc : float) (nproc : nat) (s : state) (r : result_t)
    (s' : state) :
  let N := length (protocol experiment) in
  (clock (period experiment) N <? period experiment * float_of_nat N)%float
  = true ->
  solve cco event_names_of ss ms circuit kind netlist0 sim_func
        parameter_values experiment htc0 output_variables initial_soc nproc s
  = Done r s' ->
  timestep (self s') + 1 < N.
Proof.
  intros N Hclock H.
  apply solve_done in H
    as (env & l0 & s0 & l & s1 & s2 & Hinit & Hloop & Hclean & Hcollect).
  apply collect_outputs_done in Hcollect as ->.
  apply cleanup_done in Hclean as (Hself & _). cbn [self] in Hself.
  rewrite Hself.
  apply initialize_done in Hinit
    as ((_ & _ & _ & _ & Hend & _) & -> & _ & Hdt & _ & Hrow & _ & Hts & _).
  assert (H0 : 0 < N).
  { apply set_row_in_range in Hrow. unfold np.zeros2 in Hrow.
    now rewrite repeat_length in Hrow. }
  apply set_row_ok in Hrow as (_ & _ & Hl & _).
  unfold np.zeros2 in Hl. rewrite repeat_length in Hl.
  change (timestep (self s1) + 1 < 0 + N).
  eapply run_loop_clock with (d := period experiment);
    [exact Hloop|trivial..].
  simpl. fold N. now rewrite Hend.
Qed.

End Clock.

(** Eight steps of 0.1 s on the bench: the clock ends below the end time.
    Cells that reach the cut-off at the fifth step let [solve] return;
    cells that reach it at the last step do not, the step raises IndexError
    when it stores the currents of a ninth step. *)
Lemma solve_returns_before_last_step_witness :
  (exists r s',
     Bench.run (Bench.cell_step 0.25 3.1) casadi_manager 0.1 8 1 Bench.fresh
     = Done r s' /\
     timestep (self s') = 4 /\
     timestep (self s') + 1 < 8) /\
  (exists s' temp_v,
     Bench.run (Bench.cell_step 0.13 3.1) casadi_manager 0.1 8 1 Bench.fresh
     = Raised IndexError s' /\
     timestep (self s') = 7 /\
     plane_row (output (self s')) 0 7 = Some temp_v /\
     cutoff_reached Bench.env temp_v = true).
Proof.
  split.
  - destruct (Bench.run (Bench.cell_step 0.25 3.1) casadi_manager 0.1 8 1
                Bench.fresh) as [r s'|e s'] eqn:E;
      [|vm_compute in E; discriminate].
    exists r, s'. split; [reflexivity|]. split.
    + vm_compute in E. now injection E as _ <-.
    + apply (solve_returns_before_last_step
               Bench.cco Bench.event_names_of (Bench.cell_step 0.25 3.1)
               (Bench.cell_step 0.25 3.1) Bench.circuit casadi_manager
               Bench.pack None Bench.parameters
               (mk_experiment 0.1 (repeat 2%float 8)) Bench.coefficients None
               1%float 1 Bench.fresh r s' eq_refl E).
  - destruct (Bench.run (Bench.cell_step 0.13 3.1) casadi_manager 0.1 8 1
                Bench.fresh) as [r s'|e s'] eqn:E;
      [vm_compute in E; discriminate|].
    vm_compute in E. injection E as <- <-.
    eexists _, _. split; [reflexivity|]. split; [reflexivity|].
    split; reflexivity.
Defined.
(** ** The inputs of the actors *)

Lemma nth_error_seq_lt (a n i : nat) :
  i < n -> nth_error (seq a n) i = Some (a + i).
Proof.
  revert a i. induction n as [|n IH]; intros a [|i] H; simpl; try lia.
  - now rewrite Nat.add_0_r.
  - rewrite IH by lia. f_equal. lia.
Qed.

Lemma nth_error_map_seq {A} (f : nat -> A) (n i : nat) :
  i < n -> nth_error (map f (seq 0 n)) i = Some (f i).
Proof.
  intros H. rewrite nth_error_map, nth_error_seq_lt by trivial. reflexivity.
Qed.

Lemma length_slice {A} (l : list A) (a b : nat) :
  b <= length l -> length (np.slice l a b) = b - a.
Proof.
  intros H. unfold np.slice. rewrite length_firstn, length_skipn. lia.
Qed.

Lemma res_mapM_get_nth_seq {A} (row : list A) (n a : nat) :
  a + n <= length row ->
  res_mapM (fun i => get_nth i row) (seq a n) = Ok (firstn n (skipn a row)).
Proof.
  revert a. induction n as [|n IH]; intros a H; simpl; trivial.
  unfold get_nth at 1, of_option.
  destruct (nth_error row a) as [x|] eqn:E;
    [|apply nth_error_None in E; lia].
  simpl. rewrite IH by lia. simpl.
  now rewrite (skipn_nth_error _ _ _ E).
Qed.

Lemma combine_skipn {A B} (l1 : list A) (l2 : list B) (n : nat) :
  combine (skipn n l1) (skipn n l2) = skipn n (combine l1 l2).
Proof.
  revert l1 l2. induction n as [|n IH]; intros [|x l1] [|y l2]; simpl;
    trivial.
  now rewrite combine_nil.
Qed.

Lemma zip_with_slice {A B C} (f : A -> B -> C) (l1 : list A) (l2 : list B)
    (a b : nat) :
  zip_with f (np.slice l1 a b) (np.slice l2 a b)
  = np.slice (zip_with f l1 l2) a b.
Proof.
  unfold zip_with, np.slice.
  now rewrite skipn_map, firstn_map, <- combine_skipn, combine_firstn.
Qed.

Lemma length_zip_with {A B C} (f : A -> B -> C) (l1 : list A) (l2 : list B) :
  length (zip_with f l1 l2) = Nat.min (length l1) (length l2).
Proof. unfold zip_with. now rewrite length_map, length_combine. Qed.

Section Inputs.

Context {CellSol CasadiObjs : Type}.

Local Notation state := (state CellSol CasadiObjs).

(** The sections that [split_models] cuts the cells and the heat transfer
    coefficients into: as many as workers, or one for the casadi manager. *)
Lemma split_models_sections (kind : manager_kind) (Nspm nproc : nat)
    (htc0 : list float) (s s' : state) :
  kind <> generic_manager ->
  split_models kind Nspm nproc htc0 s = Done tt s' ->
  let W := if is_remote kind then nproc else 1 in
  0 < W /\
  np.array_split (np.arange Nspm) W = Ok (split_index (self s')) /\
  np.array_split htc0 W = Ok (htc (self s')).
Proof.
  intros Hk H.
  destruct kind; try contradiction; unfold split_models in H; done_all H;
    cbn [self htc split_index set_htc set_split_index set_spm_per_worker
         is_remote];
    (split; [|split; assumption]);
    first [ lia | destruct nproc; [discriminate|lia] ].
Qed.

Lemma build_inputs_for_sections (W N : nat) (row htc0 : list float)
    (indices : list nat) (s : state) :
  0 < W ->
  np.array_split (np.arange N) W = Ok (split_index (self s)) ->
  np.array_split htc0 W = Ok (htc (self s)) ->
  nth_error (shm_i_app (self s)) (timestep (self s)) = Some row ->
  length row = N -> length htc0 = N ->
  Forall (fun i => i < W) indices ->
  build_inputs_for indices s
  = Done (map (fun i => np.slice (zip_with mk_input row htc0)
                                 (div_point N W i) (div_point N W (i + 1)))
              indices) s.
Proof.
  intros HW Hsi Hhtc Hrow Hlen Hlen' Hind.
  rewrite array_split_ok in Hsi by trivial.
  rewrite array_split_ok in Hhtc by trivial.
  injection Hsi as Hsi. injection Hhtc as Hhtc.
  rewrite Hlen' in Hhtc.
  replace (length (np.arange N)) with N in Hsi
    by (unfold np.arange; now rewrite length_seq).
  induction Hind as [|i indices Hi _ IH]; simpl; trivial.
  assert (Hmono : div_point N W i <= div_point N W (i + 1))
    by (apply div_point_mono; lia).
  assert (Hle : div_point N W (i + 1) <= N)
    by (apply div_point_le_total; lia).
  unfold actor_i_app, actor_htc. cbv beta iota delta [bind get].
  rewrite <- Hsi. unfold get_nth at 1.
  rewrite nth_error_map_seq by trivial.
  cbv beta iota delta [of_option lift ret]. unfold matrix in *.
  unfold get_nth at 1. rewrite Hrow. cbv beta iota delta [of_option lift ret].
  rewrite slice_arange by trivial.
  rewrite res_mapM_get_nth_seq by lia. cbv beta iota.
  change (firstn (div_point N W (i + 1) - div_point N W i)
            (skipn (div_point N W i) row))
    with (np.slice row (div_point N W i) (div_point N W (i + 1))).
  rewrite <- Hhtc. unfold get_nth at 1.
  rewrite nth_error_map_seq by trivial.
  cbv beta iota delta [of_option lift ret].
  unfold build_inputs_dict. rewrite build_inputs_from_pairs by lia.
  rewrite !length_slice by lia. rewrite Nat.leb_refl.
  cbv beta iota delta [of_option lift ret]. cbn [skipn].
  unfold bind in IH. rewrite IH. now rewrite zip_with_slice.
Qed.

(** The inputs that [build_inputs] hands to the actors, put end to end, are
    the currents of the step paired cell by cell with the heat transfer
    coefficients: the split over the workers leaves out no cell, repeats
    none and keeps their order. *)
Theorem build_inputs_covers_pack (kind : manager_kind) (Nspm nproc : nat)
    (htc0 row : list float) (s0 s1 s : state) :
  kind <> generic_manager ->
  split_models kind Nspm nproc htc0 s0 = Done tt s1 ->
  split_index (self s) = split_index (self s1) ->
  htc (self s) = htc (self s1) ->
  length (actors (self s)) = (if is_remote kind then nproc else 1) ->
  nth_error (shm_i_app (self s)) (timestep (self s)) = Some row ->
  length row = Nspm -> length htc0 = Nspm ->
  exists inputs,
    build_inputs s = Done inputs s /\
    length inputs = length (actors (self s)) /\
    concat inputs = zip_with mk_input row htc0.
Proof.
  intros Hk Hsplit Hsi Hhtc Hacts Hrow Hlen Hlen'.
  apply split_models_sections in Hsplit as (HW & Hsi' & Hhtc'); trivial.
  rewrite <- Hsi in Hsi'. rewrite <- Hhtc in Hhtc'.
  set (W := if is_remote kind then nproc else 1) in *.
  unfold build_inputs, bind, get. rewrite Hacts.
  rewrite (build_inputs_for_sections W Nspm row htc0); trivial.
  - eexists. split; [reflexivity|]. split.
    + now rewrite length_map, length_seq.
    + destruct (concat_slices (zip_with mk_input row htc0)
                  (div_point Nspm W) W) as [_ ->].
      * intros; apply div_point_mono; lia.
      * rewrite div_point_0, div_point_last by lia.
        replace Nspm with (length (zip_with mk_input row htc0))
          by (rewrite length_zip_with; lia).
        apply slice_all.
  - apply Forall_forall. intros i Hi. apply in_seq in Hi. lia.
Qed.

End Inputs.

(** Two cells on two ray workers: each actor is handed its own cell. *)
Lemma build_inputs_covers_pack_witness :
  exists inputs,
    build_inputs Bench.two_workers = Done inputs Bench.two_workers /\
    inputs = [[mk_input (-0.5) 10]; [mk_input (-0.7) 10]].
Proof.
  destruct (build_inputs_covers_pack ray_manager 2 2 Bench.coefficients
              [-0.5; -0.7]%float Bench.fresh Bench.split_in_two
              Bench.two_workers
              ltac:(discriminate) eq_refl eq_refl eq_refl eq_refl eq_refl
              eq_refl eq_refl)
    as (inputs & H1 & _ & _).
  exists inputs. split; [exact H1|].
  vm_compute in H1. now injection H1 as <-.
Defined.
(** ** The series of the result *)

Lemma set_nth_length {A} (i : nat) (v : A) (l l' : list A) :
  set_nth i v l = Ok l' -> length l' = length l.
Proof. intros H. now apply nth_error_set_nth in H. Qed.

Lemma set_planes_shape (N step : nat) (vals : matrix) (out out' : list matrix) :
  Forall (fun plane : matrix => length plane = N) out ->
  set_planes step vals out = Ok out' ->
  Forall (fun plane : matrix => length plane = N) out'.
Proof.
  intros H. revert vals out'.
  induction H as [|plane out Hp _ IH]; intros [|v vals] out'; simpl;
    try discriminate.
  - intros E. inversion E. constructor.
  - intros E. inversion E. constructor.
  -
    destruct (get_nth step plane) as [old|]; simpl; [|discriminate].
    destruct (np.broadcast_to (length old) v) as [v'|]; simpl;
      [|discriminate].
    destruct (set_nth step v' plane) as [plane'|] eqn:E; simpl;
      [|discriminate].
    destruct (set_planes step vals out) as [t|] eqn:Et; simpl;
      [|discriminate].
    intros E'. inversion E'. constructor; [|now apply (IH vals)].
    apply set_nth_length in E. congruence.
Qed.

Lemma scatter_planes_shape (N step : nat) (idx : list nat) (vals : matrix)
    (out out' : list matrix) :
  Forall (fun plane : matrix => length plane = N) out ->
  scatter_planes step idx vals out = Ok out' ->
  Forall (fun plane : matrix => length plane = N) out'.
Proof.
  intros H. revert vals out'.
  induction H as [|plane out Hp _ IH]; intros [|v vals] out'; simpl;
    try discriminate.
  - intros E. inversion E. constructor.
  - intros E. inversion E. constructor.
  -
    destruct (get_nth step plane) as [old|]; simpl; [|discriminate].
    destruct (np.broadcast_to (length idx) v) as [v'|]; simpl;
      [|discriminate].
    destruct (scatter idx v' old) as [new|]; simpl; [|discriminate].
    destruct (set_nth step new plane) as [plane'|] eqn:E; simpl;
      [|discriminate].
    destruct (scatter_planes step idx vals out) as [t|] eqn:Et; simpl;
      [|discriminate].
    intros E'. inversion E'. constructor; [|now apply (IH vals)].
    apply set_nth_length in E. congruence.
Qed.

Section Shape.

Context {CellSol CasadiObjs : Type}.
Variable event_names_of : CasadiObjs -> list string.
Variables ss ms :
  CasadiObjs -> list (option CellSol) -> list cell_input ->
  option (list (option CellSol) * matrix * matrix).
Variable circuit : netlist_t -> list float * list float.
Variable N : nat.

Local Notation state := (state CellSol CasadiObjs).
Local Notation rows := (Forall (fun plane : matrix => length plane = N)).

Lemma inv_shaped_set_output (o' : list matrix) :
  triple (fun s : state => shaped N s /\ rows o') (modify (set_output o'))
         (fun _ => shaped N) (shaped N).
Proof. apply triple_modify. intros s [[H1 H2] H3]. now split. Qed.

Lemma inv_shaped_store_outputs (step : nat) (outs : list matrix) (i : nat) :
  inv (shaped N : state -> Prop) (store_outputs step i outs).
Proof.
  revert i. induction outs as [|out rest IH]; intros i; simpl;
    [apply inv_ret|].
  apply inv_bind; [apply inv_get|intros si].
  apply inv_bind; [apply inv_lift|intros idx].
  apply triple_bind
    with (Q1 := fun o s => shaped N s /\ o = output (self s));
    [apply triple_get; auto|intros o].
  apply triple_bind with (Q1 := fun o' s => shaped N s /\ rows o').
  { apply triple_lift; [|intros e s _ [Hs _]; exact Hs].
    intros o' s E [Hs ->]. split; trivial.
    unfold scatter_output_step in E.
    destruct (np.broadcast_to _ out) as [vals|]; simpl in E;
      [|discriminate].
    eapply scatter_planes_shape; [apply Hs|exact E]. }
  intros o'. apply triple_bind with (Q1 := fun _ => shaped N);
    [apply inv_shaped_set_output|intros _; apply IH].
Qed.

Lemma inv_shaped_get_actor_output (kind : manager_kind) (step : nat) :
  inv (shaped N : state -> Prop) (get_actor_output kind step).
Proof.
  destruct kind; simpl; try apply inv_ret;
    unfold get_remote_output, get_casadi_output;
    (apply inv_bind; [apply inv_get|intros acts]).
  - apply inv_bind; [apply inv_lift|intros outs].
    apply inv_shaped_store_outputs.
  - apply inv_bind; [apply inv_lift|intros a0].
    apply inv_bind; [apply inv_lift|intros out].
    apply triple_bind
      with (Q1 := fun o s => shaped N s /\ o = output (self s));
      [apply triple_get; auto|intros o].
    apply triple_bind with (Q1 := fun o' s => shaped N s /\ rows o').
    { apply triple_lift; [|intros e s _ [Hs _]; exact Hs].
      intros o' s E [Hs ->]. split; trivial.
      unfold set_output_step in E.
      destruct (np.broadcast_to _ out) as [vals|]; simpl in E;
        [|discriminate].
      eapply set_planes_shape; [apply Hs|exact E]. }
    intros o'. apply inv_shaped_set_output.
  - apply inv_bind; [apply inv_lift|intros outs].
    apply inv_shaped_store_outputs.
Qed.

Lemma inv_shaped_store_next_current (env : loop_env) (step : nat)
    (l : locals) :
  inv (shaped N : state -> Prop) (store_next_current env step l).
Proof.
  unfold store_next_current.
  destruct (time l <? end_time env)%float; [|apply inv_ret].
  apply triple_bind
    with (Q1 := fun shm s => shaped N s /\ shm = shm_i_app (self s));
    [apply triple_get; auto|intros shm].
  apply triple_bind
    with (Q1 := fun shm' s => shaped N s /\ length shm' = N).
  { apply triple_lift; [|intros e s _ [Hs _]; exact Hs].
    intros shm' s E [Hs ->]. split; trivial.
    apply set_row_ok in E as (_ & _ & Hl & _). destruct Hs as [H1 _].
    unfold matrix in *. congruence. }
  intros shm'. apply triple_modify. intros s [[H1 H2] H3]. now split.
Qed.

Lemma inv_shaped_loop_body (kind : manager_kind) (env : loop_env)
    (step : nat) (l : locals) :
  inv (shaped N : state -> Prop)
      (loop_body event_names_of ss ms circuit kind env step l).
Proof.
  unfold loop_body, print.
  repeat first
    [ apply inv_step_actors; [intros ? ? Hs _; exact Hs|intros ? ? Hs; exact Hs]
    | apply inv_shaped_get_actor_output
    | apply inv_update_netlist; intros ? ? Hs _; exact Hs
    | apply inv_resolve_circuit
    | apply inv_shaped_store_next_current
    | apply inv_logger; intros ? ? Hs; exact Hs
    | apply inv_modify; intros ? Hs; exact Hs
    | inv_step ].
Qed.

Lemma inv_shaped_run_loop (kind : manager_kind) (env : loop_env)
    (steps : list nat) (l : locals) :
  inv (shaped N : state -> Prop)
      (run_loop event_names_of ss ms circuit kind env steps l).
Proof.
  revert l. induction steps as [|step rest IH]; intros l; simpl.
  - apply inv_ret.
  - apply inv_bind; [apply inv_shaped_loop_body|].
    intros [l'|l']; [apply IH|apply inv_ret].
Qed.

End Shape.

Lemma resolved_series (circuit : netlist_t -> list float * list float)
    (env : loop_env) (now : float) (l : locals) (nl : netlist_t)
    (l1 : locals) :
  resolved circuit env now l nl l1 ->
  step l1 = step l /\
  (length (record_times l) = length (V_terminal l) ->
   length (record_times l1) = length (V_terminal l1)) /\
  length (record_times l) <= length (record_times l1)
  <= length (record_times l) + 1 /\
  ((now <=? end_time env)%float = true ->
   length (record_times l1) = length (record_times l) + 1).
Proof.
  unfold resolved. destruct (now <=? end_time env)%float.
  - intros (vt & _ & ->). cbn. rewrite !length_app. simpl.
    repeat split; lia.
  - intros ->. cbn. repeat split; try lia; discriminate.
Qed.

Section Series.

Context {CellSol CasadiObjs SimFunc : Type}.
Variable cco :
  option SimFunc -> parameter_values_t -> float -> float -> float ->
  float -> nat -> nat -> list string -> bool -> CasadiObjs.
Variable event_names_of : CasadiObjs -> list string.
Variables ss ms :
  CasadiObjs -> list (option CellSol) -> list cell_input ->
  option (list (option CellSol) * matrix * matrix).
Variable circuit : netlist_t -> list float * list float.

Local Notation state := (state CellSol CasadiObjs).

(** The times and terminal voltages that the loop has recorded when it
    returns, [last] being the step it ran last. *)
Lemma run_loop_series (kind : manager_kind) (env : loop_env) (d : float)
    (len a : nat) (l : locals) (s : state) (l' : locals) (s' : state) :
  run_loop event_names_of ss ms circuit kind env (seq a len) l s
  = Done l' s' ->
  1 <= len ->
  timestep (self s) = a ->
  dt (self s) = d ->
  time l = clock d a ->
  length (record_times l) = length (V_terminal l) ->
  length (record_times l) <= a ->
  (clock_in_time d (end_time env) a -> length (record_times l) = a) ->
  exists last,
    step l' = Some last /\
    a <= last < a + len /\
    length (record_times l') = length (V_terminal l') /\
    length (record_times l') <= last + 1 /\
    (clock_in_time d (end_time env) (last + 1) ->
     length (record_times l') = last + 1).
Proof.
  revert a l s. induction len as [|len IH];
    intros a l s H Hlen Hts Hdt Htime Heq Hle Hexact; [lia|].
  cbn [seq run_loop] in H.
  apply bind_done in H as (f & s1 & Hbody & H).
  apply loop_body_done in Hbody
    as (sB & temp_v & temp_ocv & i_app & p & l1 & _ & _ & _ & _ & _ & _ & _
        & (Hres & _ & _) & _ & _ & Hdt' & _ & _ & _ & _ & _ & _ & Hf
        & Hts').
  pose proof (resolved_time _ _ _ _ _ _ Hres) as Htime1.
  apply resolved_series in Hres as (Hstep & Heq1 & [Hlo Hhi] & Hrec).
  cbn [time bind_step step record_times V_terminal] in *.
  rewrite Htime, Hdt in Htime1, Hrec.
  change (clock d a + d)%float with (clock d (S a)) in Htime1, Hrec.
  assert (Hexact1 : clock_in_time d (end_time env) (S a) ->
                    length (record_times l1) = S a).
  { intros Hc. rewrite Hrec by (apply Hc; lia).
    rewrite Hexact; [lia|]. intros k Hk. apply Hc. lia. }
  assert (Hhere : exists last,
             step l1 = Some last /\ a <= last < a + S len /\
             length (record_times l1) = length (V_terminal l1) /\
             length (record_times l1) <= last + 1 /\
             (clock_in_time d (end_time env) (last + 1) ->
              length (record_times l1) = last + 1)).
  { exists a. replace (a + 1) with (S a) by lia.
    repeat split; auto; lia. }
  destruct (cutoff_reached env temp_v); subst f.
  - apply ret_done in H as [<- _]. exact Hhere.
  - destruct len as [|len].
    + simpl in H. apply ret_done in H as [<- _]. exact Hhere.
    + apply (IH (S a) l1 s1) in H; try lia; auto; try congruence.
      destruct H as (last & H1 & H2 & H3). exists last.
      repeat split; try tauto; lia.
Qed.


End Series.

(** ** The actors that [setup_actors] creates *)

Section Actors.

Context {CellSol CasadiObjs SimFunc : Type}.
Variable cco :
  option SimFunc -> parameter_values_t -> float -> float -> float ->
  float -> nat -> nat -> list string -> bool -> CasadiObjs.

Local Notation state := (state CellSol CasadiObjs).
Local Notation actor := (generic_actor CellSol CasadiObjs).

Lemma remote_actors_sizes (sim_func : option SimFunc)
    (parameter_values : parameter_values_t) (d I_init htc_init : float)
    (names : list string) (initial_soc : float) (sizes : list nat)
    (n a : nat) (acts : list actor) :
  res_mapM (fun i =>
    res_bind (spm_at i (SpmList sizes)) (fun Nspm =>
    Ok (actor_setup cco Nspm sim_func parameter_values d I_init htc_init
                    names initial_soc 1))) (seq a n) = Ok acts ->
  map (fun x => length (step_solutions x)) acts = firstn n (skipn a sizes) /\
  Forall (fresh_actor false) acts.
Proof.
  revert a acts. induction n as [|n IH]; intros a acts; simpl.
  - intros H. inversion H. now split.
  - unfold get_nth, of_option.
    destruct (nth_error sizes a) as [Nspm|] eqn:E; simpl; [|discriminate].
    destruct (res_mapM _ (seq (S a) n)) as [t|] eqn:Et; simpl;
      [|discriminate].
    intros H. inversion H. subst acts.
    apply IH in Et as (H1 & H2).
    rewrite (skipn_nth_error _ _ _ E). simpl.
    rewrite repeat_length, H1. split; trivial.
    constructor; trivial. repeat split. simpl.
    now rewrite repeat_length.
Qed.

(** After [split_models], [setup_actors] creates one actor per group of
    cell indices, each for as many cells as its group holds and with no
    solution or event yet; the actors of ray and dask managers step their
    cells one by one, the casadi actor steps them mapped when there is more
    than one process. *)
Theorem actors_match_split (kind : manager_kind) (Nspm nproc : nat)
    (htc0 : list float) (sim_func : option SimFunc)
    (parameter_values : parameter_values_t)
    (I_init htc_init initial_soc : float) (s0 s1 s2 s3 : state) :
  kind <> generic_manager ->
  split_models kind Nspm nproc htc0 s0 = Done tt s1 ->
  spm_per_worker (self s2) = spm_per_worker (self s1) ->
  setup_actors cco kind sim_func parameter_values nproc I_init htc_init
               initial_soc s2 = Done tt s3 ->
  map (fun a => length (step_solutions a)) (actors (self s3))
  = map (@length nat) (split_index (self s1)) /\
  Forall (fresh_actor (negb (is_remote kind) && (1 <? nproc)))
         (actors (self s3)).
Proof.
  intros Hk Hsplit Hspw Hsetup.
  pose proof (split_models_sections _ _ _ _ _ _ Hk Hsplit) as (HW & Hsi & _).
  apply array_split_concat in Hsi as [Hlen Hcat].
  assert (Hall : firstn (if is_remote kind then nproc else 1)
                   (map (@length nat) (split_index (self s1)))
                 = map (@length nat) (split_index (self s1))).
  { rewrite <- Hlen, <- (length_map (@length nat)). apply firstn_all. }
  clear HW.
  destruct kind; try contradiction; cbn [is_remote negb andb] in *;
    unfold split_models in Hsplit; done_all Hsplit;
    cbn [self spm_per_worker split_index set_htc set_split_index
         set_spm_per_worker] in *;
    unfold setup_actors, setup_remote_actors, logger in Hsetup;
    done_all Hsetup; cbn [self actors set_actors] in *.
  - rewrite Hspw in *.
    apply remote_actors_sizes in E1 as (H1 & H2).
    rewrite skipn_O, Hall in H1. now split.
  - rewrite Hspw in Hsetup. done_all Hsetup. cbn [self actors set_actors].
    destruct a as [|g [|g' a]]; try discriminate.
    cbn [concat] in Hcat. rewrite app_nil_r in Hcat. subst g.
    simpl. unfold np.arange. rewrite repeat_length, length_seq.
    split; trivial. repeat constructor. simpl. now rewrite repeat_length.
  - rewrite Hspw in *.
    apply remote_actors_sizes in E1 as (H1 & H2).
    rewrite skipn_O, Hall in H1. now split.
Qed.

End Actors.

(** Two cells on two ray workers: two actors of one cell each. *)
Lemma actors_match_split_witness :
  map (fun a => length (step_solutions a))
      (actors (self (final_state
         (setup_actors Bench.cco ray_manager None Bench.parameters 2 1 10 1
                       Bench.split_in_two))))
  = [1; 1].
Proof.
  exact (proj1 (actors_match_split Bench.cco ray_manager 2 2
                  Bench.coefficients None Bench.parameters 1 10 1
                  Bench.fresh Bench.split_in_two Bench.split_in_two
                  (final_state
                     (setup_actors Bench.cco ray_manager None
                        Bench.parameters 2 1 10 1 Bench.split_in_two))
                  ltac:(discriminate) eq_refl eq_refl eq_refl)).
Defined.
(** ** What [get_actor_output] writes into the output array *)

(** ** Gathering the outputs of the actors *)

Lemma set_nth_split {A} (i : nat) (v : A) (l : list A) :
  i < length l -> set_nth i v l = Ok (firstn i l ++ v :: skipn (S i) l).
Proof.
  revert i. induction l as [|x l IH]; intros [|i] H; simpl in *; try lia;
    trivial.
  now rewrite IH by lia.
Qed.

(** Assigning at consecutive indices replaces a stretch of the row. *)
Lemma scatter_seq (v old : list float) (a : nat) :
  a + length v <= length old ->
  scatter (seq a (length v)) v old
  = Ok (firstn a old ++ v ++ skipn (a + length v) old).
Proof.
  revert a old. induction v as [|x v IH]; intros a old H; simpl in *.
  - now rewrite Nat.add_0_r, firstn_skipn.
  - rewrite set_nth_split by lia.
    set (R := skipn (S a) old). set (F := firstn a old). cbn [res_bind].
    assert (HF : length F = a) by (subst F; rewrite length_firstn; lia).
    rewrite IH;
      [|rewrite length_app; cbn [length]; subst R; rewrite length_skipn; lia].
    f_equal. rewrite (firstn_app (S a)), HF.
    replace (S a - a) with 1 by lia. rewrite (firstn_all2 F) by lia.
    cbn [firstn]. rewrite skipn_app, HF, (skipn_all2 F) by lia.
    replace (S a + length v - a) with (S (length v)) by lia.
    cbn [skipn app]. subst R. rewrite skipn_skipn, <- app_assoc.
    cbn [app]. do 4 f_equal. lia.
Qed.

Lemma broadcast_to_exact {A} (v : list A) (n : nat) :
  length v = n -> np.broadcast_to n v = Ok v.
Proof. intros H. unfold np.broadcast_to. now rewrite H, Nat.eqb_refl. Qed.

(** One actor's rows written into the planes at [step], for a group of
    consecutive cells. *)
Lemma scatter_planes_spec (step a n : nat) (out : list matrix)
    (vals : matrix) :
  length vals = length out ->
  (forall j plane, nth_error out j = Some plane ->
     exists old, nth_error plane step = Some old /\ a + n <= length old) ->
  (forall j v, nth_error vals j = Some v -> length v = n) ->
  exists out',
    scatter_planes step (seq a n) vals out = Ok out' /\
    length out' = length out /\
    forall j plane v old,
      nth_error out j = Some plane -> nth_error vals j = Some v ->
      nth_error plane step = Some old ->
      exists plane',
        nth_error out' j = Some plane' /\
        length plane' = length plane /\
        forall k, nth_error plane' k
                  = if k =? step then Some (splice a v old)
                    else nth_error plane k.
Proof.
  revert vals. induction out as [|plane out IH]; intros [|v vals] Hlen Hout
    Hvals; try discriminate.
  - exists []. repeat split. intros [|j]; discriminate.
  - destruct (Hout 0 plane eq_refl) as (old & Hold & Hle).
    pose proof (Hvals 0 v eq_refl) as Hv.
    destruct (IH vals) as (out' & E & Hl & Hrows).
    { simpl in Hlen. lia. }
    { intros j; apply (Hout (S j)). }
    { intros j; apply (Hvals (S j)). }
    assert (Hstep : step < length plane)
      by (apply nth_error_Some; congruence).
    destruct (set_nth step (splice a v old) plane) as [plane'|e] eqn:Es;
      [|rewrite set_nth_split in Es by trivial; discriminate].
    exists (plane' :: out'). split; [|split].
    + cbn [scatter_planes]. unfold get_nth. rewrite Hold.
      cbn [of_option res_bind]. rewrite length_seq.
      rewrite broadcast_to_exact by trivial. cbn [res_bind].
      subst n. rewrite scatter_seq by lia.
      change (firstn a old ++ v ++ skipn (a + length v) old)
        with (splice a v old).
      cbn [res_bind]. rewrite Es. cbn [res_bind]. rewrite E. reflexivity.
    + simpl. now rewrite Hl.
    + apply nth_error_set_nth in Es as [Hl' Hk].
      intros [|j] plane0 v0 old0 Hp Hv0 Ho; simpl in Hp, Hv0.
      * injection Hp as <-. injection Hv0 as <-.
        rewrite Hold in Ho. injection Ho as <-.
        exists plane'. repeat split; trivial.
      * apply (Hrows j plane0 v0 old0); trivial.
Qed.

Lemma length_splice (a : nat) (v old : list float) :
  a + length v <= length old -> length (splice a v old) = length old.
Proof.
  intros H. unfold splice.
  rewrite !length_app, length_firstn, length_skipn. lia.
Qed.

Lemma splice_firstn (a : nat) (v old : list float) :
  a <= length old ->
  firstn (a + length v) (splice a v old) = firstn a old ++ v.
Proof.
  intros H. unfold splice.
  assert (Hf : length (firstn a old) = a) by (rewrite length_firstn; lia).
  rewrite app_assoc, firstn_app, length_app, Hf.
  replace (a + length v - (a + length v)) with 0 by lia.
  rewrite firstn_all2 by (rewrite length_app; lia).
  simpl. now rewrite app_nil_r.
Qed.

Lemma splice_skipn (a b : nat) (v old : list float) :
  a <= length old -> a + length v <= b ->
  skipn b (splice a v old) = skipn b old.
Proof.
  intros H Hb. unfold splice.
  assert (Hf : length (firstn a old) = a) by (rewrite length_firstn; lia).
  rewrite app_assoc, skipn_app, length_app, Hf.
  rewrite skipn_all2 by (rewrite length_app; lia).
  rewrite skipn_skipn. simpl. f_equal. lia.
Qed.

Lemma div_point_le (Ntotal Nsections i k : nat) :
  0 < Nsections -> i <= k -> k <= Nsections ->
  div_point Ntotal Nsections i <= div_point Ntotal Nsections k.
Proof. intros. rewrite !div_point_eq by lia. nia. Qed.

Lemma set_planes_spec (step : nat) (out : list matrix) (vals : matrix) :
  length vals = length out ->
  (forall j plane v, nth_error out j = Some plane ->
     nth_error vals j = Some v ->
     exists old, nth_error plane step = Some old /\ length v = length old) ->
  exists out',
    set_planes step vals out = Ok out' /\
    length out' = length out /\
    forall j plane v,
      nth_error out j = Some plane -> nth_error vals j = Some v ->
      exists plane',
        nth_error out' j = Some plane' /\
        length plane' = length plane /\
        forall k, nth_error plane' k
                  = if k =? step then Some v else nth_error plane k.
Proof.
  revert vals. induction out as [|plane out IH]; intros [|v vals] Hlen Hout;
    try discriminate.
  - exists []. repeat split. intros [|j]; discriminate.
  - destruct (Hout 0 plane v eq_refl eq_refl) as (old & Hold & Hv).
    destruct (IH vals) as (out' & E & Hl & Hrows).
    { simpl in Hlen. lia. }
    { intros j; apply (Hout (S j)). }
    assert (Hstep : step < length plane)
      by (apply nth_error_Some; congruence).
    destruct (set_nth step v plane) as [plane'|e] eqn:Es;
      [|rewrite set_nth_split in Es by trivial; discriminate].
    exists (plane' :: out'). split; [|split].
    + cbn [set_planes]. unfold get_nth. rewrite Hold.
      cbn [of_option res_bind]. rewrite broadcast_to_exact by trivial.
      cbn [res_bind]. rewrite Es. cbn [res_bind]. rewrite E. reflexivity.
    + simpl. now rewrite Hl.
    + apply nth_error_set_nth in Es as [Hl' Hk].
      intros [|j] plane0 v0 Hp Hv0; simpl in Hp, Hv0.
      * injection Hp as <-. injection Hv0 as <-.
        exists plane'. repeat split; trivial.
      * apply (Hrows j plane0 v0); trivial.
Qed.

Section Gather.

Context {CellSol CasadiObjs : Type}.
Variables W N step : nat.

Local Notation state := (state CellSol CasadiObjs).
Local Notation dp := (div_point N W).

Lemma store_outputs_gathers (rest : list matrix) (i : nat) (s : state) :
  0 < W -> i + length rest <= W ->
  np.array_split (np.arange N) W = Ok (split_index (self s)) ->
  (forall p out, nth_error rest p = Some out ->
     length out = length (output (self s)) /\
     forall j v, nth_error out j = Some v ->
                 length v = dp (i + p + 1) - dp (i + p)) ->
  (forall j plane, nth_error (output (self s)) j = Some plane ->
     exists old, nth_error plane step = Some old /\ length old = N) ->
  exists o',
    store_outputs step i rest s
    = Done tt (mk_state (set_output o' (self s)) (world s)) /\
    length o' = length (output (self s)) /\
    forall j plane old,
      nth_error (output (self s)) j = Some plane ->
      nth_error plane step = Some old ->
      exists plane',
        nth_error o' j = Some plane' /\
        length plane' = length plane /\
        forall k, nth_error plane' k
                  = if k =? step
                    then Some (firstn (dp i) old ++ gathered rest j
                               ++ skipn (dp (i + length rest)) old)
                    else nth_error plane k.
Proof.
  intros HW. revert i s.
  induction rest as [|out rest IH]; intros i s Hi Hsi Hrest Hrows.
  - exists (output (self s)). split; [destruct s as [[] ?]; reflexivity|].
    split; trivial. intros j plane old Hp Ho. exists plane.
    repeat split; trivial. intros k. simpl. rewrite Nat.add_0_r.
    unfold gathered. simpl. rewrite firstn_skipn.
    destruct (Nat.eqb_spec k step); [now subst|trivial].
  - simpl in Hi.
    assert (Hmono : dp i <= dp (i + 1)) by (apply div_point_mono; lia).
    assert (Hle : dp (i + 1) <= N) by (apply div_point_le_total; lia).
    destruct (Hrest 0 out eq_refl) as [Hout Hvs].
    rewrite Nat.add_0_r in Hvs.
    destruct (scatter_planes_spec step (dp i) (dp (i + 1) - dp i)
                (output (self s)) out) as (o1 & E1 & Hl1 & H1); trivial.
    { intros j plane Hp. destruct (Hrows j plane Hp) as (old & Ho & Hlen).
      exists old. split; trivial. lia. }
    set (s1 := mk_state (set_output o1 (self s)) (world s)).
    destruct (IH (S i) s1) as (o' & E' & Hl' & H'); try (simpl; lia).
    { exact Hsi. }
    { intros p out' Hp. destruct (Hrest (S p) out' Hp) as [Ha Hb].
      split; [simpl; congruence|].
      intros j v Hv. rewrite (Hb j v Hv). f_equal; f_equal; lia. }
    { simpl. intros j plane1 Hp1.
      assert (Hj : j < length (output (self s)))
        by (rewrite <- Hl1; apply nth_error_Some; congruence).
      destruct (nth_error (output (self s)) j) as [plane|] eqn:Hp;
        [|apply nth_error_None in Hp; lia].
      destruct (nth_error out j) as [v|] eqn:Hv;
        [|apply nth_error_None in Hv; lia].
      destruct (Hrows j plane Hp) as (old & Ho & Hlen).
      destruct (H1 j plane v old Hp Hv Ho) as (plane' & Hp' & _ & Hk).
      rewrite Hp1 in Hp'. injection Hp' as <-.
      eexists. split; [rewrite Hk, Nat.eqb_refl; reflexivity|].
      rewrite length_splice; [trivial|]. rewrite (Hvs j v Hv). lia. }
    exists o'. split; [|split].
    + cbn [store_outputs]. unfold bind at 1, get at 1.
      rewrite array_split_ok in Hsi by trivial. injection Hsi as Hsi.
      rewrite <- Hsi. unfold bind at 1, lift at 1, get_nth at 1.
      rewrite nth_error_map_seq by lia. cbn [of_option ret].
      replace (length (np.arange N)) with N
        by (unfold np.arange; now rewrite length_seq).
      rewrite slice_arange by trivial.
      unfold bind at 1, get at 1. unfold bind at 1, lift at 1.
      unfold scatter_output_step. rewrite broadcast_to_exact by trivial.
      cbn [res_bind]. rewrite E1. cbn [ret].
      unfold bind at 1, modify at 1. cbn [self world].
      fold s1. rewrite E'. reflexivity.
    + simpl in Hl'. congruence.
    + intros j plane old Hp Ho.
      assert (Hj : j < length out)
        by (rewrite Hout; apply nth_error_Some; congruence).
      destruct (nth_error out j) as [v|] eqn:Hv;
        [|apply nth_error_None in Hv; lia].
      destruct (Hrows j plane Hp) as (old0 & Ho0 & Hlen).
      rewrite Ho in Ho0. injection Ho0 as <-.
      destruct (H1 j plane v old Hp Hv Ho) as (plane1 & Hp1 & Hlp1 & Hk1).
      destruct (H' j plane1 (splice (dp i) v old)) as (plane' & Hp' & Hlp' & Hk').
      { exact Hp1. }
      { now rewrite Hk1, Nat.eqb_refl. }
      exists plane'. split; [exact Hp'|]. split; [congruence|].
      intros k. rewrite Hk'. destruct (k =? step) eqn:Ek; [|now rewrite Hk1, Ek].
      f_equal. pose proof (Hvs j v Hv) as Hlv.
      assert (Hdp : dp (i + 1) <= dp (S i + length rest))
        by (apply div_point_le; lia).
      replace (dp (S i)) with (dp i + length v)
        by (replace (S i) with (i + 1) by lia; lia).
      rewrite splice_firstn by lia.
      rewrite splice_skipn by lia.
      unfold gathered. cbn [map concat].
      rewrite (nth_error_nth _ _ _ Hv).
      replace (i + length (out :: rest)) with (S i + length rest)
        by (simpl; lia).
      now rewrite <- !app_assoc.
Qed.

End Gather.

Lemma Forall2_nth_right {A B} (R : A -> B -> Prop) l1 l2 p y :
  Forall2 R l1 l2 -> nth_error l2 p = Some y ->
  exists x, nth_error l1 p = Some x /\ R x y.
Proof.
  intros H. revert p. induction H as [|x0 y0 l1 l2 Hxy _ IH]; intros p.
  - destruct p; discriminate.
  - destruct p as [|p]; simpl.
    + intros [= <-]. now exists x0.
    + apply IH.
Qed.

Lemma res_mapM_Forall2 {A B} (f : A -> res B) l outs :
  Forall2 (fun a out => f a = Ok out) l outs -> res_mapM f l = Ok outs.
Proof.
  induction 1 as [|a out l outs Ha _ IH]; simpl; trivial.
  now rewrite Ha, IH.
Qed.

Section GatherOutput.

Context {CellSol CasadiObjs : Type}.

Local Notation state := (state CellSol CasadiObjs).
Local Notation actor := (generic_actor CellSol CasadiObjs).

(** [get_actor_output] of a ray, casadi or dask manager puts the actors'
    outputs side by side, in the order of the actors: when the cells are
    split over as many groups as there are actors and each actor holds an
    output with one row per variable and one column per cell of its group,
    the call writes at time step [step], for every variable [j], the rows
    [j] of all the outputs one after the other, and leaves every other
    time step of the output array as it was. *)
Theorem get_actor_output_gathers (kind : manager_kind) (N step : nat)
    (outs : list matrix) (s : state) :
  kind <> generic_manager ->
  (kind = casadi_manager -> length outs = 1) ->
  np.array_split (np.arange N) (length outs) = Ok (split_index (self s)) ->
  Forall2 (fun (a : actor) out => var_eval a = Some out)
          (actors (self s)) outs ->
  Forall2 (fun (group : list nat) (out : matrix) =>
             length out = length (output (self s)) /\
             Forall (fun v => length v = length group) out)
          (split_index (self s)) outs ->
  Forall (fun plane : matrix =>
            step < length plane /\ length (nth step plane []) = N)
         (output (self s)) ->
  exists s',
    get_actor_output kind step s = Done tt s' /\
    self s' = set_output (output (self s')) (self s) /\
    length (output (self s')) = length (output (self s)) /\
    forall j plane,
      nth_error (output (self s)) j = Some plane ->
      exists plane',
        nth_error (output (self s')) j = Some plane' /\
        length plane' = length plane /\
        forall k, nth_error plane' k
                  = if k =? step then Some (gathered outs j)
                    else nth_error plane k.
Proof.
  intros Hk Hone Hsi Hacts Hshape Hrows.
  enough (exists o',
    get_actor_output kind step s
    = Done tt (mk_state (set_output o' (self s)) (world s)) /\
    length o' = length (output (self s)) /\
    forall j plane,
      nth_error (output (self s)) j = Some plane ->
      exists plane',
        nth_error o' j = Some plane' /\
        length plane' = length plane /\
        forall k, nth_error plane' k
                  = if k =? step then Some (gathered outs j)
                    else nth_error plane k) as (o' & E & Hl & H).
  { eexists. split; [exact E|]. cbn [self]. split; [|split; [exact Hl|exact H]].
    destruct s as [[] ?]. reflexivity. }
  set (W := length outs) in *.
  assert (HW : 0 < W).
  { destruct (Nat.eq_dec W 0) as [E|]; [|lia].
    rewrite E in Hsi. discriminate. }
  assert (Hout : forall p out, nth_error outs p = Some out ->
            length out = length (output (self s)) /\
            forall j v, nth_error out j = Some v ->
              length v = div_point N W (0 + p + 1) - div_point N W (0 + p)).
  { intros p out Hp.
    destruct (Forall2_nth_right _ _ _ _ _ Hshape Hp) as (g & Hg & Hl & Hv).
    split; trivial. intros j v Hj.
    rewrite Forall_forall in Hv.
    rewrite (Hv v (nth_error_In _ _ Hj)).
    assert (Hpw : p < W) by (apply nth_error_Some; congruence).
    rewrite array_split_ok in Hsi by trivial. injection Hsi as Hsi.
    rewrite <- Hsi in Hg. rewrite nth_error_map_seq in Hg by trivial.
    injection Hg as <-.
    replace (length (np.arange N)) with N
      by (unfold np.arange; now rewrite length_seq).
    rewrite length_slice; [reflexivity|].
    unfold np.arange. rewrite length_seq.
    apply div_point_le_total; lia. }
  assert (Hrow : forall j plane, nth_error (output (self s)) j = Some plane ->
            exists old, nth_error plane step = Some old /\ length old = N).
  { intros j plane Hp. rewrite Forall_forall in Hrows.
    destruct (Hrows plane (nth_error_In _ _ Hp)) as [Hs Hl].
    destruct (nth_error plane step) as [old|] eqn:Ho;
      [|apply nth_error_None in Ho; lia].
    exists old. split; trivial.
    now rewrite (nth_error_nth _ _ _ Ho) in Hl. }
  assert (Hmap : res_mapM (@actor_output _ _) (actors (self s)) = Ok outs).
  { apply res_mapM_Forall2. eapply Forall2_impl; [|exact Hacts].
    intros a out Ha. unfold actor_output. now rewrite Ha. }
  destruct kind; try contradiction.
  - (* ray *)
    destruct (store_outputs_gathers W N step outs 0 s HW (Nat.le_refl W)
                Hsi Hout Hrow) as (o' & E & Hl & H).
    exists o'. split; [|split; trivial].
    + unfold get_actor_output, get_remote_output.
      unfold bind at 1, get at 1. unfold bind at 1, lift at 1.
      rewrite Hmap. exact E.
    + intros j plane Hp. destruct (Hrow j plane Hp) as (old & Ho & Hlen).
      destruct (H j plane old Hp Ho) as (plane' & Hp' & Hlp & Hkk).
      exists plane'. repeat split; trivial.
      intros k. rewrite Hkk. destruct (k =? step); trivial.
      rewrite div_point_0 by trivial. simpl firstn.
      replace (0 + length outs) with W by reflexivity.
      rewrite div_point_last by trivial.
      rewrite skipn_all2 by lia. now rewrite app_nil_r.
  - (* casadi *)
    specialize (Hone eq_refl).
    destruct outs as [|out [|]]; try discriminate.
    inversion Hacts as [|a0 ? acts ? Ha0 Hnil Eacts]; subst.
    inversion Hnil; subst.
    destruct (Hout 0 out eq_refl) as [Hlo Hv].
    assert (Hd : div_point N W (0 + 0 + 1) - div_point N W (0 + 0) = N).
    { change (0 + 0 + 1) with W. change (0 + 0) with 0.
      rewrite div_point_0, div_point_last by trivial. lia. }
    rewrite Hd in Hv.
    destruct (set_planes_spec step (output (self s)) out Hlo)
      as (o' & E & Hl & H).
    { intros j plane v Hp Hj. destruct (Hrow j plane Hp) as (old & Ho & Hlen).
      exists old. split; trivial. rewrite (Hv j v Hj). now symmetry. }
    exists o'. split; [|split; trivial].
    + unfold get_actor_output, get_casadi_output.
      unfold bind at 1, get at 1. rewrite <- Eacts.
      unfold bind at 1, lift at 1. cbn [get_nth nth_error of_option ret].
      unfold bind at 1, lift at 1. unfold actor_output at 1.
      rewrite Ha0. cbn [of_option ret].
      unfold bind at 1, get at 1. unfold bind at 1, lift at 1.
      unfold set_output_step. rewrite broadcast_to_exact by trivial.
      cbn [res_bind]. rewrite E. reflexivity.
    + intros j plane Hp.
      assert (Hj : j < length out)
        by (rewrite Hlo; apply nth_error_Some; congruence).
      destruct (nth_error out j) as [v|] eqn:Ev;
        [|apply nth_error_None in Ev; lia].
      destruct (H j plane v Hp Ev) as (plane' & Hp' & Hlp & Hkk).
      exists plane'. repeat split; trivial.
      intros k. rewrite Hkk. destruct (k =? step); trivial.
      unfold gathered. cbn [map concat].
      now rewrite (nth_error_nth _ _ _ Ev), app_nil_r.
  - (* dask *)
    destruct (store_outputs_gathers W N step outs 0 s HW (Nat.le_refl W)
                Hsi Hout Hrow) as (o' & E & Hl & H).
    exists o'. split; [|split; trivial].
    + unfold get_actor_output, get_remote_output.
      unfold bind at 1, get at 1. unfold bind at 1, lift at 1.
      rewrite Hmap. exact E.
    + intros j plane Hp. destruct (Hrow j plane Hp) as (old & Ho & Hlen).
      destruct (H j plane old Hp Ho) as (plane' & Hp' & Hlp & Hkk).
      exists plane'. repeat split; trivial.
      intros k. rewrite Hkk. destruct (k =? step); trivial.
      rewrite div_point_0 by trivial. simpl firstn.
      replace (0 + length outs) with W by reflexivity.
      rewrite div_point_last by trivial.
      rewrite skipn_all2 by lia. now rewrite app_nil_r.
Qed.

End GatherOutput.

Lemma get_actor_output_gathers_witness :
  exists s',
    get_actor_output ray_manager 1 Bench.three_cells = Done tt s' /\
    forall plane,
      nth_error (output (self Bench.three_cells)) 1 = Some plane ->
      exists plane',
        nth_error (output (self s')) 1 = Some plane' /\
        nth_error plane' 0 = nth_error plane 0 /\
        nth_error plane' 1 = Some [3; 4; 6]%float.
Proof.
  destruct (get_actor_output_gathers ray_manager 3 1
              [[[1; 2]; [3; 4]]; [[5]; [6]]]%float Bench.three_cells
              ltac:(discriminate) ltac:(discriminate) eq_refl
              ltac:(repeat constructor) ltac:(repeat constructor)
              ltac:(repeat constructor))
    as (s' & E & _ & _ & H).
  exists s'. split; [exact E|].
  intros plane Hp. destruct (H 1 plane Hp) as (plane' & Hp' & _ & Hk).
  exists plane'. split; [exact Hp'|]. split; [exact (Hk 0)|exact (Hk 1)].
Defined.
